(** * EMSMiner: a shallow embedding of [main.go] and its verification

    The Go program mines "ectocopial Mandelbrot seeds": points [c] of the
    complex plane whose escape depth lies in a requested range, collects
    [howmany] of them, sorts them and writes them as an [.ems] file.

    Conventions of the embedding
    - Go [int] is the 64-bit two's complement integer; it is a [Z] and
      every arithmetic operation that can leave the range is wrapped with
      [wrap].
    - Go [float64] is Rocq's primitive binary64 [float]: IEEE-754, round
      to nearest even, one rounding for each operation (no fused
      multiply-add), one NaN.  [complex128] is a pair of them, with the
      arithmetic the Go compiler emits.
    - Slices are lists, read with [!!] and written with [<[ _ := _ ]>];
      an index out of range is a run-time panic and is modelled as such.
      Memory is not bounded: [make] succeeds for every length that is not
      negative.
    - The pseudo-random generator is the list of the values successive
      calls of [rand.Float64] return; the wall clock of the guidemap
      probing phase is the number of probes it lets through.  A run that
      needs more random values than the list holds is [Starved].
    - Functions of Go's standard library the program calls but whose
      results the proofs never inspect ([math.Round], the conversion
      [int(float64)], [cmplx.Abs], [md5.Sum]) are section variables; the
      module [GoLib] has an implementation of each, to run the model.
    - The console, the progress report of [Mine] (wall clock arithmetic
      and printing) and the file system are left out. *)

From Stdlib Require Import ZArith Lia List Bool String Floats.
From Stdlib Require Import Sorting.Sorted.
From stdpp Require Import base list.
Import ListNotations.

Local Open Scope Z_scope.

(** ** Machine integers *)

Definition int_min : Z := - 2 ^ 63.
Definition int_max : Z := 2 ^ 63 - 1.

(** Two's complement wrap-around of a 64-bit signed integer. *)
Definition wrap (n : Z) : Z := (n + 2 ^ 63) mod 2 ^ 64 - 2 ^ 63.

Definition is_int (n : Z) : Prop := int_min <= n <= int_max.

(** ** Outcomes of a run

    [Panic] is a Go panic (an explicit [panic] or a run-time error),
    [Starved] says the finite prefix of the random source was used up
    (the real program would go on drawing), [OutOfFuel] that a fuelled loop
    of the model ran out of fuel (shown below never to happen). *)

Inductive outcome (A : Type) : Type :=
| Ok (a : A)
| Panic (msg : string)
| Starved
| OutOfFuel.

Arguments Ok {A} a.
Arguments Panic {A} msg.
Arguments Starved {A}.
Arguments OutOfFuel {A}.

Definition obind {A B : Type} (m : outcome A) (k : A -> outcome B) : outcome B :=
  match m with
  | Ok a => k a
  | Panic msg => Panic msg
  | Starved => Starved
  | OutOfFuel => OutOfFuel
  end.

Notation "'do' x <- m ; k" := (obind m (fun x => k))
  (at level 10, x name, m at level 100, k at level 200).

Definition index_out_of_range : string := "runtime error: index out of range".

(** ** complex128 *)

Record complex128 : Type := Complex { real : float; imag : float }.

(** [a * b] and [a + b] on complex128, as the compiler expands them. *)
Definition cmul (a b : complex128) : complex128 :=
  Complex (real a * real b - imag a * imag b)%float
          (real a * imag b + imag a * real b)%float.

Definition cadd (a b : complex128) : complex128 :=
  Complex (real a + real b)%float (imag a + imag b)%float.

(** [a == b] on complex128: both parts equal as floats. *)
Definition ceqb (a b : complex128) : bool :=
  (real a =? real b)%float && (imag a =? imag b)%float.

Definition czero : complex128 := Complex 0%float 0%float.

(** [b := 2.00 * 2.00], the square of the bailout radius. *)
Definition bailout : float := (2.00 * 2.00)%float.

(** The candidate both loops draw:
    [complex(rand.Float64()*4-2, rand.Float64()*2)]. *)
Definition candidate (u1 u2 : float) : complex128 :=
  Complex (u1 * 4 - 2)%float (u2 * 2)%float.

(** The candidates a random source holds, in the order they are drawn. *)
Fixpoint candidates (rnd : list float) : list complex128 :=
  match rnd with
  | u1 :: u2 :: rnd' => candidate u1 u2 :: candidates rnd'
  | _ => []
  end.

(** *** The plain escape time

    The reference the accepted seeds are checked against: iterate
    [z = z*z + c] from [z = 0] until [|z|^2 > 4] or the ceiling of
    [max + 2] iterations, with neither cycle detection nor guidemap. *)

Definition escaped (z : complex128) : bool :=
  (bailout <? real z * real z + imag z * imag z)%float.

Fixpoint plain_loop (ceiling : nat) (c z : complex128) (n : Z) : Z :=
  match ceiling with
  | O => n
  | S ceiling' =>
      let z := cadd (cmul z z) c in
      if escaped z then n + 1 else plain_loop ceiling' c z (n + 1)
  end.

Definition plain_escape (c : complex128) (max : Z) : Z :=
  plain_loop (Z.to_nat (max + 2)) c czero 0.

(** The orbit of [0]: [orbit c n] is [z] after [n] iterations. *)
Fixpoint orbit (c : complex128) (n : nat) : complex128 :=
  match n with
  | O => czero
  | S n' => cadd (cmul (orbit c n') (orbit c n')) c
  end.

(** *** Classes of floats

    [fin]: zero or finite; [pos_class]: a zero, a positive number or
    [+inf]; [signed_as s]: not NaN, of sign [s]. *)

Definition not_nan (x : spec_float) : Prop := x <> S754_nan.

Definition fin (x : spec_float) : Prop :=
  match x with S754_zero _ | S754_finite _ _ _ => True | _ => False end.

Definition pos_class (x : spec_float) : Prop :=
  match x with
  | S754_zero _ | S754_finite false _ _ | S754_infinity false => True
  | _ => False
  end.

Definition sign_of (x : spec_float) : bool :=
  match x with
  | S754_zero s | S754_infinity s | S754_finite s _ _ => s
  | S754_nan => false
  end.

Definition signed_as (s : bool) (x : spec_float) : Prop :=
  match x with
  | S754_zero s' | S754_infinity s' | S754_finite s' _ _ => s' = s
  | S754_nan => False
  end.

(** A float that is a number, a float that is a finite number, a point
    of the plane. *)
Definition is_number (x : float) : Prop := not_nan (Prim2SF x).
Definition is_finite (x : float) : Prop := fin (Prim2SF x).
Definition is_point (c : complex128) : Prop :=
  is_finite (real c) /\ is_finite (imag c).

(** The order of the floats that are numbers, as a lexicographic order on
    triples of integers: class, then exponent, then mantissa. *)
Definition SFkey (x : spec_float) : Z * Z * Z :=
  match x with
  | S754_infinity true => (-2, 0, 0)
  | S754_finite true m e => (-1, - e, - Z.pos m)
  | S754_zero _ => (0, 0, 0)
  | S754_nan => (0, 0, 0)
  | S754_finite false m e => (1, e, Z.pos m)
  | S754_infinity false => (2, 0, 0)
  end.

Definition klt (k1 k2 : Z * Z * Z) : Prop :=
  let '(c1, a1, b1) := k1 in
  let '(c2, a2, b2) := k2 in
  c1 < c2 \/ (c1 = c2 /\ (a1 < a2 \/ (a1 = a2 /\ b1 < b2))).

(** Conversion [float64(n)] of an int: the nearest binary64, ties to even. *)
Definition float64_of_int (n : Z) : float :=
  SF2Prim (binary_normalize prec emax n 0 false).

(** ** Guidemap *)

Record Guidemap : Type := mkGuidemap {
  itsWidth : Z;
  itsHeight : Z;
  itsMinR : float;
  itsMaxR : float;
  itsMinI : float;
  itsMaxI : float;
  itsDelR : float;
  itsDelI : float;
  itsData : list bool
}.

Definition set_itsData (this : Guidemap) (d : list bool) : Guidemap :=
  mkGuidemap (itsWidth this) (itsHeight this) (itsMinR this) (itsMaxR this)
             (itsMinI this) (itsMaxI this) (itsDelR this) (itsDelI this) d.

(** A guidemap as [GenerateGuidemap] builds it: a grid of at least one
    cell in each direction, stored row by row. *)
Record Guidemap_wf (this : Guidemap) : Prop := {
  wf_width : 1 <= itsWidth this;
  wf_height : 1 <= itsHeight this;
  wf_len : Z.of_nat (length (itsData this)) = itsWidth this * itsHeight this;
  wf_int : itsWidth this * itsHeight this <= int_max
}.

Section Miner.

(** [math.Round], the conversion [int(x)] of a float64 (its result on NaN
    and on values outside the int range depends on the platform) and
    [cmplx.Abs]. *)
Variable math_Round : float -> float.
Variable int_of_float64 : float -> Z.
Variable cmplx_Abs : complex128 -> float.

Definition Mark (this : Guidemap) (c : complex128) : outcome Guidemap :=
  let x := int_of_float64 (math_Round ((real c - itsMinR this) / itsDelR this)%float) in
  let y := int_of_float64 (math_Round ((imag c - itsMinI this) / itsDelI this)%float) in
  let x := if x <? 0 then 0 else x in
  let x := if wrap (itsWidth this - 1) <? x then wrap (itsWidth this - 1) else x in
  let y := if y <? 0 then 0 else y in
  let y := if wrap (itsHeight this - 1) <? y then wrap (itsHeight this - 1) else y in
  let idx := wrap (wrap (y * itsWidth this) + x) in
  if (0 <=? idx) && (idx <? Z.of_nat (length (itsData this)))
  then Ok (set_itsData this (<[Z.to_nat idx := true]> (itsData this)))
  else Panic index_out_of_range.

Definition Check (this : Guidemap) (c : complex128) : outcome bool :=
  let x := int_of_float64 (math_Round ((real c - itsMinR this) / itsDelR this)%float) in
  let y := int_of_float64 (math_Round ((imag c - itsMinI this) / itsDelI this)%float) in
  let x := if x <? 0 then 0 else x in
  let x := if wrap (itsWidth this - 1) <? x then wrap (itsWidth this - 1) else x in
  let y := if y <? 0 then 0 else y in
  let y := if wrap (itsHeight this - 1) <? y then wrap (itsHeight this - 1) else y in
  let idx := wrap (wrap (y * itsWidth this) + x) in
  if (0 <=? idx) && (idx <? Z.of_nat (length (itsData this)))
  then match itsData this !! Z.to_nat idx with
       | Some b => Ok b
       | None => Panic index_out_of_range
       end
  else Panic index_out_of_range.

(** The cell a point belongs to, as the design describes it: normalize,
    round, saturate into the grid.  [Mark] and [Check] are compared with
    it below. *)
Definition clamp (hi v : Z) : Z := Z.min hi (Z.max 0 v).

Definition cell_x (this : Guidemap) (c : complex128) : Z :=
  clamp (itsWidth this - 1)
        (int_of_float64 (math_Round ((real c - itsMinR this) / itsDelR this)%float)).

Definition cell_y (this : Guidemap) (c : complex128) : Z :=
  clamp (itsHeight this - 1)
        (int_of_float64 (math_Round ((imag c - itsMinI this) / itsDelI this)%float)).

Definition cell_index (this : Guidemap) (c : complex128) : Z :=
  cell_y this c * itsWidth this + cell_x this c.

(** *** GenerateGuidemap

    [probing] holds the locals of the probing phase that survive one
    probe: the map and [found], [limmin], [limmax]. *)

Record probing : Type := mkProbing {
  p_this : Guidemap;
  p_found : Z;
  p_limmin : Z;
  p_limmax : Z
}.

(** The inner [for idx := 0; idx < limmax+2; idx++] loop from [idx] on;
    [fuel] is the number of iterations left before [idx] reaches
    [limmax+2] ([limmax] changes only on the way to [break]). *)
Fixpoint probe_orbit (fuel : nat) (c z : complex128) (idx : Z) (st : probing)
  : outcome probing :=
  match fuel with
  | O => Ok st
  | S fuel' =>
      let z := cadd (cmul z z) c in
      if (2 <? cmplx_Abs z)%float then
        if p_limmin st <=? idx then
          let found := wrap (p_found st + 1) in
          let limmax := if Z.rem found 1000 =? 0 then wrap (p_limmax st * 2) else p_limmax st in
          let limmin := if Z.rem found 1000 =? 0 then wrap (p_limmin st * 2) else p_limmin st in
          do this <- Mark (p_this st) c;
          Ok (mkProbing this found limmin limmax)
        else Ok st
      else probe_orbit fuel' c z (idx + 1) st
  end.

(** The time-boxed outer loop: [probes] is the number of times the clock
    test [time.Since(startTime).Seconds() < 60] succeeds. *)
Fixpoint probe_loop (probes : nat) (st : probing) (rnd : list float)
  : outcome probing * list float :=
  match probes with
  | O => (Ok st, rnd)
  | S probes' =>
      match rnd with
      | u1 :: u2 :: rnd' =>
          match probe_orbit (Z.to_nat (wrap (p_limmax st + 2)))
                            (candidate u1 u2) czero 0 st with
          | Ok st' => probe_loop probes' st' rnd'
          | Panic msg => (Panic msg, rnd')
          | Starved => (Starved, rnd')
          | OutOfFuel => (OutOfFuel, rnd')
          end
      | _ => (Starved, [])
      end
  end.

(** [for idx := 0; idx < len(this.itsData); idx++ { this.itsData[idx] = false }] *)
Definition clear_data (d : list bool) : list bool :=
  fold_left (fun d idx => <[idx := false]> d) (seq 0 (length d)) d.

Definition GenerateGuidemap (size : Z) (probes : nat) (rnd : list float)
  : outcome Guidemap * list float :=
  let itsWidth := size in
  let itsHeight := size in
  let itsMinR := (-2.00)%float in
  let itsMaxR := 2.00%float in
  let itsMinI := (-2.00)%float in
  let itsMaxI := 2.00%float in
  let itsDelR := ((itsMaxR - itsMinR) / float64_of_int itsWidth)%float in
  let itsDelI := ((itsMaxI - itsMinI) / float64_of_int itsHeight)%float in
  let n := wrap (itsWidth * itsHeight) in
  if n <? 0 then (Panic "runtime error: makeslice: len out of range", rnd)
  else
    let this := mkGuidemap itsWidth itsHeight itsMinR itsMaxR itsMinI itsMaxI
                           itsDelR itsDelI (clear_data (repeat false (Z.to_nat n))) in
    let limmin := 32 in
    let limmax := wrap (limmin * 2) in
    match probe_loop probes (mkProbing this 0 limmin limmax) rnd with
    | (Ok st, rnd') => (Ok (p_this st), rnd')
    | (Panic msg, rnd') => (Panic msg, rnd')
    | (Starved, rnd') => (Starved, rnd')
    | (OutOfFuel, rnd') => (OutOfFuel, rnd')
    end.

(** *** The escape evaluation (the inner loop of [Mine])

    [locals] holds the variables the inner loop carries from one pass to
    the next. *)

Record locals : Type := mkLocals {
  v_z : complex128;
  v_oldz : complex128;
  v_i : Z;
  v_repcheck : Z;
  v_repcheckstart : Z
}.

Inductive flow : Type :=
| GotoIterateZ (s : locals)
| GotoIterateZDone (i : Z).

(** One pass from the label [IterateZ] to the conditional [goto IterateZ]. *)
Definition IterateZ_body (guidemap : Guidemap) (c : complex128) (l : Z) (s : locals)
  : outcome flow :=
  let z := cadd (cmul (v_z s) (v_z s)) c in
  do r <- (if v_repcheck s =? 0 then
             if ceqb (v_oldz s) z then Ok None
             else
               let oldz := z in
               if Z.rem (v_i s) 8 =? 0 then
                 let repcheckstart := wrap (v_repcheckstart s + 2) in
                 do marked <- Check guidemap c;
                 if negb marked && negb (Z.rem (v_i s) 64 =? 0) then Ok None
                 else Ok (Some (oldz, repcheckstart, repcheckstart))
               else
                 let repcheckstart := wrap (v_repcheckstart s + 1) in
                 Ok (Some (oldz, repcheckstart, repcheckstart))
           else Ok (Some (v_oldz s, v_repcheck s, v_repcheckstart s)));
  match r with
  | None => Ok (GotoIterateZDone (-1))
  | Some (oldz, repcheck, repcheckstart) =>
      let repcheck := wrap (repcheck - 1) in
      let i := wrap (v_i s + 1) in
      if (i <? l) && (real z * real z + imag z * imag z <=? bailout)%float
      then Ok (GotoIterateZ (mkLocals z oldz i repcheck repcheckstart))
      else Ok (GotoIterateZDone i)
  end.

(** The loop; the second component of the result counts the applications
    of the recurrence [z = z*z + c] (a ghost counter, not in the source). *)
Fixpoint IterateZ_loop (fuel : nat) (guidemap : Guidemap) (c : complex128) (l : Z)
  (s : locals) (n : nat) : outcome (Z * nat) :=
  match fuel with
  | O => OutOfFuel
  | S fuel' =>
      do r <- IterateZ_body guidemap c l s;
      match r with
      | GotoIterateZ s' => IterateZ_loop fuel' guidemap c l s' (S n)
      | GotoIterateZDone i => Ok (i, S n)
      end
  end.

(** From [z = complex(0, 0)] to the label [IterateZDone]: the value of [i]
    there, and the number of applications of the recurrence. *)
Definition IterateZ (guidemap : Guidemap) (c : complex128) (max : Z)
  : outcome (Z * nat) :=
  let z := czero in
  let l := wrap (max + 2) in
  let repcheckstart := 2 in
  let repcheck := repcheckstart in
  let oldz := z in
  IterateZ_loop (Z.to_nat (Z.max 1 l)) guidemap c l
                (mkLocals z oldz 0 repcheck repcheckstart) 0.

(** *** Mine *)

Record mining : Type := mkMining {
  m_seeds : list complex128;
  m_sidx : Z;
  m_guidemap : Guidemap;
  m_found : Z;
  m_realmin : Z;
  m_realmax : Z;
  m_j : Z
}.

(** [NewSeedpack]: [make([]complex128, howmany)]. *)
Definition NewSeedpack (howmany : Z) : outcome (list complex128) :=
  if howmany <? 0 then Panic "runtime error: makeslice: len out of range"
  else Ok (repeat czero (Z.to_nat howmany)).

(** From the label [IterateZDone] to [j++]: the acceptance test and what
    it guards.  The progress report (the block under
    [relfound % updateInterval == 0]) is left out: it reads the wall clock
    and [found], and writes [relfound], [updateInterval], [relstartTime]
    and the console, none of which the sampling reads. *)
Definition IterateZDone (min max : Z) (st : mining) (c : complex128) (i : Z)
  : outcome mining :=
  if (min <=? i) && (i <=? max) then
    let realmin := if i <? m_realmin st then i else m_realmin st in
    let realmax := if m_realmax st <? i then i else m_realmax st in
    let found := wrap (m_found st + 1) in
    if (0 <=? m_sidx st) && (m_sidx st <? Z.of_nat (length (m_seeds st))) then
      let seeds := <[Z.to_nat (m_sidx st) := c]> (m_seeds st) in
      let sidx := wrap (m_sidx st + 1) in
      do guidemap <- Mark (m_guidemap st) c;
      Ok (mkMining seeds sidx guidemap found realmin realmax (m_j st))
    else Panic index_out_of_range
  else Ok st.

(** One pass of the outer loop for the candidate [c], up to [j++]. *)
Definition CheckNewC_body (min max : Z) (st : mining) (c : complex128)
  : outcome mining :=
  do r <- IterateZ (m_guidemap st) c max;
  do st' <- IterateZDone min max st c (fst r);
  Ok (mkMining (m_seeds st') (m_sidx st') (m_guidemap st') (m_found st')
               (m_realmin st') (m_realmax st') (wrap (m_j st' + 1))).

(** The outer loop, from the label [CheckNewC]; it runs as long as the
    random source lasts. *)
Fixpoint CheckNewC (howmany min max : Z) (st : mining) (rnd : list float)
  {struct rnd} : outcome mining * list float :=
  match rnd with
  | u1 :: u2 :: rnd' =>
      match CheckNewC_body min max st (candidate u1 u2) with
      | Ok st' =>
          if m_found st' <? howmany then CheckNewC howmany min max st' rnd'
          else (Ok st', rnd')
      | Panic msg => (Panic msg, rnd')
      | Starved => (Starved, rnd')
      | OutOfFuel => (OutOfFuel, rnd')
      end
  | _ => (Starved, [])
  end.

(** The seeds a run accepts among the candidates [cs], in the order of
    their acceptance, as the design describes the acceptance loop: a
    candidate whose depth is in [[min, max]] is appended and marked. *)
Fixpoint accepted (min max : Z) (guidemap : Guidemap) (cs : list complex128)
  : list complex128 :=
  match cs with
  | [] => []
  | c :: cs' =>
      match IterateZ guidemap c max with
      | Ok (i, _) =>
          if (min <=? i) && (i <=? max) then
            match Mark guidemap c with
            | Ok guidemap' => c :: accepted min max guidemap' cs'
            | _ => []
            end
          else accepted min max guidemap cs'
      | _ => []
      end
  end.

Definition Mine (howmany min max : Z) (probes : nat) (rnd : list float)
  : outcome (list complex128 * Z * Z) * list float :=
  if howmany <? 1 then (Panic "Number of seeds sought is less than one.", rnd)
  else if max <? min then
    (Panic "Maximum seed depth is less than minimum seed depth.", rnd)
  else if min <? 2 then (Panic "Minimum seed depth is less than 2.", rnd)
  else
    match NewSeedpack howmany with
    | Ok seeds =>
        match GenerateGuidemap 51 probes rnd with
        | (Ok guidemap, rnd1) =>
            match CheckNewC howmany min max
                            (mkMining seeds 0 guidemap 0 max min 0) rnd1 with
            | (Ok st, rnd2) => (Ok (m_seeds st, m_realmin st, m_realmax st), rnd2)
            | (Panic msg, rnd2) => (Panic msg, rnd2)
            | (Starved, rnd2) => (Starved, rnd2)
            | (OutOfFuel, rnd2) => (OutOfFuel, rnd2)
            end
        | (Panic msg, rnd1) => (Panic msg, rnd1)
        | (Starved, rnd1) => (Starved, rnd1)
        | (OutOfFuel, rnd1) => (OutOfFuel, rnd1)
        end
    | Panic msg => (Panic msg, rnd)
    | Starved => (Starved, rnd)
    | OutOfFuel => (OutOfFuel, rnd)
    end.

End Miner.

(** ** Seedpack *)

(** The closure of [seedpack.Sort]: order by real part, then by imaginary
    part. *)
Definition less (a b : complex128) : bool :=
  if negb (real a =? real b)%float
  then (real a <? real b)%float
  else (imag a <? imag b)%float.

(** [sort.SliceStable] is insertion sort: each element in turn moves left
    past the elements it is [less] than.  That is what Go's library runs
    on a slice of at most 20 elements; a longer slice is cut in blocks
    sorted this way and merged, with the same result whenever [less] is a
    strict weak order, a stable sort having only one result.

    [move_left x sorted_rev] takes the sorted prefix in reverse, nearest
    element first. *)
Fixpoint move_left (x : complex128) (sorted_rev : list complex128)
  : list complex128 :=
  match sorted_rev with
  | [] => [x]
  | y :: r => if less x y then y :: move_left x r else x :: y :: r
  end.

Definition Sort (this : list complex128) : list complex128 :=
  rev (fold_left (fun sorted_rev x => move_left x sorted_rev) this []).

(** *** The order of the seeds *)

(** A seed whose parts are numbers. *)
Definition no_nan (c : complex128) : Prop :=
  is_number (real c) /\ is_number (imag c).

(** [a] may stand before [b] in a sorted seedpack: [b] is not less than
    [a]. *)
Definition seed_le (a b : complex128) : Prop := less b a = false.

(** Non-decreasing by real part, and by imaginary part among equal real
    parts. *)
Definition seed_ordered (a b : complex128) : Prop :=
  (real a <=? real b)%float = true /\
  ((real a =? real b)%float = true -> (imag a <=? imag b)%float = true).

(** [a] and [b] compare equal: neither is less than the other. *)
Definition tied (a b : complex128) : bool := negb (less a b) && negb (less b a).

(** The order of the seeds on the keys of their parts. *)
Definition clt (a b : complex128) : Prop :=
  klt (SFkey (Prim2SF (real a))) (SFkey (Prim2SF (real b))) \/
  (SFkey (Prim2SF (real a)) = SFkey (Prim2SF (real b)) /\
   klt (SFkey (Prim2SF (imag a))) (SFkey (Prim2SF (imag b)))).

(** The sorted prefix, read backwards, is non-increasing. *)
Definition descending (r : list complex128) : Prop :=
  StronglySorted (fun a b => seed_le b a) r.

(** ** Serialization *)

Definition byte_of_Z (n : Z) : Byte.byte :=
  match Byte.of_N (Z.to_N (n mod 256)) with
  | Some b => b
  | None => Byte.x00
  end.

Definition Z_of_byte (b : Byte.byte) : Z := Z.of_N (Byte.to_N b).

(** [math.Float64bits]: the IEEE-754 binary64 encoding.  A finite number
    [m * 2^e] in canonical form has biased exponent [e + 1074] when it is
    subnormal ([m < 2^52]) and [e + 1075] otherwise, where the leading bit
    of [m] is implicit: both are [(e + 1074) * 2^52 + m].  The one NaN of
    the model is encoded as Go's [math.NaN()]. *)
Definition Float64bits (x : float) : Z :=
  match Prim2SF x with
  | S754_zero s => if s then 2 ^ 63 else 0
  | S754_infinity s => (if s then 2 ^ 63 else 0) + 2047 * 2 ^ 52
  | S754_nan => 2047 * 2 ^ 52 + 2 ^ 51 + 1
  | S754_finite s m e => (if s then 2 ^ 63 else 0) + (e + 1074) * 2 ^ 52 + Z.pos m
  end.

(** [binary.LittleEndian.PutUint64] *)
Definition PutUint64 (v : Z) : list Byte.byte :=
  map (fun k => byte_of_Z (Z.shiftr v (8 * k))) [0; 1; 2; 3; 4; 5; 6; 7].

(** The bytes of [v], least significant first, by repeated division. *)
Fixpoint le_bytes (n : nat) (v : Z) : list Byte.byte :=
  match n with
  | O => []
  | S n' => byte_of_Z v :: le_bytes n' (v / 256)
  end.

(** [binary.Write(buf, binary.LittleEndian, c)] for a complex128 [c]: the
    bytes appended to the buffer. *)
Definition Write_complex128 (c : complex128) : list Byte.byte :=
  PutUint64 (Float64bits (real c)) ++ PutUint64 (Float64bits (imag c)).

(** [[]byte("@DM.EMS{codex.apeirography.art} ")] *)
Definition header : list Byte.byte :=
  list_byte_of_string "@DM.EMS{codex.apeirography.art} ".

(** What [SaveEMSFile] makes for the file system: the parts of the file
    name ([min], [max] and the digest) and the bytes written. *)
Record emsfile : Type := mkEmsfile {
  ems_min : Z;
  ems_max : Z;
  ems_md5 : list Byte.byte;
  ems_bytes : list Byte.byte
}.

Section Serializer.

(** [md5.Sum] *)
Variable md5_Sum : list Byte.byte -> list Byte.byte.

(** Opening the file is left to the environment: its failure (a panic of
    [SaveEMSFile]) is not modelled. *)
Definition SaveEMSFile (seeds : list complex128) (min max : Z) : emsfile :=
  let buf := [] in
  let seeds := Sort seeds in
  let buf := fold_left (fun buf c => buf ++ Write_complex128 c) seeds buf in
  let md5 := md5_Sum buf in
  let buf := [] in
  let buf := buf ++ header in
  let buf := fold_left (fun buf c => buf ++ Write_complex128 c) seeds buf in
  mkEmsfile min max md5 buf.

Variable math_Round : float -> float.
Variable int_of_float64 : float -> Z.
Variable cmplx_Abs : complex128 -> float.

(** [main], from the flags on: [Mine], then [SaveEMSFile]. *)
Definition main (howmany min max : Z) (probes : nat) (rnd : list float)
  : outcome emsfile * list float :=
  match Mine math_Round int_of_float64 cmplx_Abs howmany min max probes rnd with
  | (Ok (seeds, realmin, realmax), rnd') =>
      (Ok (SaveEMSFile seeds realmin realmax), rnd')
  | (Panic msg, rnd') => (Panic msg, rnd')
  | (Starved, rnd') => (Starved, rnd')
  | (OutOfFuel, rnd') => (OutOfFuel, rnd')
  end.

End Serializer.

(** ** Reading an artifact back

    The program has no reader; this one follows the format: successive
    pairs of 64-bit little-endian floats. *)

(** [binary.LittleEndian.Uint64] *)
Definition Uint64 (bs : list Byte.byte) : Z :=
  fold_right (fun b acc => Z_of_byte b + 256 * acc) 0 bs.

(** [math.Float64frombits] *)
Definition Float64frombits (b : Z) : float :=
  let s := 2 ^ 63 <=? b in
  let e := (b / 2 ^ 52) mod 2048 in
  let f := b mod 2 ^ 52 in
  SF2Prim
    (if e =? 2047 then
       if f =? 0 then S754_infinity s else S754_nan
     else if e =? 0 then
       match f with
       | Z.pos m => S754_finite s m (-1074)
       | _ => S754_zero s
       end
     else
       match f + 2 ^ 52 with
       | Z.pos m => S754_finite s m (e - 1075)
       | _ => S754_zero s
       end).

Definition Read_complex128 (bs : list Byte.byte) : complex128 :=
  Complex (Float64frombits (Uint64 (firstn 8 bs)))
          (Float64frombits (Uint64 (firstn 8 (skipn 8 bs)))).

Fixpoint Read_seeds (n : nat) (bs : list Byte.byte) : list complex128 :=
  match n with
  | O => []
  | S n' => Read_complex128 (firstn 16 bs) :: Read_seeds n' (skipn 16 bs)
  end.

(** The record count is the payload size divided by 16. *)
Definition Decode (payload : list Byte.byte) : list complex128 :=
  Read_seeds (length payload / 16)%nat payload.

(** ** Library functions, for running the model

    One implementation of each library function the model is parametric
    in, after Go's: [math.Round] rounds half away from zero, the
    conversion to int truncates and (as on amd64) gives the least int on
    NaN and out of range, [cmplx.Abs] is [math.Hypot]. *)
Module GoLib.

Definition magnitude_round (m : positive) (e : Z) : Z :=
  if 0 <=? e then Z.pos m * 2 ^ e
  else Z.shiftr (Z.pos m) (- e) + (if Z.testbit (Z.pos m) (- e - 1) then 1 else 0).

Definition Round (x : float) : float :=
  match Prim2SF x with
  | S754_finite s m e =>
      if 0 <=? e then x
      else SF2Prim (binary_normalize prec emax
                      (if s then - magnitude_round m e else magnitude_round m e) 0 s)
  | _ => x
  end.

Definition int_of_float64 (x : float) : Z :=
  match Prim2SF x with
  | S754_zero _ => 0
  | S754_finite s m e =>
      let mag := if 0 <=? e then Z.pos m * 2 ^ e else Z.shiftr (Z.pos m) (- e) in
      let v := if s then - mag else mag in
      if (int_min <=? v) && (v <=? int_max) then v else int_min
  | _ => int_min
  end.

Definition Hypot (p q : float) : float :=
  let p := abs p in
  let q := abs q in
  if (p =? infinity)%float || (q =? infinity)%float then infinity
  else if negb (p =? p)%float || negb (q =? q)%float then nan
  else
    let p' := if (p <? q)%float then q else p in
    let q' := if (p <? q)%float then p else q in
    if (p' =? 0)%float then 0%float
    else
      let q'' := (q' / p')%float in
      (p' * sqrt (1 + q'' * q''))%float.

Definition Abs (z : complex128) : float := Hypot (real z) (imag z).

End GoLib.

(** ** Invariants and inputs of the proofs *)

(** The state at the head of a pass: [i] counts the passes made, and the
    loop went on because [i < l] and [z] had not escaped. *)
Record pass_inv (c : complex128) (l : Z) (s : locals) : Prop := {
  pi_i : 0 <= v_i s < l;
  pi_norm : (real (v_z s) * real (v_z s) + imag (v_z s) * imag (v_z s) <=? bailout)%float = true;
  pi_point : is_point c \/ (v_i s = 0 /\ v_z s = czero)
}.

(** The loop invariant: [acc] are the seeds accepted so far, they fill
    the seedpack from the left, the rest of it is as [NewSeedpack] left
    it, and [sidx] and [found] count them. *)
Record filled (howmany : Z) (st : mining) (acc : list complex128) : Prop := {
  fi_seeds : m_seeds st = acc ++ repeat czero (Z.to_nat (howmany - m_found st));
  fi_found : Z.of_nat (length acc) = m_found st;
  fi_sidx : m_sidx st = m_found st;
  fi_wf : Guidemap_wf (m_guidemap st)
}.

(** A configuration [Mine] does not refuse; the three values are ints. *)
Record valid_config (howmany min max : Z) : Prop := {
  vc_howmany : 1 <= howmany <= int_max;
  vc_min : 2 <= min;
  vc_max : min <= max <= int_max
}.

(** A guidemap of the size [Mine] uses, nothing marked; a point far
    outside its domain; a random source that holds, after the two values
    of one probe, seven candidates of which five have a depth in
    [[2, 4]]; five seeds, two of them tied. *)
Definition example_guidemap : Guidemap :=
  mkGuidemap 51 51 (-2) 2 (-2) 2
             (4 / float64_of_int 51)%float (4 / float64_of_int 51)%float
             (repeat false 2601).

Definition example_outside : complex128 := Complex 5 (-7).

Definition example_rnd : list float :=
  [0.5; 0.5; 0.375; 0.5; 0.5; 0.25; 0.75; 0; 0.25; 0; 0.125; 0.25; 0.75; 0.5;
   0.875; 0.25; 0.125; 0.625]%float.

Definition example_mined : list complex128 :=
  [Complex (-0.5) 1; Complex 1 0; Complex (-1.5) 0.5; Complex 1 1; Complex 1.5 0.5].

Definition example_seeds : list complex128 :=
  [Complex 1 1; Complex (-1.5) 0.5; Complex 1 (-0); Complex 1 0; Complex (-1.5) 0.25].

(** The escape test of the inner loop, [|z|^2 <= b]. *)
Definition inside (z : complex128) : bool :=
  (real z * real z + imag z * imag z <=? bailout)%float.

(** What [==] on floats identifies: the two zeros. *)
Definition feq (x y : spec_float) : Prop :=
  x = y \/
  match x, y with
  | S754_zero _, S754_zero _ => True
  | _, _ => False
  end.

Definition ceq (a b : complex128) : Prop :=
  feq (Prim2SF (real a)) (Prim2SF (real b)) /\
  feq (Prim2SF (imag a)) (Prim2SF (imag b)).

(** What a pass of the inner loop does to [(repcheck, repcheckstart)] when
    it goes on, as a function of [i]; and the two counters at the head of
    pass [k]. *)
Definition schedule_step (i : Z) (p : Z * Z) : Z * Z :=
  let (repcheck, repcheckstart) := p in
  if repcheck =? 0 then
    let repcheckstart :=
      if Z.rem i 8 =? 0 then wrap (repcheckstart + 2) else wrap (repcheckstart + 1) in
    (wrap (repcheckstart - 1), repcheckstart)
  else (wrap (repcheck - 1), repcheckstart).

Fixpoint schedule (k : nat) : Z * Z :=
  match k with
  | O => (2, 2)
  | S k' => schedule_step (Z.of_nat k') (schedule k')
  end.

(** The passes below [n] at which the guidemap may be read: those that
    run the check block with [i%8 == 0]. *)
Definition consults (n : nat) : list nat :=
  List.filter (fun k => (fst (schedule k) =? 0) && (Z.rem (Z.of_nat k) 8 =? 0)) (seq 0 n).

(** [oldz] at the head of pass [k]: the point of the orbit the last check
    block left there, [z] after the pass that ran it; the origin before
    the first check. *)
Fixpoint oldz_at (c : complex128) (k : nat) : complex128 :=
  match k with
  | O => czero
  | S k' => if fst (schedule k') =? 0 then orbit c (S k') else oldz_at c k'
  end.

(** Pass [j] cuts the evaluation short: it runs the check block
    ([repcheck == 0]) and there the cycle detection fires ([oldz == z]) or
    the guidemap prunes ([i%8 == 0], the cell unmarked, [i%64 != 0]).
    [marked] is the answer of [guidemap.Check(c)]. *)
Definition cut_short (marked : outcome bool) (c : complex128) (j : nat) : Prop :=
  fst (schedule j) = 0 /\
  (ceqb (oldz_at c j) (orbit c (S j)) = true \/
   (Z.rem (Z.of_nat j) 8 = 0 /\ Z.rem (Z.of_nat j) 64 <> 0 /\ marked = Ok false)).


(** The state at the head of pass [k] of an evaluation of [c]: [z] is the
    [k]-th point of the orbit, [oldz] an earlier one, no point of the
    orbit so far has escaped, and the counters follow the schedule. *)
Record trace_inv (c : complex128) (l : Z) (s : locals) (k a : nat) : Prop := {
  ti_i : v_i s = Z.of_nat k;
  ti_l : v_i s < l;
  ti_z : v_z s = orbit c k;
  ti_oldz : v_oldz s = orbit c a;
  ti_old : (a <= k)%nat;
  ti_inside : forall n, (n <= k)%nat -> inside (orbit c n) = true;
  ti_schedule : (v_repcheck s, v_repcheckstart s) = schedule k
}.

(** [realmin] and [realmax] against the seeds accepted so far: as
    initialised while there is none, then the least and the greatest of
    their depths. *)
Record ranged (min max : Z) (st : mining) (acc : list complex128) : Prop := {
  ra_depth : Forall (fun c => min <= plain_escape c max <= max) acc;
  ra_all : Forall (fun c => m_realmin st <= plain_escape c max <= m_realmax st) acc;
  ra_none : acc = [] -> m_realmin st = max /\ m_realmax st = min;
  ra_some : acc <> [] ->
            Exists (fun c => plain_escape c max = m_realmin st) acc /\
            Exists (fun c => plain_escape c max = m_realmax st) acc
}.

(** The acceptance test, on the plain escape time. *)
Definition in_depth_range (min max : Z) (c : complex128) : bool :=
  (min <=? plain_escape c max) && (plain_escape c max <=? max).

(** A candidate of depth 202; the two random numbers of a probe whose
    candidate, of depth 51, lies in the same cell; the guidemap with that
    cell marked. *)
Definition example_deep : complex128 := Complex (-0.75) 0.015625.

Definition example_probe_rnd : list float := [0.3125; 0.03125]%float.

Definition example_marked : Guidemap :=
  set_itsData example_guidemap (<[1342%nat := true]> (itsData example_guidemap)).

(** * Verification *)

(** ** Machine integers *)

Lemma wrap_small (n : Z) : is_int n -> wrap n = n.
Proof.
  unfold is_int, int_min, int_max, wrap. intros H.
  rewrite Z.mod_small; lia.
Qed.

Lemma wrap_is_int (n : Z) : is_int (wrap n).
Proof.
  unfold is_int, int_min, int_max, wrap.
  pose proof (Z.mod_pos_bound (n + 2 ^ 63) (2 ^ 64) ltac:(lia)). lia.
Qed.

Lemma wrap_overflow (n : Z) : int_max < n <= int_max + 2 ^ 63 -> wrap n = n - 2 ^ 64.
Proof.
  unfold int_max, wrap. intros H.
  replace (n + 2 ^ 63) with ((n - 2 ^ 63) + 1 * 2 ^ 64) by lia.
  rewrite Z.mod_add by lia. rewrite Z.mod_small; lia.
Qed.

(** ** Floats: rounding never makes a NaN of two numbers *)

Lemma iter_pos_invariant {A : Type} (P : A -> Prop) (f : A -> A) :
  (forall x, P x -> P (f x)) -> forall p x, P x -> P (SpecFloat.iter_pos f p x).
Proof.
  intros Hf. induction p as [p IH | p IH |]; intros x Hx; cbn; auto.
Qed.

Lemma shr_1_nonneg mrs : 0 <= shr_m mrs -> 0 <= shr_m (shr_1 mrs).
Proof.
  destruct mrs as [m r s]. cbn. destruct m as [| [p | p |] | p]; cbn; lia.
Qed.

Lemma shr_nonneg mrs e n : 0 <= shr_m mrs -> 0 <= shr_m (fst (shr mrs e n)).
Proof.
  intros H. destruct n; cbn; auto.
  apply (iter_pos_invariant (fun r => 0 <= shr_m r)); auto using shr_1_nonneg.
Qed.

Lemma shr_record_of_loc_m m l : shr_m (shr_record_of_loc m l) = m.
Proof. destruct l as [| []]; reflexivity. Qed.

Lemma shr_fexp_nonneg p e m ex l :
  0 <= m -> 0 <= shr_m (fst (shr_fexp p e m ex l)).
Proof.
  intros H. unfold shr_fexp. apply shr_nonneg. now rewrite shr_record_of_loc_m.
Qed.

Lemma round_nearest_even_nonneg m l : 0 <= m -> 0 <= round_nearest_even m l.
Proof.
  intros H. destruct l as [| []]; cbn; try lia. destruct (Z.even m); lia.
Qed.

Lemma binary_round_aux_signed p e s m ex l :
  0 <= m -> signed_as s (binary_round_aux p e s m ex l).
Proof.
  intros H. unfold binary_round_aux.
  pose proof (shr_fexp_nonneg p e m ex l H) as H1.
  destruct (shr_fexp p e m ex l) as [mrs' e'] eqn:E1. cbn [fst] in H1.
  pose proof (shr_fexp_nonneg p e (round_nearest_even (shr_m mrs') (loc_of_shr_record mrs')) e' loc_Exact
    (round_nearest_even_nonneg _ _ H1)) as H2.
  destruct (shr_fexp p e (round_nearest_even (shr_m mrs') (loc_of_shr_record mrs')) e' loc_Exact) as [mrs'' e''] eqn:E2.
  cbn [fst] in H2.
  destruct (shr_m mrs'') as [| q | q]; cbn; auto; try lia.
  destruct (e'' <=? e - p); cbn; auto.
Qed.

Lemma binary_round_signed p e s m ex : signed_as s (binary_round p e s m ex).
Proof.
  unfold binary_round. destruct (shl_align m ex _) as [mz ez].
  apply binary_round_aux_signed. lia.
Qed.

Lemma SFcompare_key x y :
  not_nan x -> not_nan y ->
  exists c, SFcompare x y = Some c /\
    match c with
    | Lt => klt (SFkey x) (SFkey y)
    | Eq => SFkey x = SFkey y
    | Gt => klt (SFkey y) (SFkey x)
    end.
Proof.
  unfold not_nan. intros Hx Hy.
  destruct x as [sx | sx | | sx mx ex], y as [sy | sy | | sy my ey];
    try congruence; try destruct sx; try destruct sy; unfold SFcompare, SFkey;
    try change (Pos.compare_cont Eq mx my) with (Pos.compare mx my);
    try destruct (Z.compare_spec ex ey);
    try destruct (Pos.compare_spec mx my);
    (eexists; split; [reflexivity |]); cbn; subst; solve [lia | auto].
Qed.

Lemma klt_trans k1 k2 k3 : klt k1 k2 -> klt k2 k3 -> klt k1 k3.
Proof. destruct k1 as [[? ?] ?], k2 as [[? ?] ?], k3 as [[? ?] ?]. cbn. lia. Qed.

Lemma klt_irrefl k : ~ klt k k.
Proof. destruct k as [[? ?] ?]. cbn. lia. Qed.

Lemma klt_total k1 k2 : klt k1 k2 \/ k1 = k2 \/ klt k2 k1.
Proof.
  destruct k1 as [[c1 a1] b1], k2 as [[c2 a2] b2]. cbn.
  destruct (Z.lt_trichotomy c1 c2) as [|[|]]; [lia| |lia].
  destruct (Z.lt_trichotomy a1 a2) as [|[|]]; [lia| |lia].
  destruct (Z.lt_trichotomy b1 b2) as [|[|]]; [lia| |lia].
  right; left; congruence.
Qed.

Lemma SFltb_key x y : not_nan x -> not_nan y -> (SFltb x y = true <-> klt (SFkey x) (SFkey y)).
Proof.
  intros Hx Hy. destruct (SFcompare_key x y Hx Hy) as (c & E & Hc).
  unfold SFltb. rewrite E. destruct c; split; intros H; try discriminate; auto.
  - rewrite Hc in H. now apply klt_irrefl in H.
  - exfalso. eapply klt_irrefl, klt_trans; eauto.
Qed.

Lemma SFeqb_key x y : not_nan x -> not_nan y -> (SFeqb x y = true <-> SFkey x = SFkey y).
Proof.
  intros Hx Hy. destruct (SFcompare_key x y Hx Hy) as (c & E & Hc).
  unfold SFeqb. rewrite E.
  destruct c; split; intros H; try discriminate; auto;
    rewrite H in Hc; now apply klt_irrefl in Hc.
Qed.

Lemma SFleb_key x y : not_nan x -> not_nan y -> (SFleb x y = true <-> ~ klt (SFkey y) (SFkey x)).
Proof.
  intros Hx Hy. destruct (SFcompare_key x y Hx Hy) as (c & E & Hc).
  unfold SFleb. rewrite E.
  destruct c; split; intros H; try discriminate; auto; try contradiction.
  - rewrite Hc. apply klt_irrefl.
  - intros H'. eapply klt_irrefl, klt_trans; eauto.
Qed.

Lemma signed_not_nan s x : signed_as s x -> not_nan x.
Proof. destruct x as [[]|[]| |[]]; cbn; unfold not_nan; intros H; try discriminate; tauto. Qed.

Lemma signed_false_pos x : signed_as false x -> pos_class x.
Proof. destruct x as [[]|[]| |[]]; cbn; intros H; try discriminate; tauto. Qed.

Lemma pos_not_nan x : pos_class x -> not_nan x.
Proof. destruct x as [[]|[]| |[]]; cbn; unfold not_nan; intros H; try discriminate; tauto. Qed.

Lemma fin_not_nan x : fin x -> not_nan x.
Proof. destruct x as [[]|[]| |[]]; cbn; unfold not_nan; intros H; try discriminate; tauto. Qed.

Lemma binary_normalize_not_nan p e m ex sz : not_nan (binary_normalize p e m ex sz).
Proof.
  destruct m; cbn; [discriminate | |]; eapply signed_not_nan, binary_round_signed.
Qed.

Lemma SFmul_fin_signed x y :
  fin x -> fin y -> signed_as (xorb (sign_of x) (sign_of y)) (SFmul prec emax x y).
Proof.
  destruct x, y; cbn; try tauto; intros _ _.
  apply binary_round_aux_signed. lia.
Qed.

Lemma SFmul_square_pos x : not_nan x -> pos_class (SFmul prec emax x x).
Proof.
  destruct x as [s | s | | s m e]; unfold not_nan; try congruence; intros _;
    cbn -[binary_round_aux].
  - exact I.
  - now destruct s.
  - apply signed_false_pos. replace (xorb s s) with false by now destruct s.
    apply binary_round_aux_signed. lia.
Qed.

Lemma fin_of_square x : fin (SFmul prec emax x x) -> fin x.
Proof. destruct x; cbn; tauto. Qed.

Lemma SFadd_pos a b : pos_class a -> pos_class b -> pos_class (SFadd prec emax a b).
Proof.
  destruct a as [sa | [] | | [] ma ea], b as [sb | [] | | [] mb eb]; cbn; try tauto.
  - now destruct sa, sb.
  - intros _ _. apply signed_false_pos, binary_round_signed.
Qed.

Lemma SFadd_same_sign s a b :
  signed_as s a -> signed_as s b -> not_nan (SFadd prec emax a b).
Proof.
  destruct a as [sa | sa | | sa ma ea], b as [sb | sb | | sb mb eb];
    cbn [signed_as]; try tauto; intros -> ->; cbn -[binary_normalize];
    try destruct s; try discriminate.
  all: apply binary_normalize_not_nan.
Qed.

Lemma SFadd_fin_r a b : not_nan a -> fin b -> not_nan (SFadd prec emax a b).
Proof.
  destruct a as [sa | sa | | sa ma ea], b as [sb | sb | | sb mb eb];
    cbn [fin]; unfold not_nan at 1; try tauto; try congruence; intros _ _;
    cbn -[binary_normalize]; try discriminate.
  - destruct sa, sb; discriminate.
  - apply binary_normalize_not_nan.
Qed.

Lemma SFsub_fin a b : fin a -> fin b -> not_nan (SFsub prec emax a b).
Proof.
  destruct a as [sa | sa | | sa ma ea], b as [sb | sb | | sb mb eb];
    cbn [fin]; try tauto; intros _ _; cbn -[binary_normalize]; try discriminate.
  - destruct sa, sb; discriminate.
  - apply binary_normalize_not_nan.
Qed.

Lemma SFleb_sum_fin p q B :
  fin B -> pos_class p -> pos_class q ->
  SFleb (SFadd prec emax p q) B = true -> fin p /\ fin q.
Proof.
  destruct B as [sB | | | sB mB eB]; cbn [fin]; try tauto; intros _;
  destruct p as [sp | [] | | [] mp ep], q as [sq | [] | | [] mq eq];
    cbn [pos_class]; try tauto; intros _ _; cbn; try discriminate; auto.
Qed.

(** ** Floats: the escape test *)

Lemma SFleb_true_not_nan (x y : spec_float) :
  SFleb x y = true -> not_nan x /\ not_nan y.
Proof.
  unfold not_nan. destruct x, y; cbn; intros H; try discriminate; split; discriminate.
Qed.

Lemma SFltb_negb_leb (x y : spec_float) :
  not_nan x -> not_nan y -> SFltb y x = negb (SFleb x y).
Proof.
  intros Hx Hy.
  destruct (SFcompare_key x y Hx Hy) as (c1 & E1 & H1).
  destruct (SFcompare_key y x Hy Hx) as (c2 & E2 & H2).
  unfold SFltb, SFleb. rewrite E1, E2.
  destruct c1, c2; cbn; try reflexivity; exfalso;
    try (rewrite H1 in H2; now apply klt_irrefl in H2);
    try (rewrite H2 in H1; now apply klt_irrefl in H1);
    eapply klt_irrefl, klt_trans; eauto.
Qed.

Lemma leb_true_ltb_false (n b : float) :
  (n <=? b)%float = true -> (b <? n)%float = false.
Proof.
  rewrite leb_spec, ltb_spec. intros H.
  destruct (SFleb_true_not_nan _ _ H) as [Hn Hb].
  rewrite SFltb_negb_leb by assumption. now rewrite H.
Qed.

Lemma leb_false_ltb_true (n b : float) :
  is_number n -> is_number b -> (n <=? b)%float = false -> (b <? n)%float = true.
Proof.
  unfold is_number. rewrite leb_spec, ltb_spec. intros Hn Hb H.
  rewrite SFltb_negb_leb by assumption. now rewrite H.
Qed.

Lemma bailout_is_number : is_number bailout.
Proof. unfold is_number, not_nan. vm_compute. discriminate. Qed.

(** While the loop goes on, [z] is a finite point, and so are the squares
    of its parts. *)
Lemma norm_le_finite (x y : float) :
  (x * x + y * y <=? bailout)%float = true ->
  is_finite x /\ is_finite y /\ is_finite (x * x) /\ is_finite (y * y).
Proof.
  unfold is_finite. rewrite leb_spec, add_spec, !mul_spec. unfold SF64add, SF64mul.
  intros H.
  assert (Hx : not_nan (Prim2SF x)).
  { intros E. rewrite E in H. cbn in H. discriminate. }
  assert (Hy : not_nan (Prim2SF y)).
  { intros E. rewrite E in H.
    destruct (SFmul prec emax (Prim2SF x) (Prim2SF x)); cbn in H; discriminate. }
  pose proof (SFmul_square_pos _ Hx) as Px.
  pose proof (SFmul_square_pos _ Hy) as Py.
  destruct (SFleb_sum_fin _ _ (Prim2SF bailout) I Px Py H) as [Fx Fy].
  auto using fin_of_square.
Qed.

(** The next [|z|^2] is a number (possibly [+inf]), never a NaN. *)
Lemma step_norm_is_number (z c : complex128) :
  (real z * real z + imag z * imag z <=? bailout)%float = true ->
  is_point c ->
  let z' := cadd (cmul z z) c in
  is_number (real z' * real z' + imag z' * imag z').
Proof.
  intros H [Hcr Hci]. destruct (norm_le_finite _ _ H) as (Fr & Fi & Frr & Fii).
  unfold is_finite in *. cbn [cadd cmul real imag]. unfold is_number.
  rewrite add_spec, !mul_spec, !add_spec, sub_spec, !mul_spec.
  unfold SF64add, SF64mul, SF64sub.
  rewrite !mul_spec in Frr, Fii. unfold SF64mul in Frr, Fii.
  apply pos_not_nan, SFadd_pos; apply SFmul_square_pos.
  - apply SFadd_fin_r; [apply SFsub_fin |]; assumption.
  - apply SFadd_fin_r; [| assumption].
    eapply SFadd_same_sign; [apply SFmul_fin_signed; assumption |].
    rewrite xorb_comm. apply SFmul_fin_signed; assumption.
Qed.

Lemma is_point_dec (c : complex128) : {is_point c} + {~ is_point c}.
Proof.
  unfold is_point, is_finite.
  destruct (Prim2SF (real c)), (Prim2SF (imag c)); cbn; tauto.
Defined.

(** After the first pass [z] is [c] (up to the sign of a zero): if it is
    finite, so is [c]. *)
Lemma first_step_point (c : complex128) :
  let z' := cadd (cmul czero czero) c in
  is_finite (real z') -> is_finite (imag z') -> is_point c.
Proof.
  cbn [cadd cmul czero real imag]. unfold is_point, is_finite.
  rewrite !add_spec, sub_spec, !mul_spec.
  change (Prim2SF 0) with (S754_zero false).
  destruct c as [cr ci]; cbn [real imag].
  destruct (Prim2SF cr), (Prim2SF ci); cbn; tauto.
Qed.

(** ** Guidemap: the cell of a point *)

Section GuidemapFacts.

Variable math_Round : float -> float.
Variable int_of_float64 : float -> Z.

Local Abbreviation mark := (Mark math_Round int_of_float64).
Local Abbreviation check := (Check math_Round int_of_float64).
Local Abbreviation col := (cell_x math_Round int_of_float64).
Local Abbreviation row := (cell_y math_Round int_of_float64).
Local Abbreviation cell := (cell_index math_Round int_of_float64).

Lemma clamp_range (hi v : Z) : 0 <= hi -> 0 <= clamp hi v <= hi.
Proof. unfold clamp. lia. Qed.

Lemma clamp_ifs (hi v : Z) :
  0 <= hi ->
  (let x := if v <? 0 then 0 else v in if hi <? x then hi else x) = clamp hi v.
Proof.
  intros Hhi. unfold clamp. cbv zeta.
  destruct (v <? 0) eqn:E1; [apply Z.ltb_lt in E1 | apply Z.ltb_ge in E1];
    match goal with |- context [?a <? ?b] => destruct (a <? b) eqn:E2 end;
    try apply Z.ltb_lt in E2; try apply Z.ltb_ge in E2; lia.
Qed.

Lemma wf_width_int (this : Guidemap) :
  Guidemap_wf this -> is_int (itsWidth this - 1) /\ is_int (itsHeight this - 1).
Proof.
  intros [Hw Hh _ Hi]. unfold is_int, int_min, int_max in *. split; nia.
Qed.

Lemma cell_index_range (this : Guidemap) (c : complex128) :
  Guidemap_wf this ->
  0 <= col this c <= itsWidth this - 1 /\
  0 <= row this c <= itsHeight this - 1 /\
  0 <= cell this c < Z.of_nat (length (itsData this)).
Proof.
  intros Hwf. destruct Hwf as [Hw Hh Hl Hi].
  assert (Hx : 0 <= col this c <= itsWidth this - 1)
    by (apply clamp_range; lia).
  assert (Hy : 0 <= row this c <= itsHeight this - 1)
    by (apply clamp_range; lia).
  assert (0 <= row this c * itsWidth this) by nia.
  assert (row this c * itsWidth this <= (itsHeight this - 1) * itsWidth this)
    by nia.
  repeat split; try lia; unfold cell_index; rewrite ?Hl; lia.
Qed.

(** The index [Mark] and [Check] compute, with its clamping written as in
    the source and its machine arithmetic, is [cell_index]. *)
Lemma source_index (this : Guidemap) (c : complex128) :
  Guidemap_wf this ->
  let x := int_of_float64 (math_Round ((real c - itsMinR this) / itsDelR this)%float) in
  let y := int_of_float64 (math_Round ((imag c - itsMinI this) / itsDelI this)%float) in
  let x := if x <? 0 then 0 else x in
  let x := if wrap (itsWidth this - 1) <? x then wrap (itsWidth this - 1) else x in
  let y := if y <? 0 then 0 else y in
  let y := if wrap (itsHeight this - 1) <? y then wrap (itsHeight this - 1) else y in
  wrap (wrap (y * itsWidth this) + x) = cell this c.
Proof.
  intros Hwf.
  destruct (wf_width_int this Hwf) as [Hwi Hhi].
  destruct (cell_index_range this c Hwf) as (Hx & Hy & Hidx).
  destruct Hwf as [Hw Hh Hl Hi].
  cbv zeta. rewrite (wrap_small (itsWidth this - 1)), (wrap_small (itsHeight this - 1))
    by assumption.
  pose proof (clamp_ifs (itsWidth this - 1)
    (int_of_float64 (math_Round ((real c - itsMinR this) / itsDelR this)%float))
    ltac:(lia)) as Ex.
  pose proof (clamp_ifs (itsHeight this - 1)
    (int_of_float64 (math_Round ((imag c - itsMinI this) / itsDelI this)%float))
    ltac:(lia)) as Ey.
  cbv zeta in Ex, Ey. rewrite Ex, Ey.
  fold (col this c). fold (row this c).
  unfold cell_index in *.
  assert (is_int (row this c * itsWidth this))
    by (unfold is_int, int_min, int_max in *; nia).
  rewrite (wrap_small (row this c * itsWidth this)) by assumption.
  apply wrap_small. unfold is_int, int_min, int_max in *. nia.
Qed.

Lemma Mark_cell (this : Guidemap) (c : complex128) :
  Guidemap_wf this ->
  mark this c =
  Ok (set_itsData this (<[Z.to_nat (cell this c) := true]> (itsData this))).
Proof.
  intros Hwf. unfold Mark.
  pose proof (source_index this c Hwf) as E. cbv zeta in E. rewrite E.
  destruct (cell_index_range this c Hwf) as (_ & _ & Hidx).
  destruct (0 <=? cell this c) eqn:E1; [| apply Z.leb_gt in E1; lia].
  destruct (cell this c <? Z.of_nat (length (itsData this))) eqn:E2;
    [| apply Z.ltb_ge in E2; lia].
  reflexivity.
Qed.

Lemma Check_cell (this : Guidemap) (c : complex128) :
  Guidemap_wf this ->
  exists b : bool,
    itsData this !! Z.to_nat (cell this c) = Some b /\ check this c = Ok b.
Proof.
  intros Hwf. unfold Check.
  pose proof (source_index this c Hwf) as E. cbv zeta in E. rewrite E.
  destruct (cell_index_range this c Hwf) as (_ & _ & Hidx).
  destruct (0 <=? cell this c) eqn:E1; [| apply Z.leb_gt in E1; lia].
  destruct (cell this c <? Z.of_nat (length (itsData this))) eqn:E2;
    [| apply Z.ltb_ge in E2; lia].
  cbn [andb].
  destruct (lookup_lt_is_Some_2 (itsData this) (Z.to_nat (cell this c))
              ltac:(lia)) as [b Hb].
  exists b. rewrite Hb. auto.
Qed.

Lemma Mark_wf (this this' : Guidemap) (c : complex128) :
  Guidemap_wf this -> mark this c = Ok this' ->
  Guidemap_wf this' /\ itsWidth this' = itsWidth this /\
  itsHeight this' = itsHeight this.
Proof.
  intros Hwf HM. rewrite Mark_cell in HM by assumption.
  injection HM as <-. destruct Hwf as [Hw Hh Hl Hi].
  split; [constructor|]; cbn; rewrite ?length_insert; auto.
Qed.

End GuidemapFacts.

(** ** The escape evaluation *)

Section EscapeFacts.

Variable math_Round : float -> float.
Variable int_of_float64 : float -> Z.

Local Abbreviation check := (Check math_Round int_of_float64).
Local Abbreviation body := (IterateZ_body math_Round int_of_float64).
Local Abbreviation loop := (IterateZ_loop math_Round int_of_float64).
Local Abbreviation iterateZ := (IterateZ math_Round int_of_float64).

(** What a pass does: it leaves with [-1] (only on a check, when
    [repcheck] is zero), or applies the recurrence, counts, and tests. *)
Lemma IterateZ_body_spec (g : Guidemap) (c : complex128) (l : Z) (s : locals)
  (r : flow) :
  body g c l s = Ok r ->
  (r = GotoIterateZDone (-1) /\ v_repcheck s = 0) \/
  (let z' := cadd (cmul (v_z s) (v_z s)) c in
   let i' := wrap (v_i s + 1) in
   if (i' <? l) && (real z' * real z' + imag z' * imag z' <=? bailout)%float
   then exists s', r = GotoIterateZ s' /\ v_z s' = z' /\ v_i s' = i'
   else r = GotoIterateZDone i').
Proof.
  unfold IterateZ_body. cbv zeta.
  destruct (v_repcheck s =? 0) eqn:Erc.
  - apply Z.eqb_eq in Erc.
    destruct (ceqb (v_oldz s) (cadd (cmul (v_z s) (v_z s)) c)); cbn [obind].
    { intros [= <-]. auto. }
    destruct (Z.rem (v_i s) 8 =? 0).
    + destruct (check g c) as [marked | | |]; cbn [obind]; try discriminate.
      destruct (negb marked && negb (Z.rem (v_i s) 64 =? 0)); cbn [obind].
      { intros [= <-]. auto. }
      destruct (_ && _); intros [= <-]; right; eauto.
    + destruct (_ && _); intros [= <-]; right; eauto.
  - cbn [obind]. destruct (_ && _); intros [= <-]; right; eauto.
Qed.

Lemma IterateZ_body_ok (g : Guidemap) (c : complex128) (l : Z) (s : locals) :
  Guidemap_wf g -> exists r, body g c l s = Ok r.
Proof.
  intros Hwf. unfold IterateZ_body. cbv zeta.
  destruct (Check_cell math_Round int_of_float64 g c Hwf) as (b & _ & ->).
  repeat first
    [ progress cbn [obind]
    | match goal with
      | |- context [if ?b then _ else _] => destruct b
      end ]; eauto.
Qed.


Lemma norm_czero : (real czero * real czero + imag czero * imag czero <=? bailout)%float = true.
Proof. reflexivity. Qed.

Lemma pass_inv_next (c : complex128) (l : Z) (s s' : locals) :
  pass_inv c l s -> is_int l ->
  v_z s' = cadd (cmul (v_z s) (v_z s)) c ->
  v_i s' = wrap (v_i s + 1) ->
  (v_i s' <? l) = true ->
  (real (v_z s') * real (v_z s') + imag (v_z s') * imag (v_z s') <=? bailout)%float = true ->
  pass_inv c l s' /\ v_i s' = v_i s + 1.
Proof.
  intros [Hi Hn Hp] Hl Ez Ei Hlt Hn'.
  assert (Ei' : v_i s' = v_i s + 1).
  { rewrite Ei. apply wrap_small. unfold is_int, int_min, int_max in *. lia. }
  split; [| exact Ei'].
  apply Z.ltb_lt in Hlt. constructor; [lia | exact Hn' |].
  left. destruct Hp as [Hp | [_ Hz]]; [exact Hp |].
  destruct (norm_le_finite _ _ Hn') as (Fr & Fi & _).
  rewrite Ez, Hz in Fr, Fi. now apply first_step_point.
Qed.

(** Soundness of the shortcuts: whatever the loop answers from a state
    that satisfies the invariant is [-1], or [1] at the very first pass,
    or what the plain iteration answers from there. *)
Lemma IterateZ_loop_sound (g : Guidemap) (c : complex128) (l : Z) :
  is_int l ->
  forall (fuel : nat) (s : locals) (n : nat) (i : Z) (k : nat),
    pass_inv c l s ->
    loop fuel g c l s n = Ok (i, k) ->
    i = -1 \/ (~ is_point c /\ i = 1) \/
    i = plain_loop (Z.to_nat (l - v_i s)) c (v_z s) (v_i s).
Proof.
  intros Hl. induction fuel as [| fuel IH]; intros s n i k Hinv Hrun; [discriminate |].
  cbn [IterateZ_loop] in Hrun.
  destruct (body g c l s) as [r | | |] eqn:Eb; cbn [obind] in Hrun; try discriminate.
  destruct (IterateZ_body_spec g c l s r Eb) as [[-> _] | Hspec].
  { injection Hrun as <- _. auto. }
  cbv zeta in Hspec.
  set (z' := cadd (cmul (v_z s) (v_z s)) c) in *.
  pose proof (pi_i _ _ _ Hinv) as Hi.
  assert (Ew : wrap (v_i s + 1) = v_i s + 1).
  { apply wrap_small. unfold is_int, int_min, int_max in *. lia. }
  rewrite Ew in Hspec.
  destruct (Z.to_nat (l - v_i s)) as [| m] eqn:Em; [lia |].
  assert (Em' : m = Z.to_nat (l - (v_i s + 1))) by lia.
  cbn [plain_loop]. fold z'. unfold escaped.
  destruct (real z' * real z' + imag z' * imag z' <=? bailout)%float eqn:En.
  - rewrite (leb_true_ltb_false _ _ En).
    destruct (v_i s + 1 <? l) eqn:Elt; cbn [andb] in Hspec.
    + destruct Hspec as (s' & -> & Ez & Ei).
      assert (Hinv' : pass_inv c l s' /\ v_i s' = v_i s + 1).
      { apply (pass_inv_next c l s s'); auto; try congruence;
          rewrite Ei; auto. }
      destruct Hinv' as [Hinv' _].
      destruct (IH s' (S n) i k Hinv' Hrun) as [H | [H | H]]; auto.
      right; right. rewrite H, Ez, Ei, Em'. reflexivity.
    + subst r. injection Hrun as <- _. apply Z.ltb_ge in Elt.
      right; right. replace m with O by lia. reflexivity.
  - rewrite andb_false_r in Hspec. subst r. injection Hrun as <- _.
    destruct (is_point_dec c) as [Hp | Hp].
    + right; right.
      rewrite leb_false_ltb_true; auto using bailout_is_number.
      apply (step_norm_is_number (v_z s) c (pi_norm _ _ _ Hinv) Hp).
    + destruct (pi_point _ _ _ Hinv) as [Hp' | [Hz _]]; [contradiction |].
      right; left. split; [exact Hp | lia].
Qed.

(** The loop makes at most [max 1 (l - i)] passes more. *)
Lemma IterateZ_loop_count (g : Guidemap) (c : complex128) (l : Z) :
  is_int l ->
  forall (fuel : nat) (s : locals) (n : nat) (i : Z) (k : nat),
    0 <= v_i s -> v_i s < l \/ v_i s = 0 ->
    loop fuel g c l s n = Ok (i, k) ->
    (n < k)%nat /\ Z.of_nat k - Z.of_nat n <= Z.max 1 (l - v_i s).
Proof.
  intros Hl. induction fuel as [| fuel IH]; intros s n i k Hi0 Hi Hrun; [discriminate |].
  cbn [IterateZ_loop] in Hrun.
  destruct (body g c l s) as [r | | |] eqn:Eb; cbn [obind] in Hrun; try discriminate.
  destruct (IterateZ_body_spec g c l s r Eb) as [[-> _] | Hspec].
  { injection Hrun as _ <-. lia. }
  cbv zeta in Hspec.
  assert (Ew : wrap (v_i s + 1) = v_i s + 1).
  { apply wrap_small. unfold is_int, int_min, int_max in *. lia. }
  rewrite Ew in Hspec.
  destruct ((v_i s + 1 <? l) && _) eqn:Econt.
  - destruct Hspec as (s' & -> & _ & Ei).
    apply andb_true_iff in Econt. destruct Econt as [Elt _]. apply Z.ltb_lt in Elt.
    destruct (IH s' (S n) i k) as [H1 H2]; auto; rewrite ?Ei; lia.
  - subst r. injection Hrun as _ <-. lia.
Qed.

(** With a well-formed guidemap the loop never panics, and [max 1 (l - i)]
    units of fuel are enough. *)
Lemma IterateZ_loop_total (g : Guidemap) (c : complex128) (l : Z) :
  is_int l -> Guidemap_wf g ->
  forall (fuel : nat) (s : locals) (n : nat),
    0 <= v_i s -> v_i s < l \/ v_i s = 0 ->
    Z.max 1 (l - v_i s) <= Z.of_nat fuel ->
    exists i k, loop fuel g c l s n = Ok (i, k).
Proof.
  intros Hl Hwf. induction fuel as [| fuel IH]; intros s n Hi0 Hi Hfuel; [lia |].
  cbn [IterateZ_loop].
  destruct (IterateZ_body_ok g c l s Hwf) as [r Eb]. rewrite Eb. cbn [obind].
  destruct (IterateZ_body_spec g c l s r Eb) as [[-> _] | Hspec]; [eauto |].
  cbv zeta in Hspec.
  assert (Ew : wrap (v_i s + 1) = v_i s + 1).
  { apply wrap_small. unfold is_int, int_min, int_max in *. lia. }
  rewrite Ew in Hspec.
  destruct ((v_i s + 1 <? l) && _) eqn:Econt.
  - destruct Hspec as (s' & -> & _ & Ei).
    apply andb_true_iff in Econt. destruct Econt as [Elt _]. apply Z.ltb_lt in Elt.
    apply IH; rewrite ?Ei; lia.
  - subst r. eauto.
Qed.

(** The ceiling [l = max + 2] as the machine computes it. *)
Lemma ceiling_cases (max : Z) :
  -1 <= max <= int_max ->
  (wrap (max + 2) = max + 2 /\ 1 <= max + 2 <= int_max) \/
  (wrap (max + 2) < 0 /\ int_max - 2 < max).
Proof.
  intros H. destruct (Z_le_gt_dec (max + 2) int_max) as [Hle | Hgt].
  - left. split; [| lia]. apply wrap_small. unfold is_int, int_min, int_max in *. lia.
  - right. rewrite wrap_overflow by (unfold int_max in *; lia).
    unfold int_max in *. lia.
Qed.

Lemma pass_inv_start (c : complex128) (l : Z) :
  1 <= l -> pass_inv c l (mkLocals czero czero 0 2 2).
Proof. intros Hl. constructor; cbn; [lia | reflexivity | auto]. Qed.

(** What [i] can be at the label [IterateZDone]. *)
Lemma IterateZ_cases (g : Guidemap) (c : complex128) (max i : Z) (k : nat) :
  -1 <= max <= int_max ->
  iterateZ g c max = Ok (i, k) ->
  i = -1 \/ ((~ is_point c \/ int_max - 2 < max) /\ i = 1) \/
  (i = plain_escape c max /\ max <= int_max - 2).
Proof.
  intros Hmax Hrun. unfold IterateZ in Hrun. cbv zeta in Hrun.
  destruct (ceiling_cases max Hmax) as [[El Hl] | [Hl Hbig]].
  - rewrite El in Hrun.
    destruct (IterateZ_loop_sound g c (max + 2) ltac:(unfold is_int, int_min, int_max in *; lia)
                _ _ _ _ _ (pass_inv_start c (max + 2) ltac:(lia)) Hrun)
      as [H | [[H1 H2] | H]]; auto.
    right; right. split; [| lia]. rewrite H. cbn [v_i v_z].
    rewrite Z.sub_0_r. reflexivity.
  - replace (Z.to_nat (Z.max 1 (wrap (max + 2)))) with 1%nat in Hrun by lia.
    cbn [IterateZ_loop] in Hrun.
    destruct (body g c (wrap (max + 2)) (mkLocals czero czero 0 2 2)) as [r | | |] eqn:Eb;
      cbn [obind] in Hrun; try discriminate.
    destruct (IterateZ_body_spec _ _ _ _ _ Eb) as [[_ H] | Hspec]; [discriminate H |].
    cbv zeta in Hspec. cbn [v_i] in Hspec.
    change (wrap (0 + 1)) with 1 in Hspec.
    destruct (1 <? wrap (max + 2)) eqn:E; [apply Z.ltb_lt in E; lia |].
    cbn [andb] in Hspec. subst r. injection Hrun as <- _. auto.
Qed.

(** One evaluation ends, after at least one and at most [max + 2]
    applications of the recurrence. *)
Lemma IterateZ_at_most (g : Guidemap) (c : complex128) (max : Z) :
  Guidemap_wf g -> -1 <= max <= int_max ->
  exists (i : Z) (k : nat),
    iterateZ g c max = Ok (i, k) /\ (1 <= k)%nat /\ Z.of_nat k <= max + 2.
Proof.
  intros Hwf Hmax. unfold IterateZ. cbv zeta.
  pose proof (wrap_is_int (max + 2)) as Hl.
  destruct (IterateZ_loop_total g c (wrap (max + 2)) Hl Hwf
              (Z.to_nat (Z.max 1 (wrap (max + 2)))) (mkLocals czero czero 0 2 2) 0%nat)
    as (i & k & Erun); cbn [v_i]; try lia.
  exists i, k. split; [exact Erun |].
  assert (H0 : 0 <= v_i (mkLocals czero czero 0 2 2)) by (cbn; lia).
  assert (H0' : v_i (mkLocals czero czero 0 2 2) < wrap (max + 2) \/
                v_i (mkLocals czero czero 0 2 2) = 0) by (right; reflexivity).
  destruct (IterateZ_loop_count g c (wrap (max + 2)) Hl _ _ _ _ _ H0 H0' Erun)
    as [H1 H2].
  cbn [v_i] in H2. destruct (ceiling_cases max Hmax) as [[E ?] | [? ?]]; lia.
Qed.

(** Soundness of one evaluation: a depth that passes the acceptance test
    is the plain escape time. *)
Lemma IterateZ_accept_sound (g : Guidemap) (c : complex128) (min max i : Z) (k : nat) :
  2 <= min -> max <= int_max ->
  iterateZ g c max = Ok (i, k) ->
  (min <=? i) && (i <=? max) = true ->
  i = plain_escape c max.
Proof.
  intros Hmin Hmax Hrun Hacc.
  apply andb_true_iff in Hacc. destruct Hacc as [H1 H2].
  apply Z.leb_le in H1, H2.
  destruct (IterateZ_cases g c max i k ltac:(lia) Hrun) as [H | [[_ H] | [H _]]];
    [lia | lia | exact H].
Qed.

(** A depth of two or more is only reached by a finite point: the first
    pass, which makes [z] of [c], has to pass the escape test. *)
Lemma IterateZ_beyond_first_pass (g : Guidemap) (c : complex128) (max i : Z) (k : nat) :
  iterateZ g c max = Ok (i, k) -> 2 <= i -> is_point c.
Proof.
  unfold IterateZ. cbv zeta. intros Hrun Hi.
  destruct (Z.to_nat (Z.max 1 (wrap (max + 2)))) as [| fuel]; [discriminate |].
  cbn [IterateZ_loop] in Hrun.
  destruct (body g c (wrap (max + 2)) (mkLocals czero czero 0 2 2)) as [r | | |] eqn:Eb;
    cbn [obind] in Hrun; try discriminate.
  destruct (IterateZ_body_spec _ _ _ _ _ Eb) as [[_ H] | Hspec]; [discriminate H |].
  cbv zeta in Hspec. cbn [v_i v_z] in Hspec.
  change (wrap (0 + 1)) with 1 in Hspec.
  destruct (1 <? wrap (max + 2)); cbn [andb] in Hspec;
    [| subst r; injection Hrun as <- _; lia].
  match type of Hspec with
  | (if ?b then _ else _) => destruct b eqn:En
  end; [| subst r; injection Hrun as <- _; lia].
  destruct (norm_le_finite _ _ En) as (Fr & Fi & _).
  now apply first_step_point.
Qed.

(** The plain iteration runs to the ceiling when the orbit stays inside. *)
Lemma plain_loop_inside (c : complex128) :
  forall (ceiling k : nat),
    (forall n, (k < n < k + ceiling)%nat -> escaped (orbit c n) = false) ->
    plain_loop ceiling c (orbit c k) (Z.of_nat k) = Z.of_nat (k + ceiling).
Proof.
  induction ceiling as [| ceiling IH]; intros k Hin; cbn [plain_loop].
  - f_equal. lia.
  - change (cadd (cmul (orbit c k) (orbit c k)) c) with (orbit c (S k)).
    replace (Z.of_nat k + 1) with (Z.of_nat (S k)) by lia.
    destruct ceiling as [| ceiling'].
    + cbn [plain_loop]. destruct (escaped (orbit c (S k))); f_equal; lia.
    + rewrite Hin by lia. rewrite IH by (intros; apply Hin; lia). f_equal. lia.
Qed.

Lemma plain_loop_range (c : complex128) :
  forall (ceiling : nat) (z : complex128) (n : Z),
    (0 < ceiling)%nat ->
    n + 1 <= plain_loop ceiling c z n <= n + Z.of_nat ceiling.
Proof.
  induction ceiling as [| ceiling IH]; intros z n Hc; [lia |].
  cbn [plain_loop]. destruct (escaped _); [lia |].
  destruct ceiling as [| ceiling']; [cbn [plain_loop]; lia |].
  specialize (IH (cadd (cmul z z) c) (n + 1) ltac:(lia)). lia.
Qed.

(** [i = -1] at [IterateZDone] comes from the check block alone: the
    loop itself leaves with a count between [1] and the ceiling. *)
Lemma IterateZ_result_range (g : Guidemap) (c : complex128) (max i : Z) (k : nat) :
  -1 <= max <= int_max ->
  iterateZ g c max = Ok (i, k) ->
  i = -1 \/ 1 <= i <= max + 2.
Proof.
  intros Hmax Hrun.
  destruct (IterateZ_cases g c max i k Hmax Hrun) as [H | [[_ H] | [H Hle]]];
    [auto | right; lia |].
  right. rewrite H. unfold plain_escape.
  pose proof (plain_loop_range c (Z.to_nat (max + 2)) czero 0 ltac:(lia)). lia.
Qed.

End EscapeFacts.

(** ** Building the guidemap *)

Section MineFacts.

Variable math_Round : float -> float.
Variable int_of_float64 : float -> Z.
Variable cmplx_Abs : complex128 -> float.

Local Abbreviation mark := (Mark math_Round int_of_float64).
Local Abbreviation iterateZ := (IterateZ math_Round int_of_float64).
Local Abbreviation iterateZDone := (IterateZDone math_Round int_of_float64).
Local Abbreviation probeOrbit := (probe_orbit math_Round int_of_float64 cmplx_Abs).
Local Abbreviation probeLoop := (probe_loop math_Round int_of_float64 cmplx_Abs).
Local Abbreviation generateGuidemap :=
  (GenerateGuidemap math_Round int_of_float64 cmplx_Abs).
Local Abbreviation checkNewC_body := (CheckNewC_body math_Round int_of_float64).
Local Abbreviation checkNewC := (CheckNewC math_Round int_of_float64).
Local Abbreviation acceptedBy := (accepted math_Round int_of_float64).
Local Abbreviation mine := (Mine math_Round int_of_float64 cmplx_Abs).

Lemma clear_data_length (d : list bool) : length (clear_data d) = length d.
Proof.
  unfold clear_data. generalize (seq 0 (length d)). intros l. revert d.
  induction l as [| idx l IH]; intros d; cbn [fold_left]; [reflexivity |].
  rewrite IH. apply length_insert.
Qed.

Lemma probe_orbit_wf :
  forall (fuel : nat) (c z : complex128) (idx : Z) (st : probing),
    Guidemap_wf (p_this st) ->
    exists st', probeOrbit fuel c z idx st = Ok st' /\ Guidemap_wf (p_this st').
Proof.
  induction fuel as [| fuel IH]; intros c z idx st Hwf; cbn [probe_orbit]; [eauto |].
  destruct (2 <? cmplx_Abs (cadd (cmul z z) c))%float; [| apply IH; exact Hwf].
  destruct (p_limmin st <=? idx); [| eauto].
  rewrite (Mark_cell math_Round int_of_float64 _ c Hwf). cbn [obind].
  eexists. split; [reflexivity |]. cbn [p_this].
  eapply Mark_wf; [exact Hwf | apply Mark_cell; exact Hwf].
Qed.

Lemma probe_loop_wf :
  forall (probes : nat) (st : probing) (rnd : list float),
    Guidemap_wf (p_this st) ->
    match probeLoop probes st rnd with
    | (Ok st', _) => Guidemap_wf (p_this st')
    | (Starved, _) => True
    | _ => False
    end.
Proof.
  induction probes as [| probes IH]; intros st rnd Hwf; cbn [probe_loop]; [exact Hwf |].
  destruct rnd as [| u1 [| u2 rnd']]; try exact I.
  destruct (probe_orbit_wf (Z.to_nat (wrap (p_limmax st + 2))) (candidate u1 u2)
              czero 0 st Hwf) as (st' & -> & Hwf').
  apply IH. exact Hwf'.
Qed.

Lemma GenerateGuidemap_wf (size : Z) (probes : nat) (rnd : list float) :
  1 <= size -> size * size <= int_max ->
  match generateGuidemap size probes rnd with
  | (Ok g, _) => Guidemap_wf g
  | (Starved, _) => True
  | _ => False
  end.
Proof.
  intros Hsize Hmax. unfold GenerateGuidemap. cbv zeta.
  assert (Ew : wrap (size * size) = size * size).
  { apply wrap_small. unfold is_int, int_min, int_max in *. nia. }
  rewrite Ew. destruct (size * size <? 0) eqn:E; [apply Z.ltb_lt in E; nia |].
  match goal with
  | |- context [probe_loop _ _ _ probes ?st rnd] =>
      pose proof (probe_loop_wf probes st rnd) as H
  end.
  cbn [p_this] in H.
  match type of H with
  | ?P -> _ => assert (Hwf : P)
  end.
  { constructor; cbn; try lia.
    rewrite clear_data_length, repeat_length. lia. }
  specialize (H Hwf).
  destruct (probe_loop _ _ _ probes _ rnd) as [[st' | | |] rnd']; auto.
Qed.

(** ** The acceptance loop *)

(** Every seed of the acceptance trace has its plain escape time in
    [[min, max]]. *)
Lemma accepted_sound (min max : Z) :
  2 <= min -> max <= int_max ->
  forall (cs : list complex128) (g : Guidemap),
    Forall (fun c => min <= plain_escape c max <= max) (acceptedBy min max g cs).
Proof.
  intros Hmin Hmax. induction cs as [| c cs IH]; intros g; cbn [accepted]; [constructor |].
  destruct (iterateZ g c max) as [[i k] | | |] eqn:Erun; try constructor.
  destruct ((min <=? i) && (i <=? max)) eqn:Eacc; [| apply IH].
  destruct (mark g c) as [g' | | |]; try constructor; [| apply IH].
  rewrite <- (IterateZ_accept_sound math_Round int_of_float64 g c min max i k Hmin Hmax Erun Eacc).
  apply andb_true_iff in Eacc. destruct Eacc as [H1 H2].
  apply Z.leb_le in H1, H2. lia.
Qed.

(** Every seed of the acceptance trace is a finite point, whatever the
    random source holds. *)
Lemma accepted_points (min max : Z) :
  2 <= min ->
  forall (cs : list complex128) (g : Guidemap),
    Forall is_point (acceptedBy min max g cs).
Proof.
  intros Hmin. induction cs as [| c cs IH]; intros g; cbn [accepted]; [constructor |].
  destruct (iterateZ g c max) as [[i k] | | |] eqn:Erun; try constructor.
  destruct ((min <=? i) && (i <=? max)) eqn:Eacc; [| apply IH].
  destruct (mark g c) as [g' | | |]; try constructor; [| apply IH].
  apply andb_true_iff in Eacc. destruct Eacc as [H1 _]. apply Z.leb_le in H1.
  apply (IterateZ_beyond_first_pass math_Round int_of_float64 g c max i k Erun). lia.
Qed.

(** Induction on a random source, two draws at a time. *)
Lemma draws_ind (P : list float -> Prop) :
  P [] -> (forall u, P [u]) ->
  (forall u1 u2 rnd, P rnd -> P (u1 :: u2 :: rnd)) ->
  forall rnd, P rnd.
Proof.
  intros H0 H1 H2 rnd.
  enough (H : P rnd /\ forall u, P (u :: rnd)) by apply H.
  induction rnd as [| u rnd [IHa IHb]]; split; auto.
Qed.


Lemma CheckNewC_body_spec (howmany min max : Z) (st : mining) (acc : list complex128)
  (c : complex128) :
  -1 <= max <= int_max -> howmany <= int_max ->
  filled howmany st acc -> m_found st < howmany ->
  exists (i : Z) (k : nat) (st' : mining),
    iterateZ (m_guidemap st) c max = Ok (i, k) /\
    checkNewC_body min max st c = Ok st' /\
    if (min <=? i) && (i <=? max)
    then filled howmany st' (acc ++ [c]) /\ m_found st' = m_found st + 1 /\
         mark (m_guidemap st) c = Ok (m_guidemap st')
    else filled howmany st' acc /\ m_found st' = m_found st /\
         m_guidemap st' = m_guidemap st.
Proof.
  intros Hmax Hhow [Hseeds Hfound Hsidx Hwf] Hlt.
  destruct (IterateZ_at_most math_Round int_of_float64 (m_guidemap st) c max Hwf Hmax)
    as (i & k & Erun & _).
  exists i, k. unfold CheckNewC_body. rewrite Erun. cbn [obind fst].
  unfold IterateZDone. destruct ((min <=? i) && (i <=? max)).
  - assert (Hlen : Z.of_nat (length (m_seeds st)) = howmany).
    { rewrite Hseeds, length_app, repeat_length. lia. }
    rewrite Hsidx.
    destruct (0 <=? m_found st) eqn:E1; [| apply Z.leb_gt in E1; lia].
    destruct (m_found st <? Z.of_nat (length (m_seeds st))) eqn:E2;
      [| apply Z.ltb_ge in E2; lia].
    cbn [andb].
    rewrite (Mark_cell math_Round int_of_float64 _ c Hwf). cbn [obind].
    eexists. split; [reflexivity |]. split; [reflexivity |].
    cbn [m_seeds m_sidx m_guidemap m_found m_realmin m_realmax m_j].
    assert (Ew : wrap (m_found st + 1) = m_found st + 1).
    { apply wrap_small. unfold is_int, int_min, int_max in *. lia. }
    rewrite Ew. split; [| split; [reflexivity | reflexivity]].
    constructor; cbn [m_seeds m_sidx m_guidemap m_found m_realmin m_realmax m_j].
    + rewrite Hseeds.
      replace (Z.to_nat (m_found st)) with (length acc + 0)%nat by lia.
      rewrite insert_app_r.
      replace (Z.to_nat (howmany - m_found st))
        with (S (Z.to_nat (howmany - (m_found st + 1)))) by lia.
      cbn. rewrite <- app_assoc. reflexivity.
    + rewrite length_app. cbn. lia.
    + reflexivity.
    + eapply Mark_wf; [exact Hwf | apply Mark_cell; exact Hwf].
  - cbn [obind]. eexists. split; [reflexivity |]. split; [reflexivity |].
    cbn [m_seeds m_sidx m_guidemap m_found m_realmin m_realmax m_j].
    split; [| split; reflexivity]. constructor; cbn; auto.
Qed.

Lemma accepted_cons_accept (min max : Z) (g g' : Guidemap) (c : complex128)
  (cs : list complex128) (i : Z) (k : nat) :
  iterateZ g c max = Ok (i, k) -> (min <=? i) && (i <=? max) = true ->
  mark g c = Ok g' ->
  acceptedBy min max g (c :: cs) = c :: acceptedBy min max g' cs.
Proof. intros E1 E2 E3. cbn [accepted]. now rewrite E1, E2, E3. Qed.

Lemma accepted_cons_reject (min max : Z) (g : Guidemap) (c : complex128)
  (cs : list complex128) (i : Z) (k : nat) :
  iterateZ g c max = Ok (i, k) -> (min <=? i) && (i <=? max) = false ->
  acceptedBy min max g (c :: cs) = acceptedBy min max g cs.
Proof. intros E1 E2. cbn [accepted]. now rewrite E1, E2. Qed.

(** What the outer loop returns: it stops on the candidate that fills the
    last slot, or the random source runs dry before. *)
Lemma CheckNewC_spec (howmany min max : Z) :
  -1 <= max <= int_max -> howmany <= int_max ->
  forall (rnd : list float) (st : mining) (acc : list complex128),
    filled howmany st acc -> m_found st < howmany ->
    match checkNewC howmany min max st rnd with
    | (Ok st', rnd') =>
        exists consumed cs c_last,
          rnd = consumed ++ rnd' /\
          candidates consumed = cs ++ [c_last] /\
          acceptedBy min max (m_guidemap st) (cs ++ [c_last]) =
            acceptedBy min max (m_guidemap st) cs ++ [c_last] /\
          m_seeds st' = acc ++ acceptedBy min max (m_guidemap st) (cs ++ [c_last]) /\
          Z.of_nat (length (m_seeds st')) = howmany
    | (Starved, _) =>
        Z.of_nat (length (acc ++ acceptedBy min max (m_guidemap st) (candidates rnd)))
          < howmany
    | _ => False
    end.
Proof.
  intros Hmax Hhow.
  induction rnd as [| u | u1 u2 rnd IH] using draws_ind; intros st acc Hfill Hlt.
  - cbn. rewrite app_nil_r. rewrite (fi_found _ _ _ Hfill). exact Hlt.
  - cbn. rewrite app_nil_r. rewrite (fi_found _ _ _ Hfill). exact Hlt.
  - cbn [CheckNewC candidates].
    destruct (CheckNewC_body_spec howmany min max st acc (candidate u1 u2)
                Hmax Hhow Hfill Hlt) as (i & k & st' & Erun & -> & Hcase).
    destruct ((min <=? i) && (i <=? max)) eqn:Eacc.
    + destruct Hcase as (Hfill' & Hfound' & Emark).
      destruct (m_found st' <? howmany) eqn:Emore.
      * apply Z.ltb_lt in Emore.
        specialize (IH st' (acc ++ [candidate u1 u2]) Hfill' Emore).
        destruct (checkNewC howmany min max st' rnd) as [[st'' | | |] rnd'']; auto.
        -- destruct IH as (consumed & cs & c_last & -> & Ecs & Elast & Eseeds & Elen).
           exists (u1 :: u2 :: consumed), (candidate u1 u2 :: cs), c_last.
           split; [reflexivity |]. cbn [candidates]. rewrite Ecs.
           split; [reflexivity |].
           rewrite <- !app_comm_cons.
           rewrite !(accepted_cons_accept min max _ _ _ _ i k Erun Eacc Emark).
           rewrite Elast. split; [reflexivity |].
           split; [| exact Elen].
           rewrite Eseeds, Elast, <- !app_assoc. reflexivity.
        -- rewrite (accepted_cons_accept min max _ _ _ _ i k Erun Eacc Emark).
           rewrite <- app_assoc in IH. exact IH.
      * apply Z.ltb_ge in Emore.
        exists [u1; u2], [], (candidate u1 u2). cbn [app candidates].
        rewrite (accepted_cons_accept min max _ _ _ _ i k Erun Eacc Emark).
        cbn [accepted app].
        pose proof (fi_seeds _ _ _ Hfill') as Es.
        replace (Z.to_nat (howmany - m_found st')) with O in Es by lia.
        cbn in Es. rewrite app_nil_r in Es.
        repeat split; auto.
        rewrite Es, length_app. pose proof (fi_found _ _ _ Hfill) as Hf. cbn. lia.
    + destruct Hcase as (Hfill' & Hfound' & Eg).
      rewrite Hfound'. destruct (m_found st <? howmany) eqn:Emore;
        [| apply Z.ltb_ge in Emore; lia].
      assert (Hlt' : m_found st' < howmany) by lia.
      specialize (IH st' acc Hfill' Hlt'). rewrite Eg in IH.
      destruct (checkNewC howmany min max st' rnd) as [[st'' | | |] rnd'']; auto.
      * destruct IH as (consumed & cs & c_last & -> & Ecs & Elast & Eseeds & Elen).
        exists (u1 :: u2 :: consumed), (candidate u1 u2 :: cs), c_last.
        split; [reflexivity |]. cbn [candidates]. rewrite Ecs.
        split; [reflexivity |].
        rewrite <- !app_comm_cons.
        rewrite !(accepted_cons_reject min max _ _ _ i k Erun Eacc).
        auto.
      * rewrite (accepted_cons_reject min max _ _ _ i k Erun Eacc). exact IH.
Qed.


(** What [Mine] returns on a valid configuration: the guidemap is built,
    then candidates are drawn until the one that fills the last slot; the
    seedpack is the acceptance trace of the candidates drawn. *)
Lemma Mine_spec (howmany min max : Z) (probes : nat) (rnd : list float) :
  valid_config howmany min max ->
  match mine howmany min max probes rnd with
  | (Ok (seeds, realmin, realmax), rnd') =>
      exists g0 rnd1 consumed cs c_last,
        generateGuidemap 51 probes rnd = (Ok g0, rnd1) /\
        Guidemap_wf g0 /\
        rnd1 = consumed ++ rnd' /\
        candidates consumed = cs ++ [c_last] /\
        acceptedBy min max g0 (cs ++ [c_last]) = acceptedBy min max g0 cs ++ [c_last] /\
        seeds = acceptedBy min max g0 (cs ++ [c_last]) /\
        Z.of_nat (length seeds) = howmany
  | (Starved, _) =>
      fst (generateGuidemap 51 probes rnd) = Starved \/
      exists g0 rnd1,
        generateGuidemap 51 probes rnd = (Ok g0, rnd1) /\
        Z.of_nat (length (acceptedBy min max g0 (candidates rnd1))) < howmany
  | _ => False
  end.
Proof.
  intros [Hhow Hmin Hmax]. unfold Mine.
  destruct (howmany <? 1) eqn:E1; [apply Z.ltb_lt in E1; lia |].
  destruct (max <? min) eqn:E2; [apply Z.ltb_lt in E2; lia |].
  destruct (min <? 2) eqn:E3; [apply Z.ltb_lt in E3; lia |].
  unfold NewSeedpack.
  destruct (howmany <? 0) eqn:E4; [apply Z.ltb_lt in E4; lia |].
  pose proof (GenerateGuidemap_wf 51 probes rnd ltac:(lia)
                ltac:(unfold int_max; lia)) as Hg.
  destruct (generateGuidemap 51 probes rnd) as [[g0 | | |] rnd1]; try contradiction;
    [| left; reflexivity].
  pose proof (CheckNewC_spec howmany min max ltac:(lia) ltac:(lia) rnd1
                (mkMining (repeat czero (Z.to_nat howmany)) 0 g0 0 max min 0) []) as Hloop.
  cbn [m_guidemap m_found] in Hloop.
  assert (Hfill : filled howmany
            (mkMining (repeat czero (Z.to_nat howmany)) 0 g0 0 max min 0) []).
  { constructor; cbn; auto. rewrite Z.sub_0_r. reflexivity. }
  specialize (Hloop Hfill ltac:(lia)).
  destruct (checkNewC howmany min max _ rnd1) as [[st | | |] rnd2]; auto.
  - destruct Hloop as (consumed & cs & c_last & -> & Ecs & Elast & Eseeds & Elen).
    exists g0, (consumed ++ rnd2), consumed, cs, c_last.
    cbn [app] in Eseeds. rewrite Eseeds. rewrite Eseeds in Elen. auto 10.
  - right. exists g0, rnd1. auto.
Qed.

End MineFacts.

(** ** Serialization: what is written can be read back *)

Lemma digits2_pos_size (m : positive) : digits2_pos m = Pos.size m.
Proof. induction m as [m IH | m IH |]; cbn; try rewrite IH; reflexivity. Qed.

Lemma digits2_bounds (m : positive) :
  2 ^ (Z.pos (digits2_pos m) - 1) <= Z.pos m < 2 ^ Z.pos (digits2_pos m).
Proof.
  rewrite digits2_pos_size.
  pose proof (Pos.size_gt m) as Hgt. pose proof (Pos.size_le m) as Hle.
  apply Pos2Z.pos_lt_pos in Hgt. apply Pos2Z.pos_le_pos in Hle.
  rewrite Pos2Z.inj_pow in Hgt, Hle.
  split; [| exact Hgt].
  change (Z.pos m~0) with (2 * Z.pos m) in Hle.
  replace (Z.pos (Pos.size m)) with (Z.succ (Z.pos (Pos.size m) - 1)) in Hle by lia.
  rewrite Z.pow_succ_r in Hle by lia. lia.
Qed.

(** The mantissa and exponent of a valid binary64. *)
Lemma valid_finite_bounds (s : bool) (m : positive) (e : Z) :
  valid_binary (S754_finite s m e) = true ->
  -1074 <= e <= 971 /\ Z.pos m < 2 ^ 53 /\ (Z.pos m < 2 ^ 52 -> e = -1074).
Proof.
  unfold valid_binary, bounded, canonical_mantissa, fexp, emin, emax, prec.
  intros H. apply andb_true_iff in H. destruct H as [H1 H2].
  apply Z.eqb_eq in H1. apply Z.leb_le in H2.
  pose proof (digits2_bounds m) as [Hlo Hhi].
  assert (Hd : Z.pos (digits2_pos m) <= 53) by lia.
  split; [lia |]. split.
  - eapply Z.lt_le_trans; [exact Hhi |]. apply Z.pow_le_mono_r; lia.
  - intros Hsmall.
    assert (Z.pos (digits2_pos m) <= 52).
    { destruct (Z_le_gt_dec (Z.pos (digits2_pos m)) 52) as [|Hgt]; [assumption |].
      assert (2 ^ 52 <= 2 ^ (Z.pos (digits2_pos m) - 1)) by (apply Z.pow_le_mono_r; lia).
      lia. }
    lia.
Qed.

Lemma Float64bits_range (x : float) : 0 <= Float64bits x < 2 ^ 64.
Proof.
  unfold Float64bits. pose proof (Prim2SF_valid x) as Hv.
  destruct (Prim2SF x) as [s | s | | s m e].
  - destruct s; lia.
  - destruct s; lia.
  - lia.
  - destruct (valid_finite_bounds s m e Hv) as (He & Hm & _).
    destruct s; nia.
Qed.

Lemma Float64frombits_Float64bits (x : float) : Float64frombits (Float64bits x) = x.
Proof.
  rewrite <- (SF2Prim_Prim2SF x) at 2.
  unfold Float64frombits, Float64bits. cbv zeta. f_equal.
  pose proof (Prim2SF_valid x) as Hv.
  destruct (Prim2SF x) as [s | s | | s m e].
  - destruct s; reflexivity.
  - destruct s; reflexivity.
  - reflexivity.
  - destruct (valid_finite_bounds s m e Hv) as (He & Hm & Hsub).
    set (S := if s then 2 ^ 63 else 0).
    assert (HS : S = 0 \/ S = 2 ^ 63) by (subst S; destruct s; auto).
    assert (Hs : (2 ^ 63 <=? S + (e + 1074) * 2 ^ 52 + Z.pos m) = s).
    { subst S. destruct s.
      - apply Z.leb_le. nia.
      - apply Z.leb_gt. nia. }
    rewrite Hs.
    destruct (Z_lt_ge_dec (Z.pos m) (2 ^ 52)) as [Hlt | Hge].
    + specialize (Hsub Hlt). subst e.
      replace (S + (-1074 + 1074) * 2 ^ 52 + Z.pos m) with (Z.pos m + S) by lia.
      assert (E1 : ((Z.pos m + S) / 2 ^ 52) mod 2048 = 0).
      { destruct HS as [-> | ->].
        - rewrite Z.add_0_r, Z.div_small by lia. reflexivity.
        - replace (2 ^ 63) with (2048 * 2 ^ 52) by lia.
          rewrite Z.div_add by lia. rewrite Z.div_small by lia.
          reflexivity. }
      assert (E2 : (Z.pos m + S) mod 2 ^ 52 = Z.pos m).
      { destruct HS as [-> | ->].
        - rewrite Z.add_0_r. apply Z.mod_small. lia.
        - replace (2 ^ 63) with (2048 * 2 ^ 52) by lia.
          rewrite Z.mod_add by lia. apply Z.mod_small. lia. }
      rewrite E1, E2. reflexivity.
    + set (b := S + (e + 1074) * 2 ^ 52 + Z.pos m).
      assert (E1 : (b / 2 ^ 52) mod 2048 = e + 1075).
      { destruct HS as [HS | HS].
        - replace b with ((Z.pos m - 2 ^ 52) + (e + 1075) * 2 ^ 52) by (subst b; lia).
          rewrite Z.div_add by lia. rewrite Z.div_small by lia.
          rewrite Z.add_0_l. apply Z.mod_small. lia.
        - replace b with ((Z.pos m - 2 ^ 52) + (e + 1075 + 1 * 2048) * 2 ^ 52)
            by (subst b; lia).
          rewrite Z.div_add by lia. rewrite Z.div_small by lia.
          rewrite Z.add_0_l, Z.mod_add by lia. apply Z.mod_small. lia. }
      assert (E2 : b mod 2 ^ 52 = Z.pos m - 2 ^ 52).
      { replace b with ((Z.pos m - 2 ^ 52) + (e + 1075 + S / 2 ^ 52) * 2 ^ 52).
        - rewrite Z.mod_add by lia. apply Z.mod_small. lia.
        - subst b. destruct HS as [-> | ->].
          + rewrite Z.div_0_l by lia. lia.
          + change (2 ^ 63 / 2 ^ 52) with 2048. lia. }
      rewrite E1, E2.
      destruct (e + 1075 =? 2047) eqn:E3; [apply Z.eqb_eq in E3; lia |].
      destruct (e + 1075 =? 0) eqn:E4; [apply Z.eqb_eq in E4; lia |].
      replace (Z.pos m - 2 ^ 52 + 2 ^ 52) with (Z.pos m) by lia.
      replace (e + 1075 - 1075) with e by lia. reflexivity.
Qed.

Lemma Z_of_byte_of_Z (n : Z) : Z_of_byte (byte_of_Z n) = n mod 256.
Proof.
  unfold Z_of_byte, byte_of_Z.
  pose proof (Z.mod_pos_bound n 256 ltac:(lia)) as Hr.
  destruct (Byte.of_N (Z.to_N (n mod 256))) as [b |] eqn:E.
  - apply Byte.to_of_N in E. rewrite E. lia.
  - apply Byte.of_N_None_iff in E. lia.
Qed.

Lemma PutUint64_le_bytes (v : Z) : PutUint64 v = le_bytes 8 v.
Proof.
  unfold PutUint64. cbn [map le_bytes].
  rewrite !Z.shiftr_div_pow2 by lia.
  rewrite !Z.div_div by lia.
  change (2 ^ (8 * 0)) with 1. rewrite Z.div_1_r.
  reflexivity.
Qed.

Lemma Uint64_le_bytes (n : nat) (v : Z) :
  0 <= v -> Uint64 (le_bytes n v) = v mod 256 ^ Z.of_nat n.
Proof.
  revert v. induction n as [| n IH]; intros v Hv.
  - cbn. now rewrite Z.mod_1_r.
  - cbn [le_bytes Uint64 fold_right]. fold (Uint64 (le_bytes n (v / 256))).
    rewrite IH by (apply Z.div_pos; lia).
    rewrite Z_of_byte_of_Z.
    rewrite Nat2Z.inj_succ, Z.pow_succ_r by lia.
    rewrite Z.rem_mul_r by lia. reflexivity.
Qed.

Lemma Uint64_PutUint64 (v : Z) : 0 <= v < 2 ^ 64 -> Uint64 (PutUint64 v) = v.
Proof.
  intros Hv. rewrite PutUint64_le_bytes, Uint64_le_bytes by lia.
  change (256 ^ Z.of_nat 8) with (2 ^ 64). apply Z.mod_small. exact Hv.
Qed.

Lemma PutUint64_length (v : Z) : length (PutUint64 v) = 8%nat.
Proof. reflexivity. Qed.

Lemma Write_complex128_length (c : complex128) : length (Write_complex128 c) = 16%nat.
Proof. reflexivity. Qed.

Lemma Read_Write_complex128 (c : complex128) (rest : list Byte.byte) :
  Read_complex128 (firstn 16 (Write_complex128 c ++ rest)) = c.
Proof.
  rewrite firstn_app, Write_complex128_length, Nat.sub_diag, firstn_O, app_nil_r.
  rewrite firstn_all2 by (rewrite Write_complex128_length; lia).
  unfold Read_complex128, Write_complex128.
  rewrite firstn_app, PutUint64_length, Nat.sub_diag, firstn_O, app_nil_r.
  rewrite firstn_all2 by (rewrite PutUint64_length; lia).
  rewrite skipn_app, PutUint64_length, Nat.sub_diag, skipn_O.
  rewrite skipn_all2 by (rewrite PutUint64_length; lia). cbn [app].
  rewrite firstn_all2 by (rewrite PutUint64_length; lia).
  rewrite !Uint64_PutUint64 by apply Float64bits_range.
  rewrite !Float64frombits_Float64bits. destruct c; reflexivity.
Qed.

Lemma flat_map_Write_length (l : list complex128) :
  length (flat_map Write_complex128 l) = (16 * length l)%nat.
Proof.
  induction l as [| c l IH]; [reflexivity |].
  cbn [flat_map]. rewrite length_app, IH, Write_complex128_length. cbn [length]. lia.
Qed.

Lemma Read_seeds_Write (l : list complex128) :
  Read_seeds (length l) (flat_map Write_complex128 l) = l.
Proof.
  induction l as [| c l IH]; [reflexivity |].
  cbn [length Read_seeds flat_map].
  rewrite Read_Write_complex128. f_equal.
  rewrite skipn_app, Write_complex128_length, Nat.sub_diag, skipn_O.
  rewrite skipn_all2 by (rewrite Write_complex128_length; lia).
  exact IH.
Qed.

Lemma Decode_payload (l : list complex128) :
  Decode (flat_map Write_complex128 l) = l.
Proof.
  unfold Decode. rewrite flat_map_Write_length.
  replace (16 * length l / 16)%nat with (length l)
    by (rewrite Nat.mul_comm, Nat.div_mul; lia).
  apply Read_seeds_Write.
Qed.

Lemma fold_left_write (l : list complex128) (buf : list Byte.byte) :
  fold_left (fun buf c => buf ++ Write_complex128 c) l buf =
  buf ++ flat_map Write_complex128 l.
Proof.
  revert buf. induction l as [| c l IH]; intros buf; cbn [fold_left flat_map].
  - now rewrite app_nil_r.
  - rewrite IH, <- app_assoc. reflexivity.
Qed.

Lemma SaveEMSFile_bytes (md5_Sum : list Byte.byte -> list Byte.byte)
  (seeds : list complex128) (min max : Z) :
  ems_bytes (SaveEMSFile md5_Sum seeds min max) =
  header ++ flat_map Write_complex128 (Sort seeds).
Proof. unfold SaveEMSFile. cbn [ems_bytes]. now rewrite fold_left_write. Qed.

Lemma Decode_after_header (l : list complex128) :
  Decode (skipn 32 (header ++ flat_map Write_complex128 l)) = l.
Proof.
  rewrite skipn_app.
  change (length header) with 32%nat. rewrite Nat.sub_diag, skipn_O.
  rewrite skipn_all2 by (change (length header) with 32%nat; lia).
  cbn [app]. apply Decode_payload.
Qed.

(** ** Seedpack: the order of the seeds *)

Lemma less_clt (a b : complex128) :
  no_nan a -> no_nan b -> (less a b = true <-> clt a b).
Proof.
  intros [Har Hai] [Hbr Hbi]. unfold less, clt, is_number in *.
  rewrite FloatAxioms.eqb_spec, !ltb_spec.
  pose proof (SFeqb_key _ _ Har Hbr) as He.
  pose proof (SFltb_key _ _ Har Hbr) as Hr.
  pose proof (SFltb_key _ _ Hai Hbi) as Hi.
  destruct (SFeqb (Prim2SF (real a)) (Prim2SF (real b))); cbn [negb].
  - assert (E : SFkey (Prim2SF (real a)) = SFkey (Prim2SF (real b))) by now apply He.
    rewrite Hi. split; [auto |].
    intros [H | [_ H]]; [| exact H].
    rewrite E in H. now apply klt_irrefl in H.
  - rewrite Hr. split; [auto |].
    intros [H | [H _]]; [exact H |].
    apply He in H. discriminate.
Qed.

Lemma clt_trans (a b c : complex128) : clt a b -> clt b c -> clt a c.
Proof.
  unfold clt. intros [H1 | [E1 H1]] [H2 | [E2 H2]].
  - left. eapply klt_trans; eauto.
  - left. now rewrite <- E2.
  - left. now rewrite E1.
  - right. split; [congruence | eapply klt_trans; eauto].
Qed.

Lemma clt_irrefl (a : complex128) : ~ clt a a.
Proof. unfold clt. intros [H | [_ H]]; now apply klt_irrefl in H. Qed.

(** Negative transitivity: what makes "not less" transitive. *)
Lemma clt_cotrans (a b c : complex128) : clt a c -> clt a b \/ clt b c.
Proof.
  unfold clt. intros H.
  destruct (klt_total (SFkey (Prim2SF (real a))) (SFkey (Prim2SF (real b))))
    as [Hab | [Eab | Hba]]; [auto | |].
  - destruct (klt_total (SFkey (Prim2SF (imag a))) (SFkey (Prim2SF (imag b))))
      as [Hi | [Ei | Hi]]; [auto | |].
    + right. rewrite <- Eab, <- Ei. exact H.
    + right. rewrite <- Eab. destruct H as [H | [E H]]; [auto |].
      right. split; [exact E | eapply klt_trans; eauto].
  - right. left. destruct H as [H | [E H]].
    + eapply klt_trans; eauto.
    + now rewrite <- E.
Qed.

Lemma seed_le_clt (a b : complex128) :
  no_nan a -> no_nan b -> (seed_le a b <-> ~ clt b a).
Proof.
  intros Ha Hb. unfold seed_le. rewrite <- (less_clt b a Hb Ha).
  destruct (less b a); split; congruence.
Qed.

Lemma less_seed_le (a b : complex128) :
  no_nan a -> no_nan b -> less a b = true -> seed_le a b.
Proof.
  intros Ha Hb H. apply seed_le_clt; auto. apply less_clt in H; auto.
  intros H'. eapply clt_irrefl, clt_trans; eauto.
Qed.

Lemma seed_le_trans (a b c : complex128) :
  no_nan a -> no_nan b -> no_nan c -> seed_le a b -> seed_le b c -> seed_le a c.
Proof.
  intros Ha Hb Hc. rewrite !seed_le_clt by assumption.
  intros H1 H2 H. destruct (clt_cotrans c b a H); contradiction.
Qed.

Lemma tied_less (a x y : complex128) :
  no_nan a -> no_nan x -> no_nan y ->
  tied a x = true -> tied a y = true -> less x y = false.
Proof.
  intros Ha Hx Hy. unfold tied. rewrite !andb_true_iff, !negb_true_iff.
  intros [H1 H2] [H3 H4].
  destruct (less x y) eqn:E; [| reflexivity]. exfalso.
  apply less_clt in E; auto.
  destruct (clt_cotrans x a y E) as [H | H]; apply less_clt in H; auto; congruence.
Qed.

Lemma seed_le_ordered (a b : complex128) :
  no_nan a -> no_nan b -> seed_le a b -> seed_ordered a b.
Proof.
  intros [Har Hai] [Hbr Hbi]. unfold seed_le, less, seed_ordered, is_number in *.
  rewrite !FloatAxioms.eqb_spec, !ltb_spec, !leb_spec.
  rewrite !SFltb_negb_leb by assumption.
  pose proof (SFeqb_key _ _ Hbr Har) as E1.
  pose proof (SFeqb_key _ _ Har Hbr) as E2.
  pose proof (SFleb_key _ _ Har Hbr) as L1.
  destruct (SFeqb (Prim2SF (real b)) (Prim2SF (real a))) eqn:Eq; cbn [negb].
  - rewrite negb_false_iff. intros Hi. split; [| auto].
    apply L1. assert (K : SFkey (Prim2SF (real b)) = SFkey (Prim2SF (real a)))
      by (apply E1; reflexivity).
    rewrite K. apply klt_irrefl.
  - rewrite negb_false_iff. intros Hr. split; [exact Hr |].
    intros H. apply E2 in H. symmetry in H. apply E1 in H. discriminate.
Qed.

(** ** Insertion *)

Lemma move_left_perm (x : complex128) (r : list complex128) :
  Permutation (move_left x r) (x :: r).
Proof.
  induction r as [| y r IH]; cbn [move_left]; [reflexivity |].
  destruct (less x y); [| reflexivity].
  rewrite IH. apply perm_swap.
Qed.

Lemma move_left_no_nan (x : complex128) (r : list complex128) :
  no_nan x -> Forall no_nan r -> Forall no_nan (move_left x r).
Proof.
  intros Hx Hr. eapply Permutation_Forall; [symmetry; apply move_left_perm |].
  constructor; assumption.
Qed.

Lemma move_left_descending (x : complex128) (r : list complex128) :
  no_nan x -> Forall no_nan r -> descending r -> descending (move_left x r).
Proof.
  intros Hx. unfold descending. induction r as [| y r IH]; intros Hr Hd; cbn [move_left].
  - repeat constructor.
  - apply Forall_cons_iff in Hr. destruct Hr as [Hy Hr].
    apply StronglySorted_inv in Hd. destruct Hd as [Hd Hall].
    destruct (less x y) eqn:E.
    + constructor; [apply IH; assumption |].
      eapply Permutation_Forall; [symmetry; apply move_left_perm |].
      constructor; [| exact Hall]. apply less_seed_le; assumption.
    + constructor; [constructor; assumption |].
      constructor; [exact E |].
      rewrite List.Forall_forall in Hall, Hr |- *. intros z Hz.
      apply (seed_le_trans z y x); auto.
Qed.

Lemma fold_move_left_inv (s acc : list complex128) :
  Forall no_nan s -> Forall no_nan acc -> descending acc ->
  let r := fold_left (fun sorted_rev x => move_left x sorted_rev) s acc in
  Forall no_nan r /\ descending r /\ Permutation r (s ++ acc).
Proof.
  revert acc. induction s as [| x s IH]; intros acc Hs Hacc Hd; cbn [fold_left app].
  - auto.
  - apply Forall_cons_iff in Hs. destruct Hs as [Hx Hs].
    destruct (IH (move_left x acc) Hs (move_left_no_nan x acc Hx Hacc)
                (move_left_descending x acc Hx Hacc Hd)) as (H1 & H2 & H3).
    cbv zeta in *. repeat split; auto.
    rewrite H3, move_left_perm. symmetry. apply Permutation_middle.
Qed.

Lemma StronglySorted_snoc {A : Type} (R : A -> A -> Prop) (l : list A) (x : A) :
  StronglySorted R l -> Forall (fun y => R y x) l -> StronglySorted R (l ++ [x]).
Proof.
  induction 1 as [| y l Hs IH Hy]; intros Hall; cbn [app].
  - repeat constructor.
  - apply Forall_cons_iff in Hall. destruct Hall as [Hyx Hall].
    constructor; [apply IH; exact Hall |].
    apply Forall_app. split; [exact Hy | repeat constructor; exact Hyx].
Qed.

Lemma StronglySorted_rev {A : Type} (R : A -> A -> Prop) (l : list A) :
  StronglySorted (fun a b => R b a) l -> StronglySorted R (rev l).
Proof.
  induction 1 as [| y l Hs IH Hy]; cbn [rev]; [constructor |].
  apply StronglySorted_snoc; [exact IH |].
  rewrite List.Forall_forall in Hy |- *. intros z Hz. apply Hy. now apply in_rev.
Qed.

Lemma Sort_no_nan (s : list complex128) : Forall no_nan s -> Forall no_nan (Sort s).
Proof.
  intros Hs. destruct (fold_move_left_inv s [] Hs (List.Forall_nil _) (SSorted_nil _))
    as (H & _ & _).
  unfold Sort. rewrite List.Forall_forall in H |- *. intros x Hx. apply H. now apply in_rev.
Qed.

Lemma Sort_sorted (s : list complex128) :
  Forall no_nan s -> StronglySorted seed_le (Sort s).
Proof.
  intros Hs. destruct (fold_move_left_inv s [] Hs (List.Forall_nil _) (SSorted_nil _))
    as (_ & H & _).
  apply StronglySorted_rev. exact H.
Qed.

Lemma Sort_perm (s : list complex128) : Forall no_nan s -> Permutation (Sort s) s.
Proof.
  intros Hs. destruct (fold_move_left_inv s [] Hs (List.Forall_nil _) (SSorted_nil _))
    as (_ & _ & H).
  unfold Sort. rewrite <- Permutation_rev. cbv zeta in H. now rewrite app_nil_r in H.
Qed.

(** Sorting a sorted seedpack moves nothing. *)
Lemma fold_move_left_sorted (s acc : list complex128) :
  StronglySorted seed_le s ->
  (forall y, head acc = Some y -> Forall (seed_le y) s) ->
  fold_left (fun sorted_rev x => move_left x sorted_rev) s acc = rev s ++ acc.
Proof.
  revert acc. induction s as [| x s IH]; intros acc Hs Hhd; cbn [fold_left rev].
  - reflexivity.
  - apply StronglySorted_inv in Hs. destruct Hs as [Hs Hx].
    assert (E : move_left x acc = x :: acc).
    { destruct acc as [| y acc]; [reflexivity |]. cbn [move_left].
      specialize (Hhd y eq_refl). apply Forall_cons_iff in Hhd. destruct Hhd as [Hyx _].
      unfold seed_le in Hyx. now rewrite Hyx. }
    rewrite E, IH; [now rewrite <- app_assoc | exact Hs |].
    intros y [= <-]. exact Hx.
Qed.

Lemma Sort_sorted_id (s : list complex128) : StronglySorted seed_le s -> Sort s = s.
Proof.
  intros Hs. unfold Sort. rewrite fold_move_left_sorted; auto.
  - now rewrite app_nil_r, rev_involutive.
  - intros y H. discriminate H.
Qed.

(** Stability *)
Lemma move_left_filter_tied (a x : complex128) (r : list complex128) :
  no_nan a -> no_nan x -> Forall no_nan r ->
  List.filter (tied a) (move_left x r) = List.filter (tied a) (x :: r).
Proof.
  intros Ha Hx. induction r as [| y r IH]; intros Hr; cbn [move_left]; [reflexivity |].
  apply Forall_cons_iff in Hr. destruct Hr as [Hy Hr].
  destruct (less x y) eqn:E; [| reflexivity].
  cbn [List.filter]. rewrite (IH Hr). cbn [List.filter].
  destruct (tied a x) eqn:Tx, (tied a y) eqn:Ty; try reflexivity.
  rewrite (tied_less a x y Ha Hx Hy Tx Ty) in E. discriminate.
Qed.

Lemma fold_move_left_filter_tied (a : complex128) (s acc : list complex128) :
  no_nan a -> Forall no_nan s -> Forall no_nan acc ->
  List.filter (tied a) (fold_left (fun sorted_rev x => move_left x sorted_rev) s acc) =
  List.filter (tied a) (rev s ++ acc).
Proof.
  intros Ha. revert acc. induction s as [| x s IH]; intros acc Hs Hacc;
    cbn [fold_left rev]; [reflexivity |].
  apply Forall_cons_iff in Hs. destruct Hs as [Hx Hs].
  rewrite IH by auto using move_left_no_nan.
  rewrite <- app_assoc, !List.filter_app, move_left_filter_tied by assumption.
  cbn [List.filter app]. destruct (tied a x); reflexivity.
Qed.

Lemma Sort_stable (a : complex128) (s : list complex128) :
  no_nan a -> Forall no_nan s ->
  List.filter (tied a) (Sort s) = List.filter (tied a) s.
Proof.
  intros Ha Hs. unfold Sort.
  rewrite List.filter_rev, fold_move_left_filter_tied by auto.
  now rewrite app_nil_r, List.filter_rev, rev_involutive.
Qed.

Lemma is_point_no_nan (c : complex128) : is_point c -> no_nan c.
Proof. intros [Hr Hi]. split; apply fin_not_nan; assumption. Qed.

Lemma StronglySorted_impl {A : Type} (R R' : A -> A -> Prop) (P : A -> Prop)
  (l : list A) :
  (forall a b, P a -> P b -> R a b -> R' a b) ->
  Forall P l -> StronglySorted R l -> StronglySorted R' l.
Proof.
  intros HR HP Hs. induction Hs as [| x l Hs IH Hx]; [constructor |].
  apply Forall_cons_iff in HP. destruct HP as [Px Pl].
  constructor; [apply IH; exact Pl |].
  rewrite List.Forall_forall in Hx, Pl |- *. intros y Hy. apply HR; auto.
Qed.

Lemma tied_refl (a : complex128) : no_nan a -> tied a a = true.
Proof.
  intros Ha. unfold tied.
  destruct (less a a) eqn:E; [| reflexivity].
  apply less_clt in E; auto. now apply clt_irrefl in E.
Qed.

(** A stable sort has only one result: two sorted lists with the same
    seeds, in which tied seeds come in the same order, are equal.  So
    [Sort] is what any implementation of [sort.SliceStable] returns on
    seeds that are numbers. *)
Lemma stable_sort_unique (l1 l2 : list complex128) :
  Forall no_nan l1 ->
  Permutation l1 l2 ->
  StronglySorted seed_le l1 -> StronglySorted seed_le l2 ->
  (forall a, no_nan a -> List.filter (tied a) l1 = List.filter (tied a) l2) ->
  l1 = l2.
Proof.
  revert l2. induction l1 as [| x l1 IH]; intros l2 Hn Hp Hs1 Hs2 Hst.
  - now apply Permutation_nil in Hp.
  - destruct l2 as [| y l2]; [symmetry in Hp; now apply Permutation_nil in Hp |].
    apply Forall_cons_iff in Hn. destruct Hn as [Hx Hn].
    assert (Hy : no_nan y).
    { assert (Hall : Forall no_nan (y :: l2))
        by (eapply Permutation_Forall; [exact Hp | constructor; assumption]).
      now apply Forall_cons_iff in Hall. }
    apply StronglySorted_inv in Hs1. destruct Hs1 as [Hs1 Hx1].
    apply StronglySorted_inv in Hs2. destruct Hs2 as [Hs2 Hy2].
    assert (Hxy : seed_le x y).
    { assert (Hin : In y (x :: l1))
        by (eapply Permutation_in; [symmetry; exact Hp | left; reflexivity]).
      destruct Hin as [-> | Hin].
      - unfold seed_le. pose proof (tied_refl y Hy) as T. unfold tied in T.
        apply andb_true_iff in T. destruct T as [T _]. now apply negb_true_iff in T.
      - rewrite List.Forall_forall in Hx1. now apply Hx1. }
    assert (Hyx : seed_le y x).
    { assert (Hin : In x (y :: l2))
        by (eapply Permutation_in; [exact Hp | left; reflexivity]).
      destruct Hin as [-> | Hin].
      - exact Hxy.
      - rewrite List.Forall_forall in Hy2. now apply Hy2. }
    assert (Txy : tied x y = true).
    { unfold tied, seed_le in *. now rewrite Hxy, Hyx. }
    assert (E : x = y).
    { pose proof (Hst x Hx) as H. cbn [List.filter] in H.
      rewrite (tied_refl x Hx), Txy in H. now injection H. }
    subst y. f_equal. apply IH; auto.
    + eapply Permutation_cons_inv. exact Hp.
    + intros a Ha. pose proof (Hst a Ha) as H. cbn [List.filter] in H.
      destruct (tied a x); [now injection H | exact H].
Qed.

(** ** The exits of the escape evaluation *)

Section ExitFacts.

Variable math_Round : float -> float.
Variable int_of_float64 : float -> Z.

Local Abbreviation check := (Check math_Round int_of_float64).
Local Abbreviation body := (IterateZ_body math_Round int_of_float64).
Local Abbreviation loop := (IterateZ_loop math_Round int_of_float64).
Local Abbreviation iterateZ := (IterateZ math_Round int_of_float64).






End ExitFacts.

(** * The claims *)

Section Claims.

Variable math_Round : float -> float.
Variable int_of_float64 : float -> Z.
Variable cmplx_Abs : complex128 -> float.
Variable md5_Sum : list Byte.byte -> list Byte.byte.

Local Abbreviation mark := (Mark math_Round int_of_float64).
Local Abbreviation check := (Check math_Round int_of_float64).
Local Abbreviation col := (cell_x math_Round int_of_float64).
Local Abbreviation row := (cell_y math_Round int_of_float64).
Local Abbreviation cell := (cell_index math_Round int_of_float64).
Local Abbreviation iterateZ := (IterateZ math_Round int_of_float64).
Local Abbreviation iterateZDone := (IterateZDone math_Round int_of_float64).
Local Abbreviation generateGuidemap :=
  (GenerateGuidemap math_Round int_of_float64 cmplx_Abs).
Local Abbreviation acceptedBy := (accepted math_Round int_of_float64).
Local Abbreviation mine := (Mine math_Round int_of_float64 cmplx_Abs).
Local Abbreviation main_ := (main md5_Sum math_Round int_of_float64 cmplx_Abs).

(** C1 (soundness of acceptance).  On a valid configuration, every seed
    of the seedpack [Mine] returns has its plain escape time (iterate
    [z = z*z + c] from [0] until [|z|^2 > 4] or [max + 2] iterations, no
    cycle detection, no guidemap) in [[min, max]]: the shortcuts never
    make [Mine] accept a point the plain iteration would refuse. *)
Theorem Mine_accepts_only_plain_depths (howmany min max : Z) (probes : nat)
  (rnd rnd' : list float) (seeds : list complex128) (realmin realmax : Z) :
  valid_config howmany min max ->
  mine howmany min max probes rnd = (Ok (seeds, realmin, realmax), rnd') ->
  Forall (fun c => min <= plain_escape c max <= max) seeds.
Proof.
  intros Hcfg Hrun.
  pose proof (Mine_spec math_Round int_of_float64 cmplx_Abs howmany min max probes rnd Hcfg)
    as Hspec.
  rewrite Hrun in Hspec.
  destruct Hspec as (g0 & rnd1 & consumed & cs & c_last & _ & _ & _ & _ & _ & -> & _).
  destruct Hcfg as [_ Hmin Hmax].
  apply accepted_sound; lia.
Qed.


(** C4.  For every candidate and every ceiling [max] the evaluation can
    be given (an int from [-1] on; [Mine] passes [max >= 2]), one escape
    evaluation ends after at least one and at most [max + 2] applications
    of the recurrence [z = z*z + c], however it ends. *)
Theorem IterateZ_at_most_max_plus_2 (g : Guidemap) (c : complex128) (max : Z) :
  Guidemap_wf g -> -1 <= max <= int_max ->
  exists (i : Z) (k : nat),
    iterateZ g c max = Ok (i, k) /\ (1 <= k)%nat /\ Z.of_nat k <= max + 2.
Proof. apply IterateZ_at_most. Qed.

(** C5.  On a valid configuration [Mine] never panics.  When it returns,
    the seedpack has exactly [howmany] seeds; they are the candidates
    accepted, in the order of their acceptance, among the candidates
    drawn; and the last candidate drawn is the one that filled the last
    slot: the loop ends when, and only when, [howmany] seeds are found.
    When the random source runs dry first, it held fewer than [howmany]
    acceptable candidates. *)
Theorem Mine_fills_the_seedpack (howmany min max : Z) (probes : nat)
  (rnd : list float) :
  valid_config howmany min max ->
  match mine howmany min max probes rnd with
  | (Ok (seeds, realmin, realmax), rnd') =>
      Z.of_nat (length seeds) = howmany /\
      exists g0 rnd1 consumed cs c_last,
        generateGuidemap 51 probes rnd = (Ok g0, rnd1) /\
        rnd1 = consumed ++ rnd' /\
        candidates consumed = cs ++ [c_last] /\
        seeds = acceptedBy min max g0 (candidates consumed) /\
        seeds = acceptedBy min max g0 cs ++ [c_last]
  | (Starved, _) =>
      fst (generateGuidemap 51 probes rnd) = Starved \/
      exists g0 rnd1,
        generateGuidemap 51 probes rnd = (Ok g0, rnd1) /\
        Z.of_nat (length (acceptedBy min max g0 (candidates rnd1))) < howmany
  | _ => False
  end.
Proof.
  intros Hcfg.
  pose proof (Mine_spec math_Round int_of_float64 cmplx_Abs howmany min max probes rnd Hcfg)
    as Hspec.
  destruct (mine howmany min max probes rnd) as [[[[seeds realmin] realmax] | | |] rnd'];
    auto.
  destruct Hspec as (g0 & rnd1 & consumed & cs & c_last & Eg & _ & -> & Ecs & El & -> & Elen).
  split; [exact Elen |].
  exists g0, (consumed ++ rnd'), consumed, cs, c_last.
  rewrite Ecs. auto.
Qed.

(** C8.  A configuration with [howmany < 1], [max < min] or [min < 2]
    makes [Mine] panic at once: the random source is returned untouched
    (no candidate was drawn, no probe of the guidemap either), and [main]
    panics with it, so no file is made.  A valid configuration never makes
    [Mine] panic. *)
Theorem Mine_configuration_errors (howmany min max : Z) (probes : nat)
  (rnd : list float) :
  (howmany < 1 \/ max < min \/ min < 2 ->
   exists msg,
     mine howmany min max probes rnd = (Panic msg, rnd) /\
     main_ howmany min max probes rnd = (Panic msg, rnd)) /\
  (valid_config howmany min max ->
   forall msg, fst (mine howmany min max probes rnd) <> Panic msg).
Proof.
  split.
  - intros Hbad. unfold main, Mine.
    destruct (howmany <? 1) eqn:E1; [eauto |]. apply Z.ltb_ge in E1.
    destruct (max <? min) eqn:E2; [eauto |]. apply Z.ltb_ge in E2.
    destruct (min <? 2) eqn:E3; [eauto |]. apply Z.ltb_ge in E3. lia.
  - intros Hcfg msg.
    pose proof (Mine_spec math_Round int_of_float64 cmplx_Abs howmany min max probes rnd Hcfg)
      as Hspec.
    destruct (mine howmany min max probes rnd) as [[[[seeds realmin] realmax] | | |] rnd'];
      cbn; try discriminate. contradiction.
Qed.

(** C9.  In a guidemap of at least one cell in each direction, for every
    point [c] (inside the domain or not, a number or not) the column and
    the row [Mark] and [Check] compute are the rounded normalized
    coordinates saturated into [[0, width-1]] and [[0, height-1]]; the
    index [row * width + column] is within the grid, [Mark] writes there
    and [Check] reads there: neither makes an access out of range. *)
Theorem Guidemap_access_in_bounds (this : Guidemap) (c : complex128) :
  Guidemap_wf this ->
  0 <= col this c <= itsWidth this - 1 /\
  0 <= row this c <= itsHeight this - 1 /\
  0 <= cell this c < Z.of_nat (length (itsData this)) /\
  mark this c =
    Ok (set_itsData this (<[Z.to_nat (cell this c) := true]> (itsData this))) /\
  exists b : bool,
    itsData this !! Z.to_nat (cell this c) = Some b /\ check this c = Ok b.
Proof.
  intros Hwf.
  destruct (cell_index_range math_Round int_of_float64 this c Hwf) as (Hx & Hy & Hi).
  repeat split; try lia.
  - apply Mark_cell. exact Hwf.
  - apply Check_cell. exact Hwf.
Qed.

(** C10.  In such a guidemap, [Check c] is true right after [Mark c]:
    both map [c] to the same cell. *)
Theorem Check_after_Mark (this : Guidemap) (c : complex128) :
  Guidemap_wf this ->
  exists this', mark this c = Ok this' /\ check this' c = Ok true.
Proof.
  intros Hwf. eexists. split; [apply Mark_cell; exact Hwf |].
  assert (Hwf' : Guidemap_wf
            (set_itsData this (<[Z.to_nat (cell this c) := true]> (itsData this)))).
  { eapply Mark_wf; [exact Hwf | apply Mark_cell; exact Hwf]. }
  destruct (Check_cell math_Round int_of_float64 _ c Hwf') as (b & Hb & ->).
  change (cell (set_itsData this (<[Z.to_nat (cell this c) := true]> (itsData this))) c)
    with (cell this c) in Hb.
  cbn [itsData set_itsData] in Hb.
  destruct (cell_index_range math_Round int_of_float64 this c Hwf) as (_ & _ & Hi).
  rewrite list_lookup_insert_eq in Hb by lia.
  congruence.
Qed.

(** The seeds [Mine] returns are finite points, whatever the random
    source holds: [Sort] and the serialization only ever see numbers. *)
Lemma Mine_seeds_are_points (howmany min max : Z) (probes : nat)
  (rnd rnd' : list float) (seeds : list complex128) (realmin realmax : Z) :
  valid_config howmany min max ->
  mine howmany min max probes rnd = (Ok (seeds, realmin, realmax), rnd') ->
  Forall is_point seeds.
Proof.
  intros Hcfg Hrun.
  pose proof (Mine_spec math_Round int_of_float64 cmplx_Abs howmany min max probes rnd Hcfg)
    as Hspec.
  rewrite Hrun in Hspec.
  destruct Hspec as (g0 & rnd1 & consumed & cs & c_last & _ & _ & _ & _ & _ & -> & _).
  destruct Hcfg as [_ Hmin _]. now apply accepted_points.
Qed.

(** C3, as the code has it.  The header literal has 32 bytes, not 33.
    The file [SaveEMSFile] writes is the 32-byte header
    ["@DM.EMS{codex.apeirography.art} "] followed at once by the payload:
    for each seed in sorted order, its real part then its imaginary part,
    each as the 8 bytes, least significant first, of its IEEE-754
    binary64 encoding.  The MD5 digest is taken of the payload alone. *)
Theorem SaveEMSFile_layout (seeds : list complex128) (min max : Z) :
  let file := SaveEMSFile md5_Sum seeds min max in
  let payload :=
    flat_map (fun c => PutUint64 (Float64bits (real c)) ++
                       PutUint64 (Float64bits (imag c))) (Sort seeds) in
  header = list_byte_of_string "@DM.EMS{codex.apeirography.art} " /\
  length header = 32%nat /\
  ems_bytes file = header ++ payload /\
  length payload = (16 * length (Sort seeds))%nat /\
  ems_md5 file = md5_Sum payload.
Proof.
  cbv zeta. unfold SaveEMSFile. cbn [ems_bytes ems_md5].
  rewrite !fold_left_write. cbn [app].
  fold Write_complex128. change (fun c => Write_complex128 c) with Write_complex128.
  repeat split; auto using flat_map_Write_length.
Qed.

(** C7, as the code has it.  Skipping the 32 bytes of the header and
    reading the rest as successive pairs of little-endian binary64 gives
    back the sorted seeds, float for float. *)
Theorem Decode_SaveEMSFile (seeds : list complex128) (min max : Z) :
  Decode (skipn 32 (ems_bytes (SaveEMSFile md5_Sum seeds min max))) = Sort seeds.
Proof. rewrite SaveEMSFile_bytes. apply Decode_after_header. Qed.

End Claims.


(** The two ways an evaluation is cut short, on runs: the orbit of
    [c = 0] is back at the origin at pass 2, where the cycle detection
    fires; a candidate of depth 202 in an unmarked cell is pruned at pass
    104, the first that reads the guidemap.  Both runs answer [-1]. *)
Remark cut_short_examples :
  cut_short (Check GoLib.Round GoLib.int_of_float64 example_guidemap czero) czero 2 /\
  IterateZ GoLib.Round GoLib.int_of_float64 example_guidemap czero 50
    = Ok (-1, 3%nat) /\
  cut_short (Check GoLib.Round GoLib.int_of_float64 example_guidemap example_deep)
            example_deep 104 /\
  IterateZ GoLib.Round GoLib.int_of_float64 example_guidemap example_deep 300
    = Ok (-1, 105%nat).
Proof.
  split; [| split; [vm_compute; reflexivity | split; [| vm_compute; reflexivity]]].
  - split; [vm_compute; reflexivity | left; vm_compute; reflexivity].
  - split; [vm_compute; reflexivity |]. right.
    split; [vm_compute; reflexivity |].
    split; [vm_compute; discriminate | vm_compute; reflexivity].
Qed.

(** C3, as the claim states it, fails: the file of an empty seedpack has
    32 bytes, so it is not a 33-byte header followed by the payload. *)
Lemma header_is_not_33_bytes :
  length header <> 33%nat /\
  ~ exists h : list Byte.byte,
      length h = 33%nat /\
      ems_bytes (SaveEMSFile (fun _ => []) [] 0 0) =
        h ++ flat_map Write_complex128 (Sort []).
Proof.
  split; [vm_compute; discriminate |].
  intros (h & Hl & E). apply (f_equal (@length _)) in E.
  rewrite length_app, Hl in E. vm_compute in E. discriminate.
Qed.

(** C7, as the claim states it, fails: after 33 bytes the reader is one
    byte into the payload of the five [example_seeds] and finds four
    records, not five. *)
Lemma skipping_33_bytes_loses_a_seed :
  Decode (skipn 33 (ems_bytes (SaveEMSFile (fun _ => []) example_seeds 0 0)))
    <> Sort example_seeds.
Proof.
  intros E. apply (f_equal (@length _)) in E. vm_compute in E. discriminate.
Qed.

(** C6.  For every seedpack whose seeds are numbers (no part is a NaN, as
    for every seed [Mine] draws), [Sort] returns the same seeds in
    non-decreasing order of real part and, among equal real parts, of
    imaginary part; seeds that compare equal keep the order they had; and
    sorting again changes nothing. *)
Theorem Sort_sorts_stably_and_idempotently (s : list complex128) :
  Forall no_nan s ->
  StronglySorted seed_ordered (Sort s) /\
  Permutation (Sort s) s /\
  (forall a, no_nan a -> List.filter (tied a) (Sort s) = List.filter (tied a) s) /\
  Sort (Sort s) = Sort s.
Proof.
  intros Hs. pose proof (Sort_sorted s Hs) as Hsorted. repeat split.
  - eapply StronglySorted_impl; [| apply Sort_no_nan; exact Hs | exact Hsorted].
    intros a b. apply seed_le_ordered.
  - apply Sort_perm. exact Hs.
  - intros a Ha. apply Sort_stable; assumption.
  - apply Sort_sorted_id. exact Hsorted.
Qed.

(** X14.  On a valid configuration, the file [main] writes holds
    [howmany] seeds in non-decreasing order, after a header of 32 bytes:
    it has [32 + 16 * howmany] bytes. *)
Theorem main_artifact_sorted (md5_Sum : list Byte.byte -> list Byte.byte)
  (math_Round : float -> float) (int_of_float64 : float -> Z)
  (cmplx_Abs : complex128 -> float) (howmany min max : Z) (probes : nat)
  (rnd rnd' : list float) (file : emsfile) :
  valid_config howmany min max ->
  main md5_Sum math_Round int_of_float64 cmplx_Abs howmany min max probes rnd
    = (Ok file, rnd') ->
  StronglySorted seed_ordered (Decode (skipn 32 (ems_bytes file))) /\
  Z.of_nat (length (Decode (skipn 32 (ems_bytes file)))) = howmany /\
  Z.of_nat (length (ems_bytes file)) = 32 + 16 * howmany.
Proof.
  intros Hcfg Hrun. unfold main in Hrun.
  pose proof (Mine_spec math_Round int_of_float64 cmplx_Abs howmany min max probes rnd Hcfg)
    as Hspec.
  pose proof (Mine_seeds_are_points math_Round int_of_float64 cmplx_Abs
                howmany min max probes rnd) as Hpts.
  destruct (Mine math_Round int_of_float64 cmplx_Abs howmany min max probes rnd)
    as [[[[seeds realmin] realmax] | | |] rnd1]; try discriminate.
  injection Hrun as <- <-.
  specialize (Hpts rnd1 seeds realmin realmax Hcfg eq_refl).
  assert (Hnn : Forall no_nan seeds)
    by (eapply List.Forall_impl; [| exact Hpts]; apply is_point_no_nan).
  destruct Hspec as (g0 & rnd2 & consumed & cs & c_last & _ & _ & _ & _ & _ & _ & Hlen).
  rewrite SaveEMSFile_bytes, Decode_after_header. split; [| split].
  - eapply StronglySorted_impl; [| apply Sort_no_nan; exact Hnn | apply Sort_sorted; exact Hnn].
    intros a b. apply seed_le_ordered.
  - rewrite (Permutation_length (Sort_perm seeds Hnn)). exact Hlen.
  - rewrite length_app, flat_map_Write_length, (Permutation_length (Sort_perm seeds Hnn)).
    change (length header) with 32%nat. lia.
Qed.

(** With a NaN among the seeds the comparison is no order, and the
    insertion leaves [1] before [0]. *)
Remark Sort_with_a_nan :
  Sort [Complex 1 0; Complex nan 0; Complex 0 0]
  = [Complex 1 0; Complex nan 0; Complex 0 0].
Proof. reflexivity. Qed.

(** The four corners of the domain fall in the four corner cells, and a
    NaN saturates like any other value. *)
Remark corner_cells :
  map (cell_index GoLib.Round GoLib.int_of_float64 example_guidemap)
      [Complex (-2) (-2); Complex 2 (-2); Complex (-2) 2; Complex 2 2;
       Complex nan infinity]
  = [0; 50; 2550; 2600; 0].
Proof. vm_compute. reflexivity. Qed.

(** The run of the configuration [{min = 2, max = 4, howmany = 5}] on
    [example_rnd]: the file has the 32 bytes of the header and 5 times 16
    bytes, and reads back as the five seeds in order. *)
Remark example_artifact :
  match main (fun _ => []) GoLib.Round GoLib.int_of_float64 GoLib.Abs
             5 2 4 1 example_rnd with
  | (Ok file, _) =>
      firstn 32 (ems_bytes file) = header /\
      length (ems_bytes file) = 112%nat /\
      Decode (skipn 32 (ems_bytes file)) =
        [Complex (-1.5) 0.5; Complex (-0.5) 1; Complex 1 0; Complex 1 1;
         Complex 1.5 0.5] /\
      (ems_min file, ems_max file) = (2, 4)
  | _ => False
  end.
Proof. vm_compute. auto. Qed.

(** Known encodings: [1], [-2], the least subnormal, [+inf], [-0]; and
    the bytes of [1], least significant first. *)
Remark Float64bits_examples :
  map Float64bits [1; -2; 0x1p-1074; infinity; -0]%float
  = [0x3FF0000000000000; 0xC000000000000000; 1; 0x7FF0000000000000;
     0x8000000000000000] /\
  map Z_of_byte (PutUint64 (Float64bits 1)) = [0; 0; 0; 0; 0; 0; 0xF0; 0x3F].
Proof. split; vm_compute; reflexivity. Qed.

(** ** The theorems at concrete inputs *)

Lemma example_guidemap_wf : Guidemap_wf example_guidemap.
Proof. constructor; vm_compute; congruence. Defined.

Lemma example_config_valid : valid_config 5 2 4.
Proof. constructor; unfold int_max; lia. Defined.

Lemma example_seeds_no_nan : Forall no_nan example_seeds.
Proof.
  repeat constructor; unfold is_number, not_nan; vm_compute; discriminate.
Defined.

Lemma Mine_accepts_only_plain_depths_witness :
  valid_config 5 2 4 /\
  Mine GoLib.Round GoLib.int_of_float64 GoLib.Abs 5 2 4 1 example_rnd
    = (Ok (example_mined, 2, 4), [0.125; 0.625]%float) /\
  Forall (fun c => 2 <= plain_escape c 4 <= 4) example_mined.
Proof.
  assert (E : Mine GoLib.Round GoLib.int_of_float64 GoLib.Abs 5 2 4 1 example_rnd
              = (Ok (example_mined, 2, 4), [0.125; 0.625]%float))
    by (vm_compute; reflexivity).
  split; [exact example_config_valid | split; [exact E |]].
  exact (Mine_accepts_only_plain_depths GoLib.Round GoLib.int_of_float64 GoLib.Abs
           5 2 4 1 example_rnd [0.125; 0.625]%float example_mined 2 4
           example_config_valid E).
Defined.


Lemma IterateZ_at_most_max_plus_2_witness :
  Guidemap_wf example_guidemap /\ -1 <= 1000 <= int_max /\
  exists (i : Z) (k : nat),
    IterateZ GoLib.Round GoLib.int_of_float64 example_guidemap example_outside 1000
      = Ok (i, k) /\ (1 <= k)%nat /\ Z.of_nat k <= 1000 + 2.
Proof.
  assert (H : -1 <= 1000 <= int_max) by (unfold int_max; lia).
  split; [exact example_guidemap_wf | split; [exact H |]].
  exact (IterateZ_at_most_max_plus_2 GoLib.Round GoLib.int_of_float64
           example_guidemap example_outside 1000 example_guidemap_wf H).
Defined.

Lemma Mine_fills_the_seedpack_witness :
  valid_config 5 2 4 /\
  exists seeds realmin realmax rnd',
    Mine GoLib.Round GoLib.int_of_float64 GoLib.Abs 5 2 4 1 example_rnd
      = (Ok (seeds, realmin, realmax), rnd') /\
    Z.of_nat (length seeds) = 5.
Proof.
  split; [exact example_config_valid |].
  pose proof (Mine_fills_the_seedpack GoLib.Round GoLib.int_of_float64 GoLib.Abs
                5 2 4 1 example_rnd example_config_valid) as T.
  destruct (Mine GoLib.Round GoLib.int_of_float64 GoLib.Abs 5 2 4 1 example_rnd)
    as [[[[seeds realmin] realmax] | | |] rnd'] eqn:E;
    try (vm_compute in E; discriminate E).
  destruct T as [Hlen _]. exists seeds, realmin, realmax, rnd'. auto.
Defined.

Lemma Mine_configuration_errors_witness :
  (0 < 1 \/ 4 < 2 \/ 2 < 2) /\
  exists msg,
    Mine GoLib.Round GoLib.int_of_float64 GoLib.Abs 0 2 4 1 example_rnd
      = (Panic msg, example_rnd) /\
    main (fun _ => []) GoLib.Round GoLib.int_of_float64 GoLib.Abs 0 2 4 1 example_rnd
      = (Panic msg, example_rnd).
Proof.
  assert (H : 0 < 1 \/ 4 < 2 \/ 2 < 2) by (left; lia).
  split; [exact H |].
  exact (proj1 (Mine_configuration_errors GoLib.Round GoLib.int_of_float64 GoLib.Abs
                  (fun _ => []) 0 2 4 1 example_rnd) H).
Defined.

Lemma Guidemap_access_in_bounds_witness :
  Guidemap_wf example_guidemap /\
  0 <= cell_index GoLib.Round GoLib.int_of_float64 example_guidemap example_outside
    < 2601.
Proof.
  split; [exact example_guidemap_wf |].
  exact (proj1 (proj2 (proj2
    (Guidemap_access_in_bounds GoLib.Round GoLib.int_of_float64
       example_guidemap example_outside example_guidemap_wf)))).
Defined.

Lemma Check_after_Mark_witness :
  Guidemap_wf example_guidemap /\
  exists this',
    Mark GoLib.Round GoLib.int_of_float64 example_guidemap example_outside = Ok this' /\
    Check GoLib.Round GoLib.int_of_float64 this' example_outside = Ok true.
Proof.
  split; [exact example_guidemap_wf |].
  exact (Check_after_Mark GoLib.Round GoLib.int_of_float64
           example_guidemap example_outside example_guidemap_wf).
Defined.

Lemma Sort_sorts_stably_and_idempotently_witness :
  Forall no_nan example_seeds /\
  Sort (Sort example_seeds) = Sort example_seeds.
Proof.
  split; [exact example_seeds_no_nan |].
  exact (proj2 (proj2 (proj2
    (Sort_sorts_stably_and_idempotently example_seeds example_seeds_no_nan)))).
Defined.

(** * Further properties of the code *)

(** ** Guidemap: how [Mark] and [Check] compose *)

Section GuidemapAlgebra.

Variable math_Round : float -> float.
Variable int_of_float64 : float -> Z.

Local Abbreviation mark := (Mark math_Round int_of_float64).
Local Abbreviation check := (Check math_Round int_of_float64).
Local Abbreviation cell := (cell_index math_Round int_of_float64).

(** The cell of a point depends on the geometry of the map only. *)
Lemma cell_index_set_itsData (this : Guidemap) (d : list bool) (c : complex128) :
  cell (set_itsData this d) c = cell this c.
Proof. reflexivity. Qed.

Lemma Check_lookup (this : Guidemap) (c : complex128) (b : bool) :
  Guidemap_wf this ->
  (check this c = Ok b <-> itsData this !! Z.to_nat (cell this c) = Some b).
Proof.
  intros Hwf. destruct (Check_cell math_Round int_of_float64 this c Hwf) as (b' & Hb & E).
  rewrite E, Hb. split; congruence.
Qed.

Lemma Mark_inv (this this' : Guidemap) (c : complex128) :
  Guidemap_wf this -> mark this c = Ok this' ->
  this' = set_itsData this (<[Z.to_nat (cell this c) := true]> (itsData this)).
Proof. intros Hwf H. rewrite Mark_cell in H by assumption. congruence. Qed.

(** X1.  [Mark] is idempotent: marking a point a second time leaves the
    guidemap as the first marking made it. *)
Theorem Mark_idempotent (this this' : Guidemap) (c : complex128) :
  Guidemap_wf this -> mark this c = Ok this' -> mark this' c = Ok this'.
Proof.
  intros Hwf H.
  destruct (Mark_wf math_Round int_of_float64 this this' c Hwf H) as (Hwf' & _ & _).
  rewrite (Mark_cell math_Round int_of_float64 this' c Hwf').
  apply Mark_inv in H; [| exact Hwf]. subst this'.
  rewrite cell_index_set_itsData. cbn [itsData set_itsData].
  rewrite list_insert_insert_eq. reflexivity.
Qed.

(** X2.  [Mark] sets one cell and touches nothing else: after [Mark c],
    [Check p] answers true exactly when it did before or [p] falls in the
    cell of [c]; the shape of the grid is unchanged.  So a cell once
    marked stays marked. *)
Theorem Check_after_Mark_of_another (this this' : Guidemap) (c p : complex128)
  (b : bool) :
  Guidemap_wf this -> mark this c = Ok this' -> check this p = Ok b ->
  check this' p = Ok (b || (cell this p =? cell this c)) /\
  itsWidth this' = itsWidth this /\ itsHeight this' = itsHeight this /\
  length (itsData this') = length (itsData this).
Proof.
  intros Hwf HM HC.
  destruct (Mark_wf math_Round int_of_float64 this this' c Hwf HM) as (Hwf' & Hw & Hh).
  apply Mark_inv in HM; [| exact Hwf]. subst this'.
  split; [| cbn; rewrite length_insert; auto].
  apply (Check_lookup _ _ _ Hwf'). apply (Check_lookup _ _ _ Hwf) in HC.
  rewrite cell_index_set_itsData. cbn [itsData set_itsData].
  destruct (cell_index_range math_Round int_of_float64 this c Hwf) as (_ & _ & Hc).
  destruct (cell_index_range math_Round int_of_float64 this p Hwf) as (_ & _ & Hp).
  destruct (cell this p =? cell this c) eqn:E.
  - apply Z.eqb_eq in E. rewrite E, orb_true_r.
    apply list_lookup_insert_eq. lia.
  - apply Z.eqb_neq in E. rewrite orb_false_r.
    rewrite list_lookup_insert_ne by lia. exact HC.
Qed.

(** X3.  Two markings commute: marking [c1] then [c2] gives the guidemap
    that marking [c2] then [c1] gives. *)
Theorem Mark_commute (this g1 g12 : Guidemap) (c1 c2 : complex128) :
  Guidemap_wf this -> mark this c1 = Ok g1 -> mark g1 c2 = Ok g12 ->
  exists g2, mark this c2 = Ok g2 /\ mark g2 c1 = Ok g12.
Proof.
  intros Hwf H1 H2.
  destruct (Mark_wf math_Round int_of_float64 this g1 c1 Hwf H1) as (Hwf1 & _ & _).
  apply Mark_inv in H1; [| exact Hwf]. subst g1.
  apply Mark_inv in H2; [| exact Hwf1]. subst g12.
  eexists. split; [apply Mark_cell; exact Hwf |].
  assert (Hwf2 : Guidemap_wf
            (set_itsData this (<[Z.to_nat (cell this c2) := true]> (itsData this)))).
  { eapply Mark_wf; [exact Hwf | apply Mark_cell; exact Hwf]. }
  rewrite (Mark_cell math_Round int_of_float64 _ c1 Hwf2).
  rewrite !cell_index_set_itsData. cbn [itsData set_itsData]. unfold set_itsData.
  cbn [itsWidth itsHeight itsMinR itsMaxR itsMinI itsMaxI itsDelR itsDelI].
  do 2 f_equal.
  destruct (Z.eq_dec (cell this c1) (cell this c2)) as [E | E].
  - rewrite E. reflexivity.
  - apply list_insert_insert_ne. intros H. apply E.
    destruct (cell_index_range math_Round int_of_float64 this c1 Hwf) as (_ & _ & ?).
    destruct (cell_index_range math_Round int_of_float64 this c2 Hwf) as (_ & _ & ?).
    lia.
Qed.

End GuidemapAlgebra.

(** ** Floats: what [==] identifies *)

Lemma SFeqb_feq (x y : spec_float) : SFeqb x y = true -> feq x y.
Proof.
  intros H.
  assert (Hx : not_nan x) by (intros ->; discriminate H).
  assert (Hy : not_nan y) by (intros ->; destruct x; discriminate H).
  apply (SFeqb_key x y Hx Hy) in H.
  destruct x as [[] | [] | | [] mx ex], y as [[] | [] | | [] my ey];
    cbn in H; try discriminate H; try (left; reflexivity); try (right; exact I);
    try (exfalso; apply Hx; reflexivity); try (exfalso; apply Hy; reflexivity);
    left; f_equal; injection H; intros; lia.
Qed.

Lemma feq_refl (x : spec_float) : feq x x.
Proof. left; reflexivity. Qed.

Lemma feq_mul (x x' y y' : spec_float) :
  feq x x' -> feq y y' -> feq (SFmul prec emax x y) (SFmul prec emax x' y').
Proof.
  intros [-> | Hx] [-> | Hy]; [left; reflexivity | | |].
  - destruct y, y'; try contradiction. destruct x'; cbn; auto using feq_refl; right; exact I.
  - destruct x, x'; try contradiction. destruct y'; cbn; auto using feq_refl; right; exact I.
  - destruct x, x', y, y'; try contradiction. right; exact I.
Qed.

Lemma feq_add (x x' y y' : spec_float) :
  feq x x' -> feq y y' -> feq (SFadd prec emax x y) (SFadd prec emax x' y').
Proof.
  intros [-> | Hx] [-> | Hy]; [left; reflexivity | | |].
  - destruct y as [sy | | |], y' as [sy' | | |]; try contradiction.
    destruct x' as [[] | | |]; destruct sy, sy'; cbn; auto using feq_refl; right; exact I.
  - destruct x as [sx | | |], x' as [sx' | | |]; try contradiction.
    destruct y' as [[] | | |]; destruct sx, sx'; cbn; auto using feq_refl; right; exact I.
  - destruct x as [[] | | |], x' as [[] | | |], y as [[] | | |], y' as [[] | | |];
      try contradiction; right; exact I.
Qed.

Lemma feq_sub (x x' y y' : spec_float) :
  feq x x' -> feq y y' -> feq (SFsub prec emax x y) (SFsub prec emax x' y').
Proof.
  intros [-> | Hx] [-> | Hy]; [left; reflexivity | | |].
  - destruct y as [sy | | |], y' as [sy' | | |]; try contradiction.
    destruct x' as [[] | | |]; destruct sy, sy'; cbn; auto using feq_refl; right; exact I.
  - destruct x as [sx | | |], x' as [sx' | | |]; try contradiction.
    destruct y' as [[] | | |]; destruct sx, sx'; cbn; auto using feq_refl; right; exact I.
  - destruct x as [[] | | |], x' as [[] | | |], y as [[] | | |], y' as [[] | | |];
      try contradiction; right; exact I.
Qed.

Lemma feq_leb (x x' y : spec_float) : feq x x' -> SFleb x y = SFleb x' y.
Proof.
  intros [-> | Hx]; [reflexivity |].
  destruct x, x'; try contradiction. reflexivity.
Qed.

Lemma ceqb_ceq (a b : complex128) : ceqb a b = true -> ceq a b.
Proof.
  unfold ceqb. intros H. apply andb_true_iff in H. destruct H as [Hr Hi].
  rewrite FloatAxioms.eqb_spec in Hr, Hi. split; apply SFeqb_feq; assumption.
Qed.

Lemma ceq_step (c z z' : complex128) :
  ceq z z' -> ceq (cadd (cmul z z) c) (cadd (cmul z' z') c).
Proof.
  intros [Hr Hi]. split; cbn [real imag cadd cmul].
  - rewrite !add_spec, !sub_spec, !mul_spec.
    apply feq_add; [| apply feq_refl]. apply feq_sub; apply feq_mul; assumption.
  - rewrite !add_spec, !mul_spec.
    apply feq_add; [| apply feq_refl]. apply feq_add; apply feq_mul; assumption.
Qed.

Lemma ceq_inside (z z' : complex128) : ceq z z' -> inside z = inside z'.
Proof.
  intros [Hr Hi]. unfold inside. rewrite !leb_spec, !add_spec, !mul_spec.
  apply feq_leb. apply feq_add; apply feq_mul; assumption.
Qed.

Lemma orbit_ceq_shift (c : complex128) (a b : nat) :
  ceq (orbit c a) (orbit c b) ->
  forall j : nat, ceq (orbit c (a + j)) (orbit c (b + j)).
Proof.
  intros H. induction j as [| j IH].
  - now rewrite !Nat.add_0_r.
  - rewrite !Nat.add_succ_r. cbn [orbit]. apply ceq_step. exact IH.
Qed.

(** An orbit that comes back to an earlier point without having escaped
    never escapes. *)
Lemma cycle_inside (c : complex128) (a b : nat) :
  (a < b)%nat -> ceq (orbit c a) (orbit c b) ->
  (forall n, (n <= b)%nat -> inside (orbit c n) = true) ->
  forall n, inside (orbit c n) = true.
Proof.
  intros Hab Hc Hin n. induction n as [n IH] using lt_wf_ind.
  destruct (le_gt_dec n b) as [Hle | Hgt]; [apply Hin; exact Hle |].
  pose proof (orbit_ceq_shift c a b Hc (n - b)) as H.
  replace (b + (n - b))%nat with n in H by lia.
  rewrite <- (ceq_inside _ _ H). apply IH. lia.
Qed.

Lemma inside_not_escaped (z : complex128) : inside z = true -> escaped z = false.
Proof. apply leb_true_ltb_false. Qed.

Lemma plain_escape_inside (c : complex128) (max : Z) :
  0 <= max + 2 ->
  (forall n, inside (orbit c n) = true) -> plain_escape c max = max + 2.
Proof.
  intros Hmax Hin. unfold plain_escape.
  assert (E : plain_loop (Z.to_nat (max + 2)) c (orbit c 0) (Z.of_nat 0) =
              Z.of_nat (0 + Z.to_nat (max + 2))).
  { apply plain_loop_inside. intros n _. apply inside_not_escaped, Hin. }
  cbn [orbit Nat.add] in E. change (Z.of_nat 0) with 0 in E. rewrite E. lia.
Qed.

(** The plain iteration goes beyond the points that have not escaped. *)
Lemma plain_loop_beyond (c : complex128) (j : nat) :
  forall (ceiling k : nat),
    (forall n, (k < n <= j)%nat -> escaped (orbit c n) = false) ->
    (j < k + ceiling)%nat -> (k <= j)%nat ->
    Z.of_nat j + 1 <= plain_loop ceiling c (orbit c k) (Z.of_nat k).
Proof.
  induction ceiling as [| ceiling IH]; intros k Hin Hj Hk; [lia |].
  cbn [plain_loop].
  change (cadd (cmul (orbit c k) (orbit c k)) c) with (orbit c (S k)).
  replace (Z.of_nat k + 1) with (Z.of_nat (S k)) by lia.
  destruct (Nat.eq_dec k j) as [-> | Hne].
  - destruct (escaped (orbit c (S j))); [lia |].
    destruct ceiling as [| ceiling']; [cbn [plain_loop]; lia |].
    pose proof (plain_loop_range c (S ceiling') (orbit c (S j)) (Z.of_nat (S j)) ltac:(lia)).
    lia.
  - rewrite Hin by lia. apply IH; [intros; apply Hin; lia | lia | lia].
Qed.

(** ** The escape evaluation, pass by pass *)

Section TraceFacts.

Variable math_Round : float -> float.
Variable int_of_float64 : float -> Z.

Local Abbreviation check := (Check math_Round int_of_float64).
Local Abbreviation body := (IterateZ_body math_Round int_of_float64).
Local Abbreviation loop := (IterateZ_loop math_Round int_of_float64).
Local Abbreviation iterateZ := (IterateZ math_Round int_of_float64).

(** What a pass does, in full: it leaves with [-1] on a cycle or on an
    unmarked cell, or it leaves with the count, or it goes on. *)
Lemma IterateZ_body_trace (g : Guidemap) (c : complex128) (l : Z) (s : locals)
  (r : flow) :
  body g c l s = Ok r ->
  let z' := cadd (cmul (v_z s) (v_z s)) c in
  let i' := wrap (v_i s + 1) in
  (r = GotoIterateZDone (-1) /\ v_repcheck s = 0 /\
   (ceqb (v_oldz s) z' = true \/
    (Z.rem (v_i s) 8 = 0 /\ check g c = Ok false))) \/
  (r = GotoIterateZDone i' /\ (i' <? l) && inside z' = false) \/
  (exists s', r = GotoIterateZ s' /\ (i' <? l) && inside z' = true /\
     v_z s' = z' /\ v_i s' = i' /\
     (v_oldz s' = v_oldz s \/ v_oldz s' = z') /\
     (v_repcheck s', v_repcheckstart s') =
       schedule_step (v_i s) (v_repcheck s, v_repcheckstart s)).
Proof.
  unfold IterateZ_body, schedule_step, inside. cbv zeta.
  destruct (v_repcheck s =? 0) eqn:Erc.
  - apply Z.eqb_eq in Erc.
    destruct (ceqb (v_oldz s) (cadd (cmul (v_z s) (v_z s)) c)) eqn:Ecyc; cbn [obind].
    { intros [= <-]. auto. }
    destruct (Z.rem (v_i s) 8 =? 0) eqn:E8.
    + apply Z.eqb_eq in E8.
      destruct (check g c) as [marked | | |]; cbn [obind]; try discriminate.
      destruct (negb marked && negb (Z.rem (v_i s) 64 =? 0)) eqn:Epr; cbn [obind].
      { intros [= <-]. left. apply andb_true_iff in Epr. destruct Epr as [Em _].
        destruct marked; [discriminate Em | auto]. }
      destruct ((wrap (v_i s + 1) <? l) && _) eqn:Econt; intros [= <-]; right; [right | left; auto].
      eexists. split; [reflexivity |]. cbn [v_z v_i v_oldz v_repcheck v_repcheckstart].
      auto 10.
    + destruct ((wrap (v_i s + 1) <? l) && _) eqn:Econt; intros [= <-]; right; [right | left; auto].
      eexists. split; [reflexivity |]. cbn [v_z v_i v_oldz v_repcheck v_repcheckstart].
      auto 10.
  - cbn [obind]. destruct ((wrap (v_i s + 1) <? l) && _) eqn:Econt; intros [= <-]; right; [right | left; auto].
    eexists. split; [reflexivity |]. cbn [v_z v_i v_oldz v_repcheck v_repcheckstart].
    auto 10.
Qed.

Lemma trace_inv_start (c : complex128) (l : Z) :
  1 <= l -> trace_inv c l (mkLocals czero czero 0 2 2) 0 0.
Proof.
  intros Hl. constructor; cbn [v_i v_z v_oldz v_repcheck v_repcheckstart orbit schedule];
    try reflexivity; try lia.
  intros n Hn. replace n with O by lia. reflexivity.
Qed.

Lemma trace_inv_next (c : complex128) (l : Z) (s s' : locals) (k a : nat) :
  trace_inv c l s k a -> is_int l ->
  (wrap (v_i s + 1) <? l) && inside (cadd (cmul (v_z s) (v_z s)) c) = true ->
  v_z s' = cadd (cmul (v_z s) (v_z s)) c ->
  v_i s' = wrap (v_i s + 1) ->
  (v_oldz s' = v_oldz s \/ v_oldz s' = cadd (cmul (v_z s) (v_z s)) c) ->
  (v_repcheck s', v_repcheckstart s') =
    schedule_step (v_i s) (v_repcheck s, v_repcheckstart s) ->
  exists a', trace_inv c l s' (S k) a'.
Proof.
  intros [Hi Hl Hz Ho Ha Hin Hs] Hint Hcont Ez Ei Eo Es.
  assert (Ew : wrap (v_i s + 1) = v_i s + 1).
  { apply wrap_small. unfold is_int, int_min, int_max in *. lia. }
  rewrite Ew in *. apply andb_true_iff in Hcont. destruct Hcont as [Hlt Hins].
  apply Z.ltb_lt in Hlt. rewrite Hz in Ez, Eo, Hins.
  change (cadd (cmul (orbit c k) (orbit c k)) c) with (orbit c (S k)) in *.
  assert (Hin' : forall n, (n <= S k)%nat -> inside (orbit c n) = true).
  { intros n Hn. destruct (Nat.eq_dec n (S k)) as [-> | Hne]; [exact Hins | apply Hin; lia]. }
  assert (Hs' : (v_repcheck s', v_repcheckstart s') = schedule (S k)).
  { rewrite Es, Hs, Hi. reflexivity. }
  destruct Eo as [Eo | Eo]; [exists a | exists (S k)];
    constructor; try assumption; try lia; congruence.
Qed.

(** When the loop answers [-1]: the orbit has come back to an earlier
    point, and so never escapes; or the guidemap was read at a pass [j]
    and had the cell of [c] unmarked. *)
Lemma IterateZ_loop_minus_one (g : Guidemap) (c : complex128) (l : Z) :
  is_int l ->
  forall (fuel : nat) (s : locals) (n : nat) (k a : nat) (m : nat),
    trace_inv c l s k a ->
    loop fuel g c l s n = Ok (-1, m) ->
    (forall n, inside (orbit c n) = true) \/
    (check g c = Ok false /\
     exists j, (k <= j)%nat /\ Z.of_nat j < l /\
       fst (schedule j) = 0 /\ Z.rem (Z.of_nat j) 8 = 0 /\
       forall n, (n <= j)%nat -> inside (orbit c n) = true).
Proof.
  intros Hl. induction fuel as [| fuel IH]; intros s n k a m Hinv Hrun; [discriminate |].
  cbn [IterateZ_loop] in Hrun.
  destruct (body g c l s) as [r | | |] eqn:Eb; cbn [obind] in Hrun; try discriminate.
  pose proof (ti_i _ _ _ _ _ Hinv) as Hi. pose proof (ti_l _ _ _ _ _ Hinv) as Hlt.
  assert (Ew : wrap (v_i s + 1) = v_i s + 1).
  { apply wrap_small. unfold is_int, int_min, int_max in *. lia. }
  destruct (IterateZ_body_trace g c l s r Eb)
    as [(-> & Hrc & [Hcyc | [H8 Hch]]) | [[-> Hstop] | (s' & -> & Hcont & Ez & Ei & Eo & Es)]].
  - left. apply ceqb_ceq in Hcyc.
    rewrite (ti_oldz _ _ _ _ _ Hinv), (ti_z _ _ _ _ _ Hinv) in Hcyc.
    change (cadd (cmul (orbit c k) (orbit c k)) c) with (orbit c (S k)) in Hcyc.
    pose proof (ti_old _ _ _ _ _ Hinv) as Ha.
    apply (cycle_inside c a (S k)); [lia | exact Hcyc |].
    intros j Hj. destruct (Nat.eq_dec j (S k)) as [-> | Hne].
    + rewrite <- (ceq_inside _ _ Hcyc). apply (ti_inside _ _ _ _ _ Hinv). lia.
    + apply (ti_inside _ _ _ _ _ Hinv). lia.
  - right. split; [exact Hch |]. exists k.
    pose proof (ti_schedule _ _ _ _ _ Hinv) as Hs.
    split; [lia |]. split; [lia |]. split; [rewrite <- Hs; exact Hrc |].
    split; [rewrite <- Hi; exact H8 |]. apply (ti_inside _ _ _ _ _ Hinv).
  - injection Hrun as Hrun _. lia.
  - destruct (trace_inv_next c l s s' k a Hinv Hl Hcont Ez Ei Eo Es) as [a' Hinv'].
    destruct (IH s' (S n) (S k) a' m Hinv' Hrun) as [H | (Hch & j & Hj & H)]; [auto |].
    right. split; [exact Hch |]. exists j. split; [lia | exact H].
Qed.

(** The guidemap is not read before pass 104. *)
Lemma consults_104 : consults 104 = [].
Proof. vm_compute. reflexivity. Qed.

Lemma first_consult (j : nat) :
  fst (schedule j) = 0 -> Z.rem (Z.of_nat j) 8 = 0 -> (104 <= j)%nat.
Proof.
  intros Hs H8.
  destruct (le_gt_dec 104 j) as [H | H]; [exact H | exfalso].
  assert (Hin : In j (consults 104)).
  { apply (proj2 (List.filter_In
       (fun k => (fst (schedule k) =? 0) && (Z.rem (Z.of_nat k) 8 =? 0)) j (seq 0 104))).
    split.
    - apply (proj2 (in_seq 104 0 j)). lia.
    - rewrite Hs, H8. reflexivity. }
  rewrite consults_104 in Hin. exact Hin.
Qed.

(** A pass that does not run the check block with [i%8 == 0] does not
    read the guidemap. *)
Lemma IterateZ_body_unguided (g g' : Guidemap) (c : complex128) (l : Z) (s : locals) :
  ~ (v_repcheck s = 0 /\ Z.rem (v_i s) 8 = 0) ->
  body g c l s = body g' c l s.
Proof.
  intros H. unfold IterateZ_body. cbv zeta.
  destruct (v_repcheck s =? 0) eqn:Erc; [| reflexivity].
  destruct (Z.rem (v_i s) 8 =? 0) eqn:E8; [| reflexivity].
  apply Z.eqb_eq in Erc, E8. tauto.
Qed.

Lemma IterateZ_loop_unguided (g g' : Guidemap) (c : complex128) (l : Z) :
  forall (fuel : nat) (s : locals) (n k : nat),
    v_i s = Z.of_nat k ->
    (v_repcheck s, v_repcheckstart s) = schedule k ->
    (k + fuel <= 104)%nat ->
    loop fuel g c l s n = loop fuel g' c l s n.
Proof.
  induction fuel as [| fuel IH]; intros s n k Hi Hs Hk; [reflexivity |].
  cbn [IterateZ_loop].
  rewrite (IterateZ_body_unguided g g' c l s).
  2:{ intros [Hrc H8]. rewrite Hi in H8.
      assert (H0 : fst (schedule k) = 0) by (rewrite <- Hs; exact Hrc).
      pose proof (first_consult k H0 H8). lia. }
  destruct (body g' c l s) as [r | | |] eqn:Eb; cbn [obind]; try reflexivity.
  destruct r as [s' | i]; [| reflexivity].
  destruct (IterateZ_body_trace g' c l s _ Eb)
    as [(E & _) | [[E _] | (s1 & E & _ & _ & Ei & _ & Es)]]; try discriminate E.
  injection E as <-.
  apply (IH s' (S n) (S k)); [| | lia].
  - rewrite Ei, Hi. rewrite wrap_small; [lia |].
    unfold is_int, int_min, int_max. lia.
  - rewrite Es, Hs, Hi. reflexivity.
Qed.

End TraceFacts.

(** ** The plain iteration on a candidate that is not a finite point *)

Lemma nan_step (z c : complex128) :
  Prim2SF (real z) = S754_nan \/ Prim2SF (imag z) = S754_nan ->
  Prim2SF (real (cadd (cmul z z) c)) = S754_nan.
Proof.
  intros H. cbn [real imag cadd cmul]. rewrite add_spec, sub_spec, !mul_spec.
  destruct H as [-> | ->]; [reflexivity |].
  destruct (SF64mul (Prim2SF (real z)) (Prim2SF (real z))); reflexivity.
Qed.

Lemma nan_not_escaped (z : complex128) :
  Prim2SF (real z) = S754_nan \/ Prim2SF (imag z) = S754_nan ->
  escaped z = false.
Proof.
  intros H. unfold escaped. rewrite ltb_spec, add_spec, !mul_spec.
  destruct H as [-> | ->].
  - destruct (Prim2SF bailout); reflexivity.
  - destruct (SF64mul (Prim2SF (real z)) (Prim2SF (real z))), (Prim2SF bailout);
      reflexivity.
Qed.

Lemma plain_loop_nan (c : complex128) :
  forall (ceiling : nat) (z : complex128) (n : Z),
    Prim2SF (real z) = S754_nan \/ Prim2SF (imag z) = S754_nan ->
    plain_loop ceiling c z n = n + Z.of_nat ceiling.
Proof.
  induction ceiling as [| ceiling IH]; intros z n H; cbn [plain_loop]; [lia |].
  pose proof (nan_step z c H) as H'.
  rewrite (nan_not_escaped _ (or_introl H')).
  rewrite IH by (left; exact H'). lia.
Qed.

Lemma norm_nan (z : complex128) :
  ~ is_number (real z * real z + imag z * imag z) ->
  Prim2SF (real z) = S754_nan \/ Prim2SF (imag z) = S754_nan.
Proof.
  intros H.
  destruct (Prim2SF (real z)) eqn:Er; auto.
  all: destruct (Prim2SF (imag z)) eqn:Ei; auto.
  all: exfalso; apply H; unfold is_number; rewrite add_spec, !mul_spec, Er, Ei;
    apply pos_not_nan, SFadd_pos; apply SFmul_square_pos; discriminate.
Qed.

(** A candidate that is not a finite point escapes at once or never. *)
Lemma plain_escape_non_point (c : complex128) (max : Z) :
  ~ is_point c -> -1 <= max ->
  plain_escape c max = 1 \/ plain_escape c max = max + 2.
Proof.
  intros Hc Hmax. unfold plain_escape.
  destruct (Z.to_nat (max + 2)) as [| ceiling] eqn:E; [lia |].
  cbn [plain_loop]. set (z1 := cadd (cmul czero czero) c).
  destruct (escaped z1) eqn:Ee; [left; reflexivity | right].
  assert (Hn : ~ is_number (real z1 * real z1 + imag z1 * imag z1)).
  { intros Hn. destruct (inside z1) eqn:Ein.
    - apply Hc. destruct (norm_le_finite _ _ Ein) as (Fr & Fi & _).
      now apply first_step_point.
    - unfold escaped in Ee. rewrite leb_false_ltb_true in Ee;
        auto using bailout_is_number. discriminate Ee. }
  rewrite plain_loop_nan by (apply norm_nan; exact Hn). lia.
Qed.

Section ExactFacts.

Variable math_Round : float -> float.
Variable int_of_float64 : float -> Z.
Variable cmplx_Abs : complex128 -> float.

Local Abbreviation check := (Check math_Round int_of_float64).
Local Abbreviation mark := (Mark math_Round int_of_float64).
Local Abbreviation iterateZ := (IterateZ math_Round int_of_float64).
Local Abbreviation acceptedBy := (accepted math_Round int_of_float64).
Local Abbreviation generateGuidemap :=
  (GenerateGuidemap math_Round int_of_float64 cmplx_Abs).
Local Abbreviation mine := (Mine math_Round int_of_float64 cmplx_Abs).

(** What the two shortcuts of the inner loop cost: [-1] where the orbit
    never escapes, or where the cell is unmarked and the plain escape time
    is 105 or more. *)
Lemma IterateZ_shortcuts (g : Guidemap) (c : complex128) (max i : Z) (m : nat) :
  is_point c -> -1 <= max <= int_max - 2 ->
  iterateZ g c max = Ok (i, m) ->
  i = plain_escape c max \/
  (i = -1 /\
   ((forall n, inside (orbit c n) = true) \/
    (check g c = Ok false /\ 105 <= plain_escape c max))).
Proof.
  intros Hc Hmax Hrun.
  destruct (IterateZ_cases math_Round int_of_float64 g c max i m ltac:(lia) Hrun)
    as [-> | [[[H | H] _] | [H _]]]; [| contradiction | lia | auto].
  right. split; [reflexivity |].
  unfold IterateZ in Hrun. cbv zeta in Hrun.
  assert (El : wrap (max + 2) = max + 2).
  { apply wrap_small. unfold is_int, int_min, int_max in *. lia. }
  rewrite El in Hrun.
  destruct (IterateZ_loop_minus_one math_Round int_of_float64 g c (max + 2)
              ltac:(unfold is_int, int_min, int_max in *; lia)
              _ _ _ _ _ _ (trace_inv_start c (max + 2) ltac:(lia)) Hrun)
    as [Hin | (Hch & j & _ & Hj & Hs & H8 & Hin)].
  - left. exact Hin.
  - right. split; [exact Hch |].
    pose proof (first_consult j Hs H8) as H104.
    pose proof (plain_loop_beyond c j (Z.to_nat (max + 2)) 0) as Hb.
    cbn [orbit] in Hb. change (Z.of_nat 0) with 0 in Hb.
    unfold plain_escape.
    assert (Hle : Z.of_nat j + 1 <= plain_loop (Z.to_nat (max + 2)) c czero 0).
    { apply Hb; [| lia | lia].
      intros n Hn. apply inside_not_escaped, Hin. lia. }
    lia.
Qed.

(** The acceptance test on [i] is the test on the plain escape time, for
    a candidate in a marked cell, and for any candidate when [max] or the
    plain escape time is at most 104. *)
Lemma IterateZ_accept_exact (g : Guidemap) (c : complex128) (min max i : Z) (m : nat) :
  2 <= min -> -1 <= max <= int_max - 2 ->
  iterateZ g c max = Ok (i, m) ->
  check g c = Ok true \/ max <= 104 \/ plain_escape c max <= 104 ->
  (min <=? i) && (i <=? max) = in_depth_range min max c.
Proof.
  intros Hmin Hmax Hrun Hwhen. unfold in_depth_range.
  destruct (is_point_dec c) as [Hc | Hc].
  - destruct (IterateZ_shortcuts g c max i m Hc Hmax Hrun)
      as [-> | [-> [Hin | [Hch Hp]]]]; [reflexivity | |].
    + rewrite (plain_escape_inside c max ltac:(lia) Hin).
      destruct (min <=? -1) eqn:E1; [apply Z.leb_le in E1; lia |].
      destruct (max + 2 <=? max) eqn:E2; [apply Z.leb_le in E2; lia |].
      now rewrite andb_false_r.
    + destruct Hwhen as [Ht | Hle]; [congruence |].
      destruct (min <=? -1) eqn:E1; [apply Z.leb_le in E1; lia |].
      destruct (plain_escape c max <=? max) eqn:E2; [apply Z.leb_le in E2; lia |].
      now rewrite andb_false_r.
  - assert (Hi : i = -1 \/ i = 1 \/ i = plain_escape c max).
    { destruct (IterateZ_cases math_Round int_of_float64 g c max i m ltac:(lia) Hrun)
        as [H | [[_ H] | [H _]]]; auto. }
    destruct (plain_escape_non_point c max Hc ltac:(lia)) as [Hp | Hp].
    + rewrite Hp in *.
      transitivity false; [| symmetry].
      * destruct Hi as [-> | [-> | ->]];
          (destruct (min <=? _) eqn:E1; [apply Z.leb_le in E1; lia | reflexivity]).
      * destruct (min <=? 1) eqn:E1; [apply Z.leb_le in E1; lia | reflexivity].
    + rewrite Hp in *.
      transitivity false; [| symmetry].
      * destruct Hi as [-> | [-> | ->]].
        -- destruct (min <=? _) eqn:E1; [apply Z.leb_le in E1; lia | reflexivity].
        -- destruct (min <=? _) eqn:E1; [apply Z.leb_le in E1; lia | reflexivity].
        -- destruct (max + 2 <=? max) eqn:E2; [apply Z.leb_le in E2; lia |].
           now rewrite andb_false_r.
      * destruct (max + 2 <=? max) eqn:E2; [apply Z.leb_le in E2; lia |].
        now rewrite andb_false_r.
Qed.

(** With [max] at most 104 the acceptance trace is the list of the
    candidates whose plain escape time is in [[min, max]]. *)
Lemma accepted_exact (min max : Z) :
  2 <= min -> -1 <= max <= 104 ->
  forall (cs : list complex128) (g : Guidemap),
    Guidemap_wf g ->
    acceptedBy min max g cs = List.filter (in_depth_range min max) cs.
Proof.
  intros Hmin Hmax. induction cs as [| c cs IH]; intros g Hwf; [reflexivity |].
  cbn [accepted List.filter].
  destruct (IterateZ_at_most math_Round int_of_float64 g c max Hwf
              ltac:(unfold int_max; lia)) as (i & m & Erun & _).
  rewrite Erun.
  rewrite (IterateZ_accept_exact g c min max i m Hmin
             ltac:(unfold int_max; lia) Erun ltac:(right; left; lia)).
  destruct (in_depth_range min max c); [| apply IH; exact Hwf].
  rewrite (Mark_cell math_Round int_of_float64 g c Hwf).
  f_equal. apply IH.
  eapply Mark_wf; [exact Hwf | apply Mark_cell; exact Hwf].
Qed.

End ExactFacts.

(** ** The depths [Mine] reports *)

Section RangeFacts.

Variable math_Round : float -> float.
Variable int_of_float64 : float -> Z.
Variable cmplx_Abs : complex128 -> float.

Local Abbreviation mark := (Mark math_Round int_of_float64).
Local Abbreviation iterateZ := (IterateZ math_Round int_of_float64).
Local Abbreviation checkNewC_body := (CheckNewC_body math_Round int_of_float64).
Local Abbreviation checkNewC := (CheckNewC math_Round int_of_float64).
Local Abbreviation mine := (Mine math_Round int_of_float64 cmplx_Abs).

(** What a pass of the outer loop does to [realmin] and [realmax]. *)
Lemma CheckNewC_body_range (min max : Z) (st st' : mining) (c : complex128)
  (i : Z) (k : nat) :
  iterateZ (m_guidemap st) c max = Ok (i, k) ->
  checkNewC_body min max st c = Ok st' ->
  if (min <=? i) && (i <=? max)
  then m_realmin st' = Z.min i (m_realmin st) /\
       m_realmax st' = Z.max i (m_realmax st)
  else m_realmin st' = m_realmin st /\ m_realmax st' = m_realmax st.
Proof.
  intros Erun. unfold CheckNewC_body. rewrite Erun. cbn [obind fst].
  unfold IterateZDone. destruct ((min <=? i) && (i <=? max)).
  - destruct ((0 <=? m_sidx st) && _); [| discriminate].
    destruct (mark (m_guidemap st) c) as [g' | | |]; cbn [obind]; try discriminate.
    intros [= <-]. cbn [m_realmin m_realmax]. split.
    + destruct (i <? m_realmin st) eqn:E;
        [apply Z.ltb_lt in E | apply Z.ltb_ge in E]; lia.
    + destruct (m_realmax st <? i) eqn:E;
        [apply Z.ltb_lt in E | apply Z.ltb_ge in E]; lia.
  - cbn [obind]. intros [= <-]. cbn [m_realmin m_realmax]. auto.
Qed.

Lemma ranged_accept (min max : Z) (st st' : mining) (acc : list complex128)
  (c : complex128) :
  min <= max ->
  ranged min max st acc ->
  min <= plain_escape c max <= max ->
  m_realmin st' = Z.min (plain_escape c max) (m_realmin st) ->
  m_realmax st' = Z.max (plain_escape c max) (m_realmax st) ->
  ranged min max st' (acc ++ [c]).
Proof.
  intros Hmm [Hd Ha Hn Hs] Hc Emin Emax. constructor.
  - apply Forall_app_2; [exact Hd | constructor; [exact Hc | constructor]].
  - apply Forall_app_2.
    + eapply List.Forall_impl; [| exact Ha]. cbn. intros a Hle. lia.
    + constructor; [lia | constructor].
  - intros E. destruct acc; discriminate E.
  - intros _. destruct acc as [| a acc'].
    + destruct (Hn eq_refl) as [E1 E2]. cbn [app].
      split; constructor; lia.
    + destruct (Hs ltac:(discriminate)) as [H1 H2].
      split; apply List.Exists_app.
      * destruct (Z_lt_le_dec (plain_escape c max) (m_realmin st)).
        -- right. constructor. lia.
        -- left. eapply List.Exists_impl; [| exact H1]. cbn. intros; lia.
      * destruct (Z_lt_le_dec (m_realmax st) (plain_escape c max)).
        -- right. constructor. lia.
        -- left. eapply List.Exists_impl; [| exact H2]. cbn. intros; lia.
Qed.

Lemma ranged_reject (min max : Z) (st st' : mining) (acc : list complex128) :
  ranged min max st acc ->
  m_realmin st' = m_realmin st -> m_realmax st' = m_realmax st ->
  ranged min max st' acc.
Proof.
  intros [Hd Ha Hn Hs] Emin Emax. constructor; rewrite ?Emin, ?Emax; assumption.
Qed.

(** When the outer loop ends, [realmin] and [realmax] are the least and
    the greatest plain escape time of the seeds. *)
Lemma CheckNewC_ranged (howmany min max : Z) :
  2 <= min -> min <= max <= int_max -> howmany <= int_max ->
  forall (rnd : list float) (st : mining) (acc : list complex128),
    filled howmany st acc -> m_found st < howmany ->
    ranged min max st acc ->
    match checkNewC howmany min max st rnd with
    | (Ok st', _) => m_seeds st' <> [] /\ ranged min max st' (m_seeds st')
    | _ => True
    end.
Proof.
  intros Hmin Hmax Hhow.
  induction rnd as [| u | u1 u2 rnd IH] using draws_ind; intros st acc Hfill Hlt Hr;
    [exact I | exact I |].
  cbn [CheckNewC].
  destruct (CheckNewC_body_spec math_Round int_of_float64 howmany min max st acc
              (candidate u1 u2) ltac:(lia) Hhow Hfill Hlt)
    as (i & k & st' & Erun & Ebody & Hcase).
  pose proof (CheckNewC_body_range min max st st' _ i k Erun Ebody) as Hrange.
  rewrite Ebody.
  destruct ((min <=? i) && (i <=? max)) eqn:Eacc.
  - destruct Hcase as (Hfill' & Hfound' & _). destruct Hrange as [Emin Emax].
    pose proof (IterateZ_accept_sound math_Round int_of_float64 _ _ min max i k
                  Hmin ltac:(lia) Erun Eacc) as Ei.
    apply andb_true_iff in Eacc. destruct Eacc as [H1 H2]. apply Z.leb_le in H1, H2.
    assert (Hr' : ranged min max st' (acc ++ [candidate u1 u2])).
    { apply (ranged_accept min max st); try lia; try assumption;
        rewrite <- Ei; try lia; assumption. }
    destruct (m_found st' <? howmany) eqn:Emore.
    + apply Z.ltb_lt in Emore. exact (IH st' _ Hfill' Emore Hr').
    + apply Z.ltb_ge in Emore.
      pose proof (fi_seeds _ _ _ Hfill') as Es.
      replace (Z.to_nat (howmany - m_found st')) with O in Es by lia.
      cbn [repeat] in Es. rewrite app_nil_r in Es. rewrite Es.
      split; [destruct acc; discriminate | exact Hr'].
  - destruct Hcase as (Hfill' & Hfound' & _). destruct Hrange as [Emin Emax].
    rewrite Hfound'. destruct (m_found st <? howmany) eqn:Emore;
      [| apply Z.ltb_ge in Emore; lia].
    apply (IH st' acc Hfill'); [lia |].
    exact (ranged_reject min max st st' acc Hr Emin Emax).
Qed.

(** X8.  [realmin] and [realmax], as [Mine] returns them, are the least
    and the greatest plain escape time among the seeds, and lie in
    [[min, max]]. *)
Theorem Mine_reports_least_and_greatest_depth (howmany min max : Z) (probes : nat)
  (rnd rnd' : list float) (seeds : list complex128) (realmin realmax : Z) :
  valid_config howmany min max ->
  mine howmany min max probes rnd = (Ok (seeds, realmin, realmax), rnd') ->
  Forall (fun c => realmin <= plain_escape c max <= realmax) seeds /\
  Exists (fun c => plain_escape c max = realmin) seeds /\
  Exists (fun c => plain_escape c max = realmax) seeds /\
  min <= realmin /\ realmin <= realmax /\ realmax <= max.
Proof.
  intros [Hhow Hmin Hmax]. unfold Mine.
  destruct (howmany <? 1) eqn:E1; [discriminate |].
  destruct (max <? min) eqn:E2; [discriminate |].
  destruct (min <? 2) eqn:E3; [discriminate |].
  unfold NewSeedpack.
  destruct (howmany <? 0) eqn:E4; [apply Z.ltb_lt in E4; lia |].
  pose proof (GenerateGuidemap_wf math_Round int_of_float64 cmplx_Abs 51 probes rnd
                ltac:(lia) ltac:(unfold int_max; lia)) as Hg.
  destruct (GenerateGuidemap _ _ _ 51 probes rnd) as [[g0 | | |] rnd1];
    try contradiction; try discriminate.
  pose proof (CheckNewC_ranged howmany min max Hmin Hmax ltac:(lia) rnd1
                (mkMining (repeat czero (Z.to_nat howmany)) 0 g0 0 max min 0) []) as Hloop.
  assert (Hfill : filled howmany
            (mkMining (repeat czero (Z.to_nat howmany)) 0 g0 0 max min 0) []).
  { constructor; cbn; auto. rewrite Z.sub_0_r. reflexivity. }
  assert (Hr : ranged min max
            (mkMining (repeat czero (Z.to_nat howmany)) 0 g0 0 max min 0) []).
  { constructor; cbn [m_realmin m_realmax];
      [constructor | constructor | auto | intros Hne; contradiction]. }
  specialize (Hloop Hfill ltac:(cbn; lia) Hr).
  destruct (CheckNewC _ _ howmany min max _ rnd1) as [[st | | |] rnd2];
    try discriminate.
  intros [= <- <- <- <-]. destruct Hloop as [Hne [Hd Ha _ Hs]].
  destruct (Hs Hne) as [H1 H2].
  split; [exact Ha |]. split; [exact H1 |]. split; [exact H2 |].
  apply List.Exists_exists in H1, H2.
  destruct H1 as (c1 & Hc1 & E1'), H2 as (c2 & Hc2 & E2').
  pose proof (proj1 (List.Forall_forall _ _) Hd c1 Hc1) as D1.
  pose proof (proj1 (List.Forall_forall _ _) Hd c2 Hc2) as D2.
  pose proof (proj1 (List.Forall_forall _ _) Ha c1 Hc1) as A1.
  cbn beta in D1, D2, A1. lia.
Qed.

End RangeFacts.

(** ** The first pass and the count of passes *)

(** The first pass makes [z] of [c]: the same point, up to the sign of a
    zero. *)
Lemma first_step_ceq (c : complex128) : ceq (cadd (cmul czero czero) c) c.
Proof.
  split; cbn [real imag cadd cmul czero]; rewrite add_spec.
  - change (Prim2SF (0 * 0 - 0 * 0)%float) with (S754_zero false).
    destruct (Prim2SF (real c)) as [[] | | |]; cbn; auto using feq_refl; right; exact I.
  - change (Prim2SF (0 * 0 + 0 * 0)%float) with (S754_zero false).
    destruct (Prim2SF (imag c)) as [[] | | |]; cbn; auto using feq_refl; right; exact I.
Qed.

Section CountFacts.

Variable math_Round : float -> float.
Variable int_of_float64 : float -> Z.
Variable cmplx_Abs : complex128 -> float.

Local Abbreviation body := (IterateZ_body math_Round int_of_float64).
Local Abbreviation loop := (IterateZ_loop math_Round int_of_float64).
Local Abbreviation iterateZ := (IterateZ math_Round int_of_float64).
Local Abbreviation acceptedBy := (accepted math_Round int_of_float64).
Local Abbreviation mine := (Mine math_Round int_of_float64 cmplx_Abs).

(** The loop leaves with [-1] or with the number of passes made. *)
Lemma IterateZ_loop_depth_is_count (g : Guidemap) (c : complex128) (l : Z) :
  is_int l ->
  forall (fuel : nat) (s : locals) (n : nat) (i : Z) (k : nat),
    v_i s = Z.of_nat n -> v_i s < l \/ v_i s = 0 ->
    loop fuel g c l s n = Ok (i, k) ->
    i = -1 \/ i = Z.of_nat k.
Proof.
  intros Hl. induction fuel as [| fuel IH]; intros s n i k Hi Hlt Hrun; [discriminate |].
  cbn [IterateZ_loop] in Hrun.
  destruct (body g c l s) as [r | | |] eqn:Eb; cbn [obind] in Hrun; try discriminate.
  assert (Ew : wrap (v_i s + 1) = v_i s + 1).
  { apply wrap_small. unfold is_int, int_min, int_max in *. lia. }
  destruct (IterateZ_body_trace math_Round int_of_float64 g c l s r Eb)
    as [(-> & _) | [[-> _] | (s' & -> & Hcont & _ & Ei & _)]].
  - injection Hrun as <- _. auto.
  - injection Hrun as <- <-. right. lia.
  - apply andb_true_iff in Hcont. destruct Hcont as [Hlt' _]. apply Z.ltb_lt in Hlt'.
    apply (IH s' (S n) i k); [lia | lia | exact Hrun].
Qed.

(** X9.  The depth is the number of passes: at [IterateZDone], [i] is
    [-1] or the number of times the recurrence [z = z*z + c] was
    applied. *)
Theorem IterateZ_depth_is_the_number_of_passes (g : Guidemap) (c : complex128)
  (max i : Z) (k : nat) :
  iterateZ g c max = Ok (i, k) -> i = -1 \/ i = Z.of_nat k.
Proof.
  unfold IterateZ. cbv zeta. intros Hrun.
  eapply (IterateZ_loop_depth_is_count g c (wrap (max + 2)) (wrap_is_int _));
    [| | exact Hrun]; [reflexivity | right; reflexivity].
Qed.

(** A depth of two or more is only reached by a candidate inside the
    bailout disk. *)
Lemma IterateZ_beyond_first_pass_inside (g : Guidemap) (c : complex128) (max i : Z)
  (k : nat) :
  iterateZ g c max = Ok (i, k) -> 2 <= i -> inside c = true.
Proof.
  unfold IterateZ. cbv zeta. intros Hrun Hi.
  destruct (Z.to_nat (Z.max 1 (wrap (max + 2)))) as [| fuel]; [discriminate |].
  cbn [IterateZ_loop] in Hrun.
  destruct (body g c (wrap (max + 2)) (mkLocals czero czero 0 2 2)) as [r | | |] eqn:Eb;
    cbn [obind] in Hrun; try discriminate.
  rewrite <- (ceq_inside _ _ (first_step_ceq c)).
  destruct (IterateZ_body_trace math_Round int_of_float64 _ _ _ _ _ Eb)
    as [(_ & H & _) | [[-> _] | (s' & _ & Hcont & _)]].
  - discriminate H.
  - injection Hrun as <- _. cbn [v_i] in Hi. change (wrap (0 + 1)) with 1 in Hi. lia.
  - apply andb_true_iff in Hcont. apply Hcont.
Qed.

Lemma accepted_inside (min max : Z) :
  2 <= min ->
  forall (cs : list complex128) (g : Guidemap),
    Forall (fun c => inside c = true) (acceptedBy min max g cs).
Proof.
  intros Hmin. induction cs as [| c cs IH]; intros g; cbn [accepted]; [constructor |].
  destruct (iterateZ g c max) as [[i k] | | |] eqn:Erun; try constructor.
  destruct ((min <=? i) && (i <=? max)) eqn:Eacc; [| apply IH].
  destruct (Mark _ _ g c) as [g' | | |]; try constructor; [| apply IH].
  apply andb_true_iff in Eacc. destruct Eacc as [H1 _]. apply Z.leb_le in H1.
  apply (IterateZ_beyond_first_pass_inside g c max i k Erun). lia.
Qed.

End CountFacts.

(** ** Sort on any seedpack *)

Lemma fold_move_left_perm (s acc : list complex128) :
  Permutation (fold_left (fun sorted_rev x => move_left x sorted_rev) s acc)
              (rev s ++ acc).
Proof.
  revert acc. induction s as [| x s IH]; intros acc; cbn [fold_left rev app];
    [reflexivity |].
  rewrite IH, move_left_perm, <- app_assoc. cbn [app].
  apply Permutation_app_head. reflexivity.
Qed.

Lemma Sort_perm_any (s : list complex128) : Permutation (Sort s) s.
Proof.
  unfold Sort. rewrite <- Permutation_rev, fold_move_left_perm, app_nil_r.
  symmetry. apply Permutation_rev.
Qed.

(** ** Seeds that compare equal *)

Lemma tied_trans (a x y : complex128) :
  no_nan a -> no_nan x -> no_nan y ->
  tied a x = true -> tied a y = true -> tied x y = true.
Proof.
  intros Ha Hx Hy H1 H2. unfold tied.
  rewrite (tied_less a x y), (tied_less a y x); auto.
Qed.

Lemma filter_perm {A : Type} (f : A -> bool) (l1 l2 : list A) :
  Permutation l1 l2 -> Permutation (List.filter f l1) (List.filter f l2).
Proof.
  induction 1 as [| x l1 l2 _ IH | x y l | l1 l2 l3 _ IH1 _ IH2]; cbn [List.filter].
  - constructor.
  - destruct (f x); [constructor |]; exact IH.
  - destruct (f x), (f y); try reflexivity. constructor.
  - etransitivity; eassumption.
Qed.

Lemma all_equal_repeat {A : Type} (x : A) (l : list A) :
  (forall y, In y l -> y = x) -> l = repeat x (length l).
Proof.
  induction l as [| a l IH]; intros H; cbn; [reflexivity |].
  rewrite (H a (or_introl eq_refl)). f_equal. apply IH. intros y Hy. apply H. now right.
Qed.

Lemma perm_all_equal {A : Type} (l1 l2 : list A) :
  (forall x y, In x l1 -> In y l1 -> x = y) -> Permutation l1 l2 -> l1 = l2.
Proof.
  intros H HP. destruct l1 as [| x l1'].
  - apply Permutation_nil in HP. now subst.
  - rewrite (all_equal_repeat x (x :: l1')), (all_equal_repeat x l2).
    + now rewrite (Permutation_length HP).
    + intros y Hy. apply H; [| now left]. apply (Permutation_in _ (Permutation_sym HP) Hy).
    + intros y Hy. apply H; [exact Hy | now left].
Qed.

(** The sorted seedpack does not depend on the order of the seeds, when
    the seeds that compare equal are equal. *)
Lemma Sort_of_permutation (s1 s2 : list complex128) :
  Forall no_nan s1 -> Permutation s1 s2 ->
  (forall a b, In a s1 -> In b s1 -> tied a b = true -> a = b) ->
  Sort s1 = Sort s2.
Proof.
  intros Hnn HP Htied.
  assert (Hnn2 : Forall no_nan s2).
  { apply List.Forall_forall. intros x Hx.
    apply (proj1 (List.Forall_forall _ _) Hnn), (Permutation_in _ (Permutation_sym HP) Hx). }
  apply stable_sort_unique.
  - apply Sort_no_nan; exact Hnn.
  - rewrite (Sort_perm_any s1), (Sort_perm_any s2). exact HP.
  - apply Sort_sorted; exact Hnn.
  - apply Sort_sorted; exact Hnn2.
  - intros a Ha. rewrite (Sort_stable a s1 Ha Hnn), (Sort_stable a s2 Ha Hnn2).
    apply perm_all_equal; [| apply filter_perm; exact HP].
    intros x y Hx Hy. apply List.filter_In in Hx, Hy.
    destruct Hx as [Hx Tx], Hy as [Hy Ty].
    apply Htied; auto.
    apply (tied_trans a x y); auto;
      apply (proj1 (List.Forall_forall _ _) Hnn); assumption.
Qed.

(** ** GenerateGuidemap *)

(** The clearing loop leaves every cell false. *)
Lemma clear_from (d : list bool) :
  forall (k : nat),
    fold_left (fun d idx => <[idx := false]> d) (seq k (length d)) (repeat false k ++ d)
    = repeat false (k + length d).
Proof.
  induction d as [| b d IH]; intros k; cbn [length seq fold_left].
  - rewrite app_nil_r. f_equal. lia.
  - replace (<[k := false]> (repeat false k ++ b :: d))
      with (repeat false (S k) ++ d).
    + rewrite IH. f_equal. lia.
    + change (repeat false (S k)) with (false :: repeat false k).
      rewrite repeat_cons, <- app_assoc. cbn [app].
      pose proof (insert_app_r (repeat false k) (b :: d) 0 false) as H.
      rewrite repeat_length, Nat.add_0_r in H. symmetry. exact H.
Qed.

Lemma clear_data_repeat (d : list bool) : clear_data d = repeat false (length d).
Proof. exact (clear_from d 0). Qed.

Lemma lookup_repeat_false (n i : nat) (b : bool) :
  repeat false n !! i = Some b -> b = false.
Proof.
  revert i. induction n as [| n IH]; intros [| i]; cbn; try discriminate.
  - now intros [= <-].
  - apply IH.
Qed.

Section ProbeFacts.

Variable math_Round : float -> float.
Variable int_of_float64 : float -> Z.
Variable cmplx_Abs : complex128 -> float.

Local Abbreviation mark := (Mark math_Round int_of_float64).
Local Abbreviation check := (Check math_Round int_of_float64).
Local Abbreviation cell := (cell_index math_Round int_of_float64).
Local Abbreviation probeOrbit := (probe_orbit math_Round int_of_float64 cmplx_Abs).
Local Abbreviation probeLoop := (probe_loop math_Round int_of_float64 cmplx_Abs).
Local Abbreviation generateGuidemap :=
  (GenerateGuidemap math_Round int_of_float64 cmplx_Abs).

(** [Mark] marks the cell of its argument and no other. *)
Lemma Mark_marks_one_cell (this this' : Guidemap) (c p : complex128) :
  Guidemap_wf this -> mark this c = Ok this' ->
  (forall q, cell this' q = cell this q) /\
  (check this' p = Ok true -> check this p = Ok true \/ cell this p = cell this c).
Proof.
  intros Hwf HM.
  destruct (Mark_wf math_Round int_of_float64 this this' c Hwf HM) as (Hwf' & _ & _).
  rewrite Mark_cell in HM by assumption. injection HM as <-.
  split; [reflexivity |]. intros HC.
  destruct (Check_cell math_Round int_of_float64 _ p Hwf') as (b' & Hb' & E').
  destruct (Check_cell math_Round int_of_float64 _ p Hwf) as (b & Hb & E).
  rewrite E' in HC. injection HC as ->. rewrite E.
  change (cell (set_itsData this _) p) with (cell this p) in Hb'.
  cbn [itsData set_itsData] in Hb'.
  destruct (Z.eq_dec (cell this p) (cell this c)) as [Heq | Hne]; [auto | left].
  rewrite list_lookup_insert_ne in Hb'.
  - congruence.
  - intros H. apply Hne.
    destruct (cell_index_range math_Round int_of_float64 this c Hwf) as (_ & _ & ?).
    destruct (cell_index_range math_Round int_of_float64 this p Hwf) as (_ & _ & ?).
    lia.
Qed.

(** One probe leaves the guidemap as it was or marks its candidate. *)
Lemma probe_orbit_marks :
  forall (fuel : nat) (c z : complex128) (idx : Z) (st st' : probing),
    probeOrbit fuel c z idx st = Ok st' ->
    p_this st' = p_this st \/ mark (p_this st) c = Ok (p_this st').
Proof.
  induction fuel as [| fuel IH]; intros c z idx st st'; cbn [probe_orbit].
  - intros [= <-]. auto.
  - destruct (2 <? cmplx_Abs (cadd (cmul z z) c))%float; [| apply IH].
    destruct (p_limmin st <=? idx); [| intros [= <-]; auto].
    destruct (mark (p_this st) c) as [g' | | |]; cbn [obind]; try discriminate.
    intros [= <-]. auto.
Qed.

(** The probing phase draws two numbers for each probe, and marks only
    cells of the candidates it draws. *)
Lemma probe_loop_marks :
  forall (probes : nat) (st st' : probing) (rnd rnd' : list float),
    Guidemap_wf (p_this st) ->
    probeLoop probes st rnd = (Ok st', rnd') ->
    exists consumed,
      rnd = consumed ++ rnd' /\ length consumed = (2 * probes)%nat /\
      (forall q, cell (p_this st') q = cell (p_this st) q) /\
      forall p, check (p_this st') p = Ok true ->
        check (p_this st) p = Ok true \/
        exists c, In c (candidates consumed) /\ cell (p_this st) p = cell (p_this st) c.
Proof.
  induction probes as [| probes IH]; intros st st' rnd rnd' Hwf; cbn [probe_loop].
  - intros [= <- <-]. exists []. cbn. auto.
  - destruct rnd as [| u1 [| u2 rnd1]]; try discriminate.
    destruct (probeOrbit (Z.to_nat (wrap (p_limmax st + 2))) (candidate u1 u2) czero 0 st)
      as [st1 | | |] eqn:Eo; try discriminate.
    intros Hrun.
    assert (H1 : Guidemap_wf (p_this st1) /\
                 (forall q, cell (p_this st1) q = cell (p_this st) q) /\
                 forall p, check (p_this st1) p = Ok true ->
                   check (p_this st) p = Ok true \/
                   cell (p_this st) p = cell (p_this st) (candidate u1 u2)).
    { destruct (probe_orbit_marks _ _ _ _ _ _ Eo) as [E | E].
      - rewrite E. auto.
      - split; [eapply Mark_wf; eauto |]. split.
        + apply (Mark_marks_one_cell _ _ _ czero Hwf E).
        + intros p. apply (Mark_marks_one_cell _ _ _ p Hwf E). }
    destruct H1 as (Hwf1 & Hcell1 & Hmarks1).
    destruct (IH st1 st' rnd1 rnd' Hwf1 Hrun) as (consumed & -> & Hlen & Hcell & Hmarks).
    exists (u1 :: u2 :: consumed). split; [reflexivity |].
    split; [cbn [length]; lia |]. split.
    + intros q. rewrite Hcell. apply Hcell1.
    + intros p Hp. cbn [candidates].
      destruct (Hmarks p Hp) as [H | (c & Hc & E)].
      * destruct (Hmarks1 p H) as [H' | H']; [auto |].
        right. exists (candidate u1 u2). split; [now left | exact H'].
      * right. exists c. split; [now right |]. now rewrite <- !Hcell1.
Qed.

(** X13.  [GenerateGuidemap] draws two random numbers for each probe and
    marks only cells of the candidates it draws: every marked cell of the
    guidemap it returns is the cell of one of them.  With no probe the
    guidemap is blank. *)
Theorem GenerateGuidemap_marks_probed_cells (size : Z) (probes : nat)
  (rnd rnd' : list float) (g : Guidemap) :
  1 <= size -> size * size <= int_max ->
  generateGuidemap size probes rnd = (Ok g, rnd') ->
  exists consumed,
    rnd = consumed ++ rnd' /\ length consumed = (2 * probes)%nat /\
    forall p, check g p = Ok true ->
      exists c, In c (candidates consumed) /\ cell g p = cell g c.
Proof.
  intros Hsize Hmax. unfold GenerateGuidemap. cbv zeta.
  assert (Ew : wrap (size * size) = size * size).
  { apply wrap_small. unfold is_int, int_min, int_max in *. nia. }
  rewrite Ew. destruct (size * size <? 0) eqn:E; [apply Z.ltb_lt in E; nia |].
  rewrite clear_data_repeat, repeat_length.
  set (g0 := mkGuidemap size size _ _ _ _ _ _ _).
  assert (Hwf : Guidemap_wf g0).
  { constructor; cbn; try lia. rewrite repeat_length. lia. }
  destruct (probeLoop probes (mkProbing g0 0 32 (wrap (32 * 2))) rnd)
    as [[st | | |] rnd1] eqn:Erun; try discriminate.
  intros [= <- <-].
  destruct (probe_loop_marks probes (mkProbing g0 0 32 (wrap (32 * 2))) st rnd rnd1
              Hwf Erun)
    as (consumed & -> & Hlen & Hcell & Hmarks).
  cbn [p_this] in Hcell, Hmarks.
  exists consumed. split; [reflexivity |]. split; [exact Hlen |].
  intros p Hp. destruct (Hmarks p Hp) as [H | (c & Hc & Ec)].
  - exfalso.
    destruct (Check_cell math_Round int_of_float64 g0 p Hwf) as (b & Hb & Eb).
    rewrite Eb in H. injection H as ->.
    apply lookup_repeat_false in Hb. discriminate Hb.
  - exists c. split; [exact Hc |]. now rewrite !Hcell.
Qed.

End ProbeFacts.

(** ** The escape evaluation against the plain iteration *)

Section Evaluation.

Variable math_Round : float -> float.
Variable int_of_float64 : float -> Z.
Variable cmplx_Abs : complex128 -> float.

Local Abbreviation check := (Check math_Round int_of_float64).
Local Abbreviation iterateZ := (IterateZ math_Round int_of_float64).
Local Abbreviation acceptedBy := (accepted math_Round int_of_float64).
Local Abbreviation generateGuidemap :=
  (GenerateGuidemap math_Round int_of_float64 cmplx_Abs).
Local Abbreviation mine := (Mine math_Round int_of_float64 cmplx_Abs).

(** X4.  The cycle detection is sound.  For a finite candidate whose
    cell is marked, [i] at [IterateZDone] is the plain escape time, or it
    is [-1] and then no point of the orbit ever leaves the bailout disk:
    the plain iteration runs to the ceiling [max + 2]. *)
Theorem IterateZ_exact_in_a_marked_cell (g : Guidemap) (c : complex128)
  (max i : Z) (m : nat) :
  is_point c -> -1 <= max <= int_max - 2 ->
  check g c = Ok true ->
  iterateZ g c max = Ok (i, m) ->
  i = plain_escape c max \/
  (i = -1 /\ (forall n, escaped (orbit c n) = false) /\
   plain_escape c max = max + 2).
Proof.
  intros Hc Hmax Hch Hrun.
  destruct (IterateZ_shortcuts math_Round int_of_float64 g c max i m Hc Hmax Hrun)
    as [H | [-> [Hin | [Hch' _]]]]; [auto | | congruence].
  right. split; [reflexivity |]. split.
  - intros n. apply inside_not_escaped, Hin.
  - apply plain_escape_inside; [lia | exact Hin].
Qed.

(** X5.  The guidemap prunes deep candidates only.  A finite candidate
    whose plain escape time is at most 104, and below the ceiling, is
    given that depth whatever the guidemap holds. *)
Theorem IterateZ_never_prunes_a_shallow_candidate (g : Guidemap) (c : complex128)
  (max i : Z) (m : nat) :
  is_point c -> -1 <= max <= int_max - 2 ->
  plain_escape c max <= 104 -> plain_escape c max < max + 2 ->
  iterateZ g c max = Ok (i, m) ->
  i = plain_escape c max.
Proof.
  intros Hc Hmax H104 Hlt Hrun.
  destruct (IterateZ_shortcuts math_Round int_of_float64 g c max i m Hc Hmax Hrun)
    as [H | [_ [Hin | [_ Hp]]]]; [exact H | | lia].
  pose proof (plain_escape_inside c max ltac:(lia) Hin). lia.
Qed.

(** X6.  With [max] at most 102 the evaluation never reads the guidemap:
    whatever the guidemap is, well formed or not, the evaluation ends,
    and with the same result. *)
Theorem IterateZ_ignores_guidemap_up_to_102 (g g' : Guidemap) (c : complex128)
  (max : Z) :
  -1 <= max <= 102 ->
  iterateZ g c max = iterateZ g' c max /\
  exists (i : Z) (m : nat), iterateZ g c max = Ok (i, m).
Proof.
  intros Hmax.
  assert (El : wrap (max + 2) = max + 2).
  { apply wrap_small. unfold is_int, int_min, int_max. lia. }
  assert (Heq : forall g1 g2, iterateZ g1 c max = iterateZ g2 c max).
  { intros g1 g2. unfold IterateZ. cbv zeta. rewrite El.
    apply (IterateZ_loop_unguided math_Round int_of_float64 g1 g2 c (max + 2) _ _ _ 0%nat);
      [reflexivity | reflexivity | lia]. }
  split; [apply Heq |].
  destruct (IterateZ_at_most math_Round int_of_float64 example_guidemap c max
              example_guidemap_wf ltac:(unfold int_max; lia)) as (i & m & E & _).
  exists i, m. rewrite (Heq g example_guidemap). exact E.
Qed.

(** X7.  With [max] at most 104 the mining is exact: the seeds are the
    candidates drawn after the probing phase whose plain escape time is
    in [[min, max]], in the order drawn. *)
Theorem Mine_exact_up_to_104 (howmany min max : Z) (probes : nat)
  (rnd rnd' : list float) (seeds : list complex128) (realmin realmax : Z) :
  valid_config howmany min max -> max <= 104 ->
  mine howmany min max probes rnd = (Ok (seeds, realmin, realmax), rnd') ->
  exists consumed,
    snd (generateGuidemap 51 probes rnd) = consumed ++ rnd' /\
    seeds = List.filter (in_depth_range min max) (candidates consumed).
Proof.
  intros Hcfg H104 Hrun.
  pose proof (Mine_spec math_Round int_of_float64 cmplx_Abs howmany min max probes rnd Hcfg)
    as Hspec.
  rewrite Hrun in Hspec.
  destruct Hspec as (g0 & rnd1 & consumed & cs & c_last & Eg & Hwf & -> & Ecs & _ & -> & _).
  exists consumed. rewrite Eg. split; [reflexivity |].
  rewrite Ecs. destruct Hcfg as [_ Hmin Hmax].
  apply (accepted_exact math_Round int_of_float64 min max Hmin ltac:(lia) _ g0 Hwf).
Qed.

(** X11.  Every seed [Mine] returns is a finite point of the bailout
    disk, [|c|^2 <= 4], whatever the random source holds. *)
Theorem Mine_seeds_in_bailout_disk (howmany min max : Z) (probes : nat)
  (rnd rnd' : list float) (seeds : list complex128) (realmin realmax : Z) :
  valid_config howmany min max ->
  mine howmany min max probes rnd = (Ok (seeds, realmin, realmax), rnd') ->
  Forall (fun c => is_point c /\ inside c = true) seeds.
Proof.
  intros Hcfg Hrun.
  pose proof (Mine_spec math_Round int_of_float64 cmplx_Abs howmany min max probes rnd Hcfg)
    as Hspec.
  rewrite Hrun in Hspec.
  destruct Hspec as (g0 & rnd1 & consumed & cs & c_last & _ & _ & _ & _ & _ & -> & _).
  destruct Hcfg as [_ Hmin _].
  pose proof (accepted_points math_Round int_of_float64 min max Hmin (cs ++ [c_last]) g0)
    as Hp.
  pose proof (accepted_inside math_Round int_of_float64 min max Hmin (cs ++ [c_last]) g0)
    as Hi.
  apply List.Forall_forall. intros c Hc. split.
  - exact (proj1 (List.Forall_forall _ _) Hp c Hc).
  - exact (proj1 (List.Forall_forall _ _) Hi c Hc).
Qed.

End Evaluation.

(** ** The artifact *)

(** X15.  The artifact does not depend on the order in which the seeds
    were mined: two seedpacks with the same seeds, of which those that
    compare equal are equal, give the same file and the same digest. *)
Theorem SaveEMSFile_order_independent (md5_Sum : list Byte.byte -> list Byte.byte)
  (s1 s2 : list complex128) (min max : Z) :
  Forall no_nan s1 -> Permutation s1 s2 ->
  (forall a b, In a s1 -> In b s1 -> tied a b = true -> a = b) ->
  SaveEMSFile md5_Sum s1 min max = SaveEMSFile md5_Sum s2 min max.
Proof.
  intros Hnn HP Htied. unfold SaveEMSFile. cbv zeta.
  now rewrite (Sort_of_permutation s1 s2 Hnn HP Htied).
Qed.

(** X12.  [Sort] is the stable sort: a permutation of a seedpack that is
    sorted and keeps the seeds that compare equal in their order is what
    [Sort] returns. *)
Theorem Sort_is_the_stable_sort (s l : list complex128) :
  Forall no_nan s -> Permutation l s -> StronglySorted seed_le l ->
  (forall a, no_nan a -> List.filter (tied a) l = List.filter (tied a) s) ->
  l = Sort s.
Proof.
  intros Hnn HP Hsorted Hstable.
  assert (Hnl : Forall no_nan l).
  { apply List.Forall_forall. intros x Hx.
    apply (proj1 (List.Forall_forall _ _) Hnn), (Permutation_in _ HP Hx). }
  apply stable_sort_unique; auto.
  - rewrite HP. symmetry. apply Sort_perm_any.
  - apply Sort_sorted; exact Hnn.
  - intros a Ha. rewrite (Sort_stable a s Ha Hnn). apply Hstable; exact Ha.
Qed.

(** ** The bounds are tight *)

(** With [max = 103] the guidemap is read, at pass 104: a candidate of
    depth 202 is given [-1] on a blank guidemap, and the count of its
    passes when its cell is marked. *)
Remark IterateZ_reads_guidemap_at_103 :
  IterateZ GoLib.Round GoLib.int_of_float64 example_guidemap example_deep 103
    = Ok (-1, 105%nat) /\
  IterateZ GoLib.Round GoLib.int_of_float64 example_marked example_deep 103
    = Ok (105, 105%nat).
Proof. split; vm_compute; reflexivity. Qed.

(** A candidate of depth 202 in an unmarked cell is lost to a run with
    [max = 300], and found once its cell is marked. *)
Remark pruning_loses_a_deep_candidate :
  in_depth_range 2 300 example_deep = true /\
  IterateZ GoLib.Round GoLib.int_of_float64 example_guidemap example_deep 300
    = Ok (-1, 105%nat) /\
  IterateZ GoLib.Round GoLib.int_of_float64 example_marked example_deep 300
    = Ok (202, 202%nat).
Proof. repeat split; vm_compute; reflexivity. Qed.

(** Two seeds that compare equal without being equal, [1+0i] and
    [1-0i], are written in the order they were mined. *)
Remark order_of_tied_seeds_shows :
  ems_bytes (SaveEMSFile (fun _ => []) [Complex 1 0; Complex 1 (-0)] 2 4) <>
  ems_bytes (SaveEMSFile (fun _ => []) [Complex 1 (-0); Complex 1 0] 2 4).
Proof. vm_compute. discriminate. Qed.

(** ** The properties at work *)

Lemma example_marked_wf : Guidemap_wf example_marked.
Proof. constructor; vm_compute; congruence. Defined.

Lemma Mark_idempotent_witness :
  Guidemap_wf example_guidemap /\
  Mark GoLib.Round GoLib.int_of_float64 example_guidemap example_deep = Ok example_marked /\
  Mark GoLib.Round GoLib.int_of_float64 example_marked example_deep = Ok example_marked.
Proof.
  assert (E : Mark GoLib.Round GoLib.int_of_float64 example_guidemap example_deep
              = Ok example_marked) by (vm_compute; reflexivity).
  split; [exact example_guidemap_wf | split; [exact E |]].
  exact (Mark_idempotent GoLib.Round GoLib.int_of_float64 example_guidemap example_marked
           example_deep example_guidemap_wf E).
Defined.

Lemma Check_after_Mark_of_another_witness :
  Guidemap_wf example_guidemap /\
  Mark GoLib.Round GoLib.int_of_float64 example_guidemap example_deep = Ok example_marked /\
  Check GoLib.Round GoLib.int_of_float64 example_guidemap (Complex (-0.75) 0.0625)
    = Ok false /\
  Check GoLib.Round GoLib.int_of_float64 example_marked (Complex (-0.75) 0.0625)
    = Ok (false ||
          (cell_index GoLib.Round GoLib.int_of_float64 example_guidemap
             (Complex (-0.75) 0.0625) =?
           cell_index GoLib.Round GoLib.int_of_float64 example_guidemap example_deep)).
Proof.
  assert (E : Mark GoLib.Round GoLib.int_of_float64 example_guidemap example_deep
              = Ok example_marked) by (vm_compute; reflexivity).
  assert (C : Check GoLib.Round GoLib.int_of_float64 example_guidemap
                (Complex (-0.75) 0.0625) = Ok false) by (vm_compute; reflexivity).
  split; [exact example_guidemap_wf | split; [exact E | split; [exact C |]]].
  exact (proj1 (Check_after_Mark_of_another GoLib.Round GoLib.int_of_float64
                  example_guidemap example_marked example_deep (Complex (-0.75) 0.0625)
                  false example_guidemap_wf E C)).
Defined.

Lemma Mark_commute_witness :
  Guidemap_wf example_guidemap /\
  Mark GoLib.Round GoLib.int_of_float64 example_guidemap example_deep = Ok example_marked /\
  Mark GoLib.Round GoLib.int_of_float64 example_marked example_outside
    = Ok (set_itsData example_marked (<[50%nat := true]> (itsData example_marked))) /\
  exists g2,
    Mark GoLib.Round GoLib.int_of_float64 example_guidemap example_outside = Ok g2 /\
    Mark GoLib.Round GoLib.int_of_float64 g2 example_deep
      = Ok (set_itsData example_marked (<[50%nat := true]> (itsData example_marked))).
Proof.
  assert (E1 : Mark GoLib.Round GoLib.int_of_float64 example_guidemap example_deep
               = Ok example_marked) by (vm_compute; reflexivity).
  assert (E2 : Mark GoLib.Round GoLib.int_of_float64 example_marked example_outside
               = Ok (set_itsData example_marked
                       (<[50%nat := true]> (itsData example_marked))))
    by (vm_compute; reflexivity).
  split; [exact example_guidemap_wf | split; [exact E1 | split; [exact E2 |]]].
  exact (Mark_commute GoLib.Round GoLib.int_of_float64 example_guidemap example_marked _
           example_deep example_outside example_guidemap_wf E1 E2).
Defined.

Lemma IterateZ_exact_in_a_marked_cell_witness :
  is_point example_deep /\ (-1 <= 300 <= int_max - 2) /\
  Check GoLib.Round GoLib.int_of_float64 example_marked example_deep = Ok true /\
  IterateZ GoLib.Round GoLib.int_of_float64 example_marked example_deep 300
    = Ok (202, 202%nat) /\
  (202 = plain_escape example_deep 300 \/
   (202 = -1 /\ (forall n, escaped (orbit example_deep n) = false) /\
    plain_escape example_deep 300 = 300 + 2)).
Proof.
  assert (H1 : is_point example_deep) by (vm_compute; auto).
  assert (H2 : -1 <= 300 <= int_max - 2) by (unfold int_max; lia).
  assert (H3 : Check GoLib.Round GoLib.int_of_float64 example_marked example_deep
               = Ok true) by (vm_compute; reflexivity).
  assert (H4 : IterateZ GoLib.Round GoLib.int_of_float64 example_marked example_deep 300
               = Ok (202, 202%nat)) by (vm_compute; reflexivity).
  split; [exact H1 | split; [exact H2 | split; [exact H3 | split; [exact H4 |]]]].
  exact (IterateZ_exact_in_a_marked_cell GoLib.Round GoLib.int_of_float64
           example_marked example_deep 300 202 202 H1 H2 H3 H4).
Defined.

Lemma IterateZ_never_prunes_a_shallow_candidate_witness :
  is_point (Complex (-0.75) 0.0625) /\ (-1 <= 300 <= int_max - 2) /\
  plain_escape (Complex (-0.75) 0.0625) 300 <= 104 /\
  plain_escape (Complex (-0.75) 0.0625) 300 < 300 + 2 /\
  IterateZ GoLib.Round GoLib.int_of_float64 example_guidemap (Complex (-0.75) 0.0625) 300
    = Ok (51, 51%nat) /\
  51 = plain_escape (Complex (-0.75) 0.0625) 300.
Proof.
  assert (H1 : is_point (Complex (-0.75) 0.0625)) by (vm_compute; auto).
  assert (H2 : -1 <= 300 <= int_max - 2) by (unfold int_max; lia).
  assert (H3 : plain_escape (Complex (-0.75) 0.0625) 300 <= 104)
    by (vm_compute; discriminate).
  assert (H4 : plain_escape (Complex (-0.75) 0.0625) 300 < 300 + 2)
    by (vm_compute; reflexivity).
  assert (H5 : IterateZ GoLib.Round GoLib.int_of_float64 example_guidemap
                 (Complex (-0.75) 0.0625) 300 = Ok (51, 51%nat))
    by (vm_compute; reflexivity).
  split; [exact H1 | split; [exact H2 | split; [exact H3 | split; [exact H4 |
    split; [exact H5 |]]]]].
  exact (IterateZ_never_prunes_a_shallow_candidate GoLib.Round GoLib.int_of_float64
           example_guidemap (Complex (-0.75) 0.0625) 300 51 51 H1 H2 H3 H4 H5).
Defined.

Lemma IterateZ_ignores_guidemap_up_to_102_witness :
  (-1 <= 4 <= 102) /\
  IterateZ GoLib.Round GoLib.int_of_float64 example_guidemap example_deep 4
    = IterateZ GoLib.Round GoLib.int_of_float64 example_marked example_deep 4.
Proof.
  assert (H : -1 <= 4 <= 102) by lia.
  split; [exact H |].
  exact (proj1 (IterateZ_ignores_guidemap_up_to_102 GoLib.Round GoLib.int_of_float64
                  example_guidemap example_marked example_deep 4 H)).
Defined.

Lemma Mine_exact_up_to_104_witness :
  valid_config 5 2 4 /\ 4 <= 104 /\
  Mine GoLib.Round GoLib.int_of_float64 GoLib.Abs 5 2 4 1 example_rnd
    = (Ok (example_mined, 2, 4), [0.125; 0.625]%float) /\
  exists consumed,
    snd (GenerateGuidemap GoLib.Round GoLib.int_of_float64 GoLib.Abs 51 1 example_rnd)
      = consumed ++ [0.125; 0.625]%float /\
    example_mined = List.filter (in_depth_range 2 4) (candidates consumed).
Proof.
  assert (E : Mine GoLib.Round GoLib.int_of_float64 GoLib.Abs 5 2 4 1 example_rnd
              = (Ok (example_mined, 2, 4), [0.125; 0.625]%float))
    by (vm_compute; reflexivity).
  assert (H : 4 <= 104) by lia.
  split; [exact example_config_valid | split; [exact H | split; [exact E |]]].
  exact (Mine_exact_up_to_104 GoLib.Round GoLib.int_of_float64 GoLib.Abs
           5 2 4 1 example_rnd [0.125; 0.625]%float example_mined 2 4
           example_config_valid H E).
Defined.

Lemma Mine_reports_least_and_greatest_depth_witness :
  valid_config 5 2 4 /\
  Mine GoLib.Round GoLib.int_of_float64 GoLib.Abs 5 2 4 1 example_rnd
    = (Ok (example_mined, 2, 4), [0.125; 0.625]%float) /\
  Forall (fun c => 2 <= plain_escape c 4 <= 4) example_mined /\
  Exists (fun c => plain_escape c 4 = 2) example_mined /\
  Exists (fun c => plain_escape c 4 = 4) example_mined /\
  2 <= 2 /\ 2 <= 4 /\ 4 <= 4.
Proof.
  assert (E : Mine GoLib.Round GoLib.int_of_float64 GoLib.Abs 5 2 4 1 example_rnd
              = (Ok (example_mined, 2, 4), [0.125; 0.625]%float))
    by (vm_compute; reflexivity).
  split; [exact example_config_valid | split; [exact E |]].
  exact (Mine_reports_least_and_greatest_depth GoLib.Round GoLib.int_of_float64 GoLib.Abs
           5 2 4 1 example_rnd [0.125; 0.625]%float example_mined 2 4
           example_config_valid E).
Defined.

Lemma IterateZ_depth_is_the_number_of_passes_witness :
  IterateZ GoLib.Round GoLib.int_of_float64 example_marked example_deep 300
    = Ok (202, 202%nat) /\
  (202 = -1 \/ 202 = Z.of_nat 202).
Proof.
  assert (E : IterateZ GoLib.Round GoLib.int_of_float64 example_marked example_deep 300
              = Ok (202, 202%nat)) by (vm_compute; reflexivity).
  split; [exact E |].
  exact (IterateZ_depth_is_the_number_of_passes GoLib.Round GoLib.int_of_float64
           example_marked example_deep 300 202 202 E).
Defined.

Lemma Mine_seeds_in_bailout_disk_witness :
  valid_config 5 2 4 /\
  Mine GoLib.Round GoLib.int_of_float64 GoLib.Abs 5 2 4 1 example_rnd
    = (Ok (example_mined, 2, 4), [0.125; 0.625]%float) /\
  Forall (fun c => is_point c /\ inside c = true) example_mined.
Proof.
  assert (E : Mine GoLib.Round GoLib.int_of_float64 GoLib.Abs 5 2 4 1 example_rnd
              = (Ok (example_mined, 2, 4), [0.125; 0.625]%float))
    by (vm_compute; reflexivity).
  split; [exact example_config_valid | split; [exact E |]].
  exact (Mine_seeds_in_bailout_disk GoLib.Round GoLib.int_of_float64 GoLib.Abs
           5 2 4 1 example_rnd [0.125; 0.625]%float example_mined 2 4
           example_config_valid E).
Defined.

Lemma Sort_is_the_stable_sort_witness :
  Forall no_nan [Complex (-1.5) 0.5; Complex 1 1] /\
  Permutation [Complex (-1.5) 0.5; Complex 1 1] [Complex (-1.5) 0.5; Complex 1 1] /\
  StronglySorted seed_le [Complex (-1.5) 0.5; Complex 1 1] /\
  [Complex (-1.5) 0.5; Complex 1 1] = Sort [Complex (-1.5) 0.5; Complex 1 1].
Proof.
  assert (H1 : Forall no_nan [Complex (-1.5) 0.5; Complex 1 1]).
  { repeat constructor; unfold is_number, not_nan; vm_compute; discriminate. }
  assert (H2 : Permutation [Complex (-1.5) 0.5; Complex 1 1]
                           [Complex (-1.5) 0.5; Complex 1 1]) by reflexivity.
  assert (H3 : StronglySorted seed_le [Complex (-1.5) 0.5; Complex 1 1]).
  { repeat constructor; vm_compute; reflexivity. }
  split; [exact H1 | split; [exact H2 | split; [exact H3 |]]].
  exact (Sort_is_the_stable_sort _ _ H1 H2 H3 (fun a _ => eq_refl)).
Defined.

Lemma GenerateGuidemap_marks_probed_cells_witness :
  1 <= 51 /\ 51 * 51 <= int_max /\
  GenerateGuidemap GoLib.Round GoLib.int_of_float64 GoLib.Abs 51 1 example_probe_rnd
    = (Ok example_marked, []) /\
  exists consumed,
    example_probe_rnd = consumed ++ [] /\ length consumed = (2 * 1)%nat /\
    forall p, Check GoLib.Round GoLib.int_of_float64 example_marked p = Ok true ->
      exists c, In c (candidates consumed) /\
        cell_index GoLib.Round GoLib.int_of_float64 example_marked p =
        cell_index GoLib.Round GoLib.int_of_float64 example_marked c.
Proof.
  assert (H1 : 1 <= 51) by lia.
  assert (H2 : 51 * 51 <= int_max) by (unfold int_max; lia).
  assert (E : GenerateGuidemap GoLib.Round GoLib.int_of_float64 GoLib.Abs 51 1
                example_probe_rnd = (Ok example_marked, []))
    by (vm_compute; reflexivity).
  split; [exact H1 | split; [exact H2 | split; [exact E |]]].
  exact (GenerateGuidemap_marks_probed_cells GoLib.Round GoLib.int_of_float64 GoLib.Abs
           51 1 example_probe_rnd [] example_marked H1 H2 E).
Defined.

Lemma main_artifact_sorted_witness :
  valid_config 5 2 4 /\
  main (fun _ => []) GoLib.Round GoLib.int_of_float64 GoLib.Abs 5 2 4 1 example_rnd
    = (Ok (SaveEMSFile (fun _ => []) example_mined 2 4), [0.125; 0.625]%float) /\
  Z.of_nat (length (ems_bytes (SaveEMSFile (fun _ => []) example_mined 2 4)))
    = 32 + 16 * 5.
Proof.
  assert (E : main (fun _ => []) GoLib.Round GoLib.int_of_float64 GoLib.Abs 5 2 4 1
                example_rnd
              = (Ok (SaveEMSFile (fun _ => []) example_mined 2 4), [0.125; 0.625]%float))
    by (vm_compute; reflexivity).
  split; [exact example_config_valid | split; [exact E |]].
  exact (proj2 (proj2
    (main_artifact_sorted (fun _ => []) GoLib.Round GoLib.int_of_float64 GoLib.Abs
       5 2 4 1 example_rnd [0.125; 0.625]%float _ example_config_valid E))).
Defined.

Lemma SaveEMSFile_order_independent_witness :
  Forall no_nan [Complex 1 1; Complex (-1.5) 0.5] /\
  Permutation [Complex 1 1; Complex (-1.5) 0.5] [Complex (-1.5) 0.5; Complex 1 1] /\
  SaveEMSFile (fun _ => []) [Complex 1 1; Complex (-1.5) 0.5] 2 4
    = SaveEMSFile (fun _ => []) [Complex (-1.5) 0.5; Complex 1 1] 2 4.
Proof.
  assert (H1 : Forall no_nan [Complex 1 1; Complex (-1.5) 0.5]).
  { repeat constructor; unfold is_number, not_nan; vm_compute; discriminate. }
  assert (H2 : Permutation [Complex 1 1; Complex (-1.5) 0.5]
                           [Complex (-1.5) 0.5; Complex 1 1]) by constructor.
  assert (H3 : forall a b, In a [Complex 1 1; Complex (-1.5) 0.5] ->
                           In b [Complex 1 1; Complex (-1.5) 0.5] ->
                           tied a b = true -> a = b).
  { intros a b [<- | [<- | []]] [<- | [<- | []]] H; try reflexivity;
      vm_compute in H; discriminate H. }
  split; [exact H1 | split; [exact H2 |]].
  exact (SaveEMSFile_order_independent (fun _ => []) _ _ 2 4 H1 H2 H3).
Defined.

(** ** When the ceiling overflows *)

Section Overflow.

Variable math_Round : float -> float.
Variable int_of_float64 : float -> Z.
Variable cmplx_Abs : complex128 -> float.

Local Abbreviation iterateZ := (IterateZ math_Round int_of_float64).
Local Abbreviation acceptedBy := (accepted math_Round int_of_float64).
Local Abbreviation mine := (Mine math_Round int_of_float64 cmplx_Abs).

(** With [max + 2] beyond the int range no candidate is accepted: [l]
    is negative and the first pass leaves the loop with [i = 1]. *)
Lemma accepted_overflow (min max : Z) :
  2 <= min -> int_max - 2 < max <= int_max ->
  forall (cs : list complex128) (g : Guidemap), acceptedBy min max g cs = [].
Proof.
  intros Hmin Hmax. induction cs as [| c cs IH]; intros g; cbn [accepted]; [reflexivity |].
  destruct (iterateZ g c max) as [[i k] | | |] eqn:Erun; try reflexivity.
  destruct (IterateZ_cases math_Round int_of_float64 g c max i k
              ltac:(unfold int_max in *; lia) Erun) as [-> | [[_ ->] | [_ H]]]; [| | lia].
  - destruct (min <=? -1) eqn:E; [apply Z.leb_le in E; lia | apply IH].
  - destruct (min <=? 1) eqn:E; [apply Z.leb_le in E; lia | apply IH].
Qed.

(** X16.  With [max] above [MaxInt64 - 2] the ceiling [l = max + 2]
    overflows, and [Mine] never returns: no candidate is accepted, so the
    outer loop runs for as long as the random source lasts. *)
Theorem Mine_never_returns_when_the_ceiling_overflows (howmany min max : Z)
  (probes : nat) (rnd : list float) :
  valid_config howmany min max -> int_max - 2 < max ->
  fst (mine howmany min max probes rnd) = Starved.
Proof.
  intros Hcfg Hbig.
  pose proof (Mine_spec math_Round int_of_float64 cmplx_Abs howmany min max probes rnd Hcfg)
    as Hspec.
  destruct Hcfg as [Hhow Hmin Hmax].
  destruct (mine howmany min max probes rnd) as [[[[seeds realmin] realmax] | | |] rnd'];
    try contradiction; [exfalso | reflexivity].
  destruct Hspec as (g0 & rnd1 & consumed & cs & c_last & _ & _ & _ & _ & _ & -> & Hlen).
  rewrite (accepted_overflow min max Hmin ltac:(lia)) in Hlen. cbn in Hlen. lia.
Qed.

End Overflow.

Lemma Mine_never_returns_when_the_ceiling_overflows_witness :
  valid_config 1 2 int_max /\ int_max - 2 < int_max /\
  fst (Mine GoLib.Round GoLib.int_of_float64 GoLib.Abs 1 2 int_max 1 example_rnd)
    = Starved.
Proof.
  assert (H1 : valid_config 1 2 int_max) by (constructor; unfold int_max; lia).
  assert (H2 : int_max - 2 < int_max) by lia.
  split; [exact H1 | split; [exact H2 |]].
  exact (Mine_never_returns_when_the_ceiling_overflows GoLib.Round GoLib.int_of_float64
           GoLib.Abs 1 2 int_max 1 example_rnd H1 H2).
Defined.
